(** * Bookfix (Text_Prep_TTS): a shallow embedding of the text pipeline

    The development embeds the text-processing core of the [bookfix]
    package: the section-marked data file ([datafile.py]), the Roman
    numeral converter ([processors/roman.py]), pagination removal
    ([processors/pagination.py]) and the three interactive processors
    ([processors/choices.py], [processors/allcaps.py],
    [processors/numbered.py]).

    Python's [str] is embedded as [list ascii]; the alphabet of the
    embedding is 7-bit ASCII, and a character with the high bit set is
    a caseless symbol that is neither a word character, a digit nor
    white space.  Sets are [gset]s, ordered dictionaries are association
    lists, and the patterns handed to [re] are terms of a small regular
    expression type interpreted by a backtracking matcher. *)

From Stdlib Require Import Ascii String.
From stdpp Require Import gmap strings list sorting pretty.

Abbreviation str := (list ascii).

(** [py "abc"] is the Python string literal ['abc']. *)
Definition py (s : string) : str := list_ascii_of_string s.

(** The newline character and the one-character string ['\n']. *)
Definition LF : ascii := "010"%char.
Definition nl : str := [LF].

(** ** Characters *)

Module Char.

Definition code (c : ascii) : nat := nat_of_ascii c.

Definition between (lo hi c : ascii) : bool :=
  (code lo <=? code c) && (code c <=? code hi).

Definition is_upper (c : ascii) : bool := between "A"%char "Z"%char c.
Definition is_lower (c : ascii) : bool := between "a"%char "z"%char c.
Definition is_alpha (c : ascii) : bool := is_upper c || is_lower c.
Definition is_digit (c : ascii) : bool := between "0"%char "9"%char c.

(** [\w]: letters, digits and the underscore. *)
Definition is_word (c : ascii) : bool :=
  is_alpha c || is_digit c || bool_decide (c = "_"%char).

(** [str.isspace] on ASCII: TAB, LF, VT, FF, CR, FS, GS, RS, US, SPACE. *)
Definition is_space (c : ascii) : bool :=
  between "009"%char "013"%char c || between "028"%char "031"%char c || bool_decide (c = " "%char).

(** The line boundaries of [str.splitlines] on ASCII. *)
Definition is_linebreak (c : ascii) : bool :=
  between "010"%char "013"%char c || between "028"%char "030"%char c.

Definition lower (c : ascii) : ascii :=
  if is_upper c then ascii_of_nat (code c + 32) else c.

Definition upper (c : ascii) : ascii :=
  if is_lower c then ascii_of_nat (code c - 32) else c.

End Char.

(** ** Strings *)

Definition lower (s : str) : str := Char.lower <$> s.
Definition upper (s : str) : str := Char.upper <$> s.

(** [s[i:j]] for [0 <= i], [0 <= j]: slices are clipped, never raise. *)
Definition slice (s : str) (i j : nat) : str := take (j - i) (drop i s).

Fixpoint lstrip (s : str) : str :=
  match s with
  | c :: s' => if Char.is_space c then lstrip s' else s
  | [] => []
  end.
Definition rstrip (s : str) : str := reverse (lstrip (reverse s)).
Definition strip (s : str) : str := rstrip (lstrip s).

(** [str.isdigit]: non-empty and all digits. *)
Definition isdigit (s : str) : bool :=
  bool_decide (s ≠ []) && forallb Char.is_digit s.

(** [sep.join(parts)]. *)
Fixpoint join (sep : str) (parts : list str) : str :=
  match parts with
  | [] => []
  | [p] => p
  | p :: ps => p ++ sep ++ join sep ps
  end.

(** [str.splitlines()]: [cur] holds the current line, reversed.  A CR
    directly followed by LF is one boundary; a final boundary opens no
    empty last line. *)
Fixpoint splitlines_go (cur : str) (s : str) : list str :=
  match s with
  | [] => match cur with [] => [] | _ => [reverse cur] end
  | c :: s' =>
      if Char.is_linebreak c then
        reverse cur ::
          match s' with
          | d :: s'' =>
              if bool_decide (c = "013"%char) && bool_decide (d = "010"%char)
              then splitlines_go [] s''
              else splitlines_go [] s'
          | [] => []
          end
      else splitlines_go (c :: cur) s'
  end.

Definition splitlines (s : str) : list str := splitlines_go [] s.

(** [str.endswith]. *)
Definition endswith (s suffix : str) : bool :=
  bool_decide (drop (length s - length suffix) s = suffix).

(** [str.startswith]. *)
Definition startswith (s prefix : str) : bool :=
  bool_decide (take (length prefix) s = prefix).


(** ** Regular expressions

    The patterns of the program are terms of [regex].  Matching is by
    backtracking in continuation-passing style, with the priorities of
    Python's [re]: the left branch of an alternation first, repetitions
    greedy.  Every repetition in the program's patterns is over a single
    character class, which [Rep] captures; the matcher is therefore
    structurally recursive and total. *)

Module Re.

(** A position in the subject: the text before it (most recent
    character first) and the text from it on. *)
Record cursor := Cursor { seen : str; ahead : str }.

Definition pos (c : cursor) : nat := length (seen c).
Definition subject (c : cursor) : str := reverse (seen c) ++ ahead c.

Definition word_before (sn : str) : bool :=
  match sn with x :: _ => Char.is_word x | [] => false end.
Definition word_after (ah : str) : bool :=
  match ah with x :: _ => Char.is_word x | [] => false end.

(** [\b]: exactly one side of the position is a word character. *)
Definition boundary (sn ah : str) : bool :=
  xorb (word_before sn) (word_after ah).

Inductive regex : Type :=
| Eps
| Lit (icase : bool) (s : str)   (* [re.escape(s)], under [re.IGNORECASE] if [icase] *)
| Cls (p : ascii → bool)         (* one character of a class *)
| Rep (p : ascii → bool) (lo : nat) (hi : option nat)  (* greedy [p{lo,hi}] *)
| Cat (r1 r2 : regex)
| Alt (r1 r2 : regex)
| WordB                          (* [\b] *)
| NotBehind (p : ascii → bool)   (* [(?<![...])] *)
| NotAhead (p : ascii → bool)    (* [(?![...])] *)
| Bos                            (* [^] *)
| Eos.                           (* [$] *)

Definition eqc (icase : bool) (x y : ascii) : bool :=
  if icase then bool_decide (Char.lower x = Char.lower y)
  else bool_decide (x = y).

Section matcher.
Context {A : Type}.

Fixpoint lit (icase : bool) (s : str) (sn ah : str)
    (k : cursor → option A) : option A :=
  match s with
  | [] => k (Cursor sn ah)
  | x :: s' =>
      match ah with
      | y :: a => if eqc icase x y then lit icase s' (y :: sn) a k else None
      | [] => None
      end
  end.

(** Greedy bounded repetition: take one more character if allowed,
    and fall back to stopping here when the rest fails. *)
Fixpoint rep (p : ascii → bool) (lo : nat) (hi : option nat)
    (sn ah : str) (k : cursor → option A) : option A :=
  let stop := match lo with 0 => k (Cursor sn ah) | S _ => None end in
  match hi, ah with
  | Some 0, _ => stop
  | _, x :: a =>
      if p x then
        match rep p (pred lo) (pred <$> hi) (x :: sn) a k with
        | Some res => Some res
        | None => stop
        end
      else stop
  | _, [] => stop
  end.

Fixpoint run (r : regex) (c : cursor) (k : cursor → option A) : option A :=
  match r with
  | Eps => k c
  | Lit icase s => lit icase s (seen c) (ahead c) k
  | Cls p =>
      match ahead c with
      | x :: a => if p x then k (Cursor (x :: seen c) a) else None
      | [] => None
      end
  | Rep p lo hi => rep p lo hi (seen c) (ahead c) k
  | Cat r1 r2 => run r1 c (λ c', run r2 c' k)
  | Alt r1 r2 =>
      match run r1 c k with
      | Some res => Some res
      | None => run r2 c k
      end
  | WordB => if boundary (seen c) (ahead c) then k c else None
  | NotBehind p =>
      match seen c with
      | x :: _ => if p x then None else k c
      | [] => k c
      end
  | NotAhead p =>
      match ahead c with
      | x :: _ => if p x then None else k c
      | [] => k c
      end
  | Bos => match seen c with [] => k c | _ => None end
  | Eos =>
      match ahead c with
      | [] => k c
      | [x] => if bool_decide (x = "010"%char) then k c else None
      | _ => None
      end
  end.
End matcher.

(** [pattern.match] anchored at a cursor: where the match ends. *)
Definition match_at (r : regex) (c : cursor) : option cursor := run r c Some.

(** [re.fullmatch(r, s)]: a match that consumes all of [s]. *)
Definition fullmatch (r : regex) (s : str) : bool :=
  bool_decide (is_Some (run r (Cursor [] s)
    (λ c, match ahead c with [] => Some c | _ => None end))).

(** A match object: [m.start()], [m.end()], [m.group(0)]. *)
Record rmatch := Match { m_start : nat; m_end : nat; group0 : str }.

Definition span (m : rmatch) : nat * nat := (m_start m, m_end m).

(** The scan of [finditer]/[sub]: attempt a match at every position
    from left to right; [skip] counts the characters still covered by
    the match found last.  After an empty match the scan moves on by
    one character. *)
Fixpoint scan (r : regex) (sn ah : str) (skip : nat) : list (nat * nat) :=
  match skip with
  | S n => match ah with x :: a => scan r (x :: sn) a n | [] => [] end
  | 0 =>
      match match_at r (Cursor sn ah) with
      | Some c' =>
          (length sn, pos c') ::
            match ah with
            | x :: a => scan r (x :: sn) a (pos c' - length sn - 1)
            | [] => []
            end
      | None =>
          match ah with x :: a => scan r (x :: sn) a 0 | [] => [] end
      end
  end.

Definition finditer (r : regex) (text : str) : list rmatch :=
  (λ se, Match se.1 se.2 (slice text se.1 se.2)) <$> scan r [] text 0.

(** The text with every match replaced by the string paired with it. *)
Fixpoint rebuild_with (text : str) (from : nat) (ms : list (rmatch * str)) : str :=
  match ms with
  | [] => drop from text
  | (m, r) :: ms' =>
      slice text from (m_start m) ++ r ++ rebuild_with text (m_end m) ms'
  end.

(** [re.sub(r, repl, text)] with a function [repl]. *)
Definition sub (r : regex) (repl : rmatch → str) (text : str) : str :=
  rebuild_with text 0 ((λ m, (m, repl m)) <$> finditer r text).

(** [r'\b' + re.escape(w) + r'\b'] *)
Definition whole_word (icase : bool) (w : str) : regex :=
  Cat WordB (Cat (Lit icase w) WordB).

End Re.

(** ** The processing context ([context.py])

    [BookfixContext] carries the text, the input path and the rule sets
    loaded from the data file.  Dictionaries are association lists in
    insertion order; a log entry keeps the step, the description and the
    two lengths (the time stamp is left out). *)

Record log_entry := LogEntry {
  step : str;
  description : str;
  before_length : nat;
  after_length : nat
}.

Record BookfixContext := Ctx {
  text : str;
  filepath : option str;
  choices : list (str * list str);
  replacements : list (str * str);
  periods : gset str;
  ignore_set : gset str;
  lowercase_set : gset str;
  roman_ignore_set : gset str;
  default_file_directory : option str;
  processing_log : list log_entry
}.

(** [BookfixContext()] *)
Definition empty_ctx : BookfixContext :=
  Ctx [] None [] [] ∅ ∅ ∅ ∅ None [].

Definition set_text (t : str) (ctx : BookfixContext) : BookfixContext :=
  Ctx t (filepath ctx) (choices ctx) (replacements ctx) (periods ctx)
      (ignore_set ctx) (lowercase_set ctx) (roman_ignore_set ctx)
      (default_file_directory ctx) (processing_log ctx).

Definition set_ignore_set (s : gset str) (ctx : BookfixContext) : BookfixContext :=
  Ctx (text ctx) (filepath ctx) (choices ctx) (replacements ctx) (periods ctx)
      s (lowercase_set ctx) (roman_ignore_set ctx)
      (default_file_directory ctx) (processing_log ctx).

Definition set_lowercase_set (s : gset str) (ctx : BookfixContext) : BookfixContext :=
  Ctx (text ctx) (filepath ctx) (choices ctx) (replacements ctx) (periods ctx)
      (ignore_set ctx) s (roman_ignore_set ctx)
      (default_file_directory ctx) (processing_log ctx).

(** [x or len(self.text)]: [None] and [0] both fall through. *)
Definition or_len (x : option nat) (t : str) : nat :=
  match x with
  | Some (S n) => S n
  | _ => length t
  end.

(** [ctx.log_change(step, description, before_length, after_length)] *)
Definition log_change (st desc : str) (before after : option nat)
    (ctx : BookfixContext) : BookfixContext :=
  Ctx (text ctx) (filepath ctx) (choices ctx) (replacements ctx) (periods ctx)
      (ignore_set ctx) (lowercase_set ctx) (roman_ignore_set ctx)
      (default_file_directory ctx)
      (processing_log ctx ++
         [LogEntry st desc (or_len before (text ctx)) (or_len after (text ctx))]).

(** [str(n)] for a natural number. *)
Definition str_of_nat (n : nat) : str := py (pretty n).

(** ** Pagination removal ([processors/pagination.py]) *)

Module Pagination.

(** What the BeautifulSoup branch computes is outside the embedding:
    [soup] stands for parsing the text, collecting and removing the
    page-number elements and serialising the tree again.  It returns
    the serialised tree and the entries logged, or, when the library
    raises, the entries logged until then. *)
Definition soup_pass : Type := str → (str * list str) + list str.

Record outcome := Outcome {
  ctx_out : BookfixContext;
  pagination_log : list str;      (* the entries appended to [pagination_log] *)
  debug_file : option str         (* what is written to pagination_debug.txt *)
}.

Definition is_html (fp : str) : bool :=
  endswith (lower fp) (py ".xhtml") || endswith (lower fp) (py ".html").

Definition is_txt (fp : str) : bool := endswith (lower fp) (py ".txt").

Definition page_number_line (line : str) : bool := isdigit (strip line).

Definition nonblank (line : str) : bool :=
  bool_decide (strip line ≠ []).

(** The body of the [try] block: the new text and the log. *)
Definition remove_body (soup : soup_pass) (fp : option str) (t : str)
    : str * list str :=
  match fp with
  | Some (c :: fp') =>
      let fp := c :: fp' in
      if is_html fp then
        match soup t with
        | inl (serialised, removed) =>
            (join nl (filter (λ l, nonblank l = true) (splitlines serialised)), removed)
        | inr removed => (t, removed)
        end
      else if is_txt fp then
        let lines := splitlines t in
        (join nl (filter (λ l, page_number_line l = false) lines),
         (λ l, py "Removed: " ++ l) <$>
           filter (λ l, page_number_line l = true) lines)
      else (t, [])
  | _ => (t, [])
  end.

(** [remove_pagination(ctx)].  [bs4] is [None] when the import of
    BeautifulSoup failed; an HTML input is then returned at once,
    before the debug file and the processing log are written. *)
Definition remove_pagination (bs4 : option soup_pass) (ctx : BookfixContext)
    : outcome :=
  let original_text := text ctx in
  let html := match filepath ctx with
              | Some (c :: fp') => is_html (c :: fp')
              | _ => false
              end in
  match html, bs4 with
  | true, None => Outcome ctx [] None
  | _, _ =>
      let soup := default (λ _, inr []) bs4 in
      let '(t, removed) := remove_body soup (filepath ctx) original_text in
      let ctx := set_text t ctx in
      Outcome
        (log_change (py "remove_pagination")
           (py "Removed " ++ str_of_nat (length removed)
              ++ py " pagination elements")
           (Some (length original_text)) (Some (length t)) ctx)
        removed
        (Some (join nl removed))
  end.

(** The document of the pagination example: ['1\nChapter One\n2\n']. *)
Definition chapter_doc : str :=
  py "1" ++ nl ++ py "Chapter One" ++ nl ++ py "2" ++ nl.

Definition ctx_of_file (fp : string) (t : str) : BookfixContext :=
  Ctx t (Some (py fp)) [] [] ∅ ∅ ∅ ∅ None [].

End Pagination.

(** ** Numbered line editing ([processors/numbered.py]) *)

Module Numbered.

(** [re.compile(r'\d{3,}')] *)
Definition number_pattern : Re.regex := Re.Rep Char.is_digit 3 None.

Abbreviation numbered_line := (nat * str * list (nat * nat))%type.

Record processor := Processor {
  numbered_lines : list numbered_line;
  current_numbered_idx : nat;
  numbered_edits : gmap nat str
}.

(** [NumberedLineProcessor()] *)
Definition new : processor := Processor [] 0 ∅.

(** The loop of [find_numbered_lines] over [enumerate(lines)]. *)
Fixpoint find_loop (idx : nat) (lines : list str) : list numbered_line :=
  match lines with
  | [] => []
  | line :: rest =>
      let spans := Re.span <$> Re.finditer number_pattern line in
      match spans with
      | [] => find_loop (S idx) rest
      | _ => (idx, line, spans) :: find_loop (S idx) rest
      end
  end.

Definition find_numbered_lines (t : str) : list numbered_line :=
  find_loop 0 (splitlines t).

(** [start_numbered_line_edit(ctx)]: the processor and whether editing starts. *)
Definition start_numbered_line_edit (ctx : BookfixContext) : processor * bool :=
  let found := find_numbered_lines (text ctx) in
  (Processor found 0 ∅, bool_decide (found ≠ [])).

(** [_finish_editing()] returns [False]. *)
Definition finish_editing (p : processor) : processor * bool := (p, false).

Definition go_next (p : processor) : processor * bool :=
  if decide (current_numbered_idx p < length (numbered_lines p) - 1) then
    (Processor (numbered_lines p) (S (current_numbered_idx p)) (numbered_edits p),
     true)
  else finish_editing p.

Definition save_and_next (edited_text : str) (p : processor) : processor * bool :=
  let p :=
    match numbered_lines p !! current_numbered_idx p with
    | Some (lineno, original_line, _) =>
        if decide (strip edited_text ≠ strip original_line) then
          Processor (numbered_lines p) (current_numbered_idx p)
            (<[lineno := strip edited_text]> (numbered_edits p))
        else p
    | None => p
    end in
  go_next p.

Definition go_previous (p : processor) : processor * bool :=
  match current_numbered_idx p with
  | S n => (Processor (numbered_lines p) n (numbered_edits p), true)
  | 0 => (p, true)
  end.

(** The loop of [apply_edits]: [lines[lineno] = replacement] for every
    item whose line number is in range. *)
Definition edit_lines (edits : list (nat * str)) (lines : list str) : list str :=
  foldl (λ ls e, <[e.1 := e.2]> ls) lines edits.

Definition changes_made (edits : list (nat * str)) (lines : list str) : nat :=
  length (filter (λ e, e.1 < length lines) edits).

(** [apply_edits(ctx)] *)
Definition apply_edits (p : processor) (ctx : BookfixContext) : BookfixContext :=
  let edits := map_to_list (numbered_edits p) in
  match edits with
  | [] => ctx
  | _ =>
      let lines := splitlines (text ctx) in
      let ctx := set_text (join nl (edit_lines edits lines)) ctx in
      log_change (py "numbered_line_edit")
        (py "Applied " ++ str_of_nat (changes_made edits lines)
           ++ py " line edits from numbered line editor")
        None None ctx
  end.

(** The text of the example: three lines joined by newlines. *)
Definition example_lines : list str :=
  [py "no numbers here"; py "see page 1234 now"; py "another 56 small"].

End Numbered.

(** ** Words used to state what the scans find *)

(** The length of the longest prefix of [l] in the class [p]. *)
Fixpoint run_length (p : ascii → bool) (l : str) : nat :=
  match l with
  | x :: l' => if p x then S (run_length p l') else 0
  | [] => 0
  end.

(** The character at index [i] is a digit. *)
Definition digit_at (t : str) (i : nat) : bool :=
  match t !! i with Some c => Char.is_digit c | None => false end.

(** [t[s:e]] is a maximal run of digits of [t]. *)
Definition digit_run (t : str) (s e : nat) : Prop :=
  s < e
  ∧ (∀ i, s ≤ i < e → digit_at t i = true)
  ∧ digit_at t e = false
  ∧ (s = 0 ∨ digit_at t (s - 1) = false).

(** [t] has three digits in a row somewhere. *)
Definition has_three_digits (t : str) : Prop :=
  ∃ i, digit_at t i = true ∧ digit_at t (i + 1) = true ∧ digit_at t (i + 2) = true.

(** The character just before the cursor is a digit. *)
Definition digit_before (sn : str) : bool :=
  match sn with x :: _ => Char.is_digit x | [] => false end.

(** The example of the numbered-line editor: the three lines as one
    text, and the edit typed for the line shown. *)
Definition numbered_doc : str := join nl Numbered.example_lines.
Definition numbered_edit : str := py "see page twelve thirty-four now".

(** ** Roman numerals ([processors/roman.py]) *)

Module Roman.

Definition is_char (a c : ascii) : bool := bool_decide (c = a).

Definition one_of (s : string) (c : ascii) : bool := bool_decide (c ∈ py s).

(** [r"^M{0,3}(?:CM|CD|D?C{0,3})(?:XC|XL|L?X{0,3})(?:IX|IV|V?I{0,3})$"]
    without its anchors. *)
Definition numeral : Re.regex :=
  Re.Cat (Re.Rep (is_char "M") 0 (Some 3))
 (Re.Cat (Re.Alt (Re.Lit false (py "CM")) (Re.Alt (Re.Lit false (py "CD"))
            (Re.Cat (Re.Rep (is_char "D") 0 (Some 1)) (Re.Rep (is_char "C") 0 (Some 3)))))
 (Re.Cat (Re.Alt (Re.Lit false (py "XC")) (Re.Alt (Re.Lit false (py "XL"))
            (Re.Cat (Re.Rep (is_char "L") 0 (Some 1)) (Re.Rep (is_char "X") 0 (Some 3)))))
         (Re.Alt (Re.Lit false (py "IX")) (Re.Alt (Re.Lit false (py "IV"))
            (Re.Cat (Re.Rep (is_char "V") 0 (Some 1)) (Re.Rep (is_char "I") 0 (Some 3))))))).

Definition validator : Re.regex := Re.Cat Re.Bos (Re.Cat numeral Re.Eos).

(** [roman_map]; a missing key raises [KeyError]. *)
Definition roman_map (ch : ascii) : option Z :=
  if is_char "I" ch then Some 1%Z
  else if is_char "V" ch then Some 5%Z
  else if is_char "X" ch then Some 10%Z
  else if is_char "L" ch then Some 50%Z
  else if is_char "C" ch then Some 100%Z
  else if is_char "D" ch then Some 500%Z
  else if is_char "M" ch then Some 1000%Z
  else None.

(** The loop over [reversed(roman)]; [None] when a lookup raises. *)
Fixpoint subtractive (reversed : str) (total prev : Z) : option Z :=
  match reversed with
  | [] => Some total
  | ch :: rest =>
      match roman_map ch with
      | Some val =>
          subtractive rest
            (total + (if (val >=? prev)%Z then val else - val))%Z val
      | None => None
      end
  end.

(** What a call does: it returns an integer or [None], or it raises. *)
Inductive outcome :=
| Returns (v : option Z)
| Raises.

(** [roman_to_arabic(roman)] *)
Definition roman_to_arabic (roman : str) : outcome :=
  let roman := upper roman in
  if decide (roman = py "I") then Returns None
  else if negb (Re.fullmatch validator roman) then Returns None
  else
    match subtractive (reverse roman) 0 0 with
    | Some total => Returns (Some total)
    | None => Raises
    end.

(** The standard numerals: one table per decimal place. *)
Definition thousands : list str := py <$> [""; "M"; "MM"; "MMM"]%string.
Definition hundreds : list str :=
  py <$> [""; "C"; "CC"; "CCC"; "CD"; "D"; "DC"; "DCC"; "DCCC"; "CM"]%string.
Definition tens : list str :=
  py <$> [""; "X"; "XX"; "XXX"; "XL"; "L"; "LX"; "LXX"; "LXXX"; "XC"]%string.
Definition units : list str :=
  py <$> [""; "I"; "II"; "III"; "IV"; "V"; "VI"; "VII"; "VIII"; "IX"]%string.

(** The standard numeral of [n], for [n] below 4000. *)
Definition to_roman (n : nat) : str :=
  thousands !!! (n / 1000) ++ hundreds !!! (n / 100 mod 10)
    ++ tens !!! (n / 10 mod 10) ++ units !!! (n mod 10).

(** [r"(?<![A-Za-z&.\-+:;/\\])\b([VXLCDM]|[MDCLXVI]{2,})\b(?![A-Za-z&.\-+:;/\\])"] *)
Definition guard (c : ascii) : bool :=
  Char.is_alpha c || one_of "&.-+:;/\" c.

Definition roman_pattern : Re.regex :=
  Re.Cat (Re.NotBehind guard)
 (Re.Cat Re.WordB
 (Re.Cat (Re.Alt (Re.Cls (one_of "VXLCDM")) (Re.Rep (one_of "MDCLXVI") 2 None))
 (Re.Cat Re.WordB (Re.NotAhead guard)))).

(** A line of [roman_conversions.log]. *)
Record conversion := Conversion {
  conv_token : str;
  conv_value : Z;
  conv_context : str
}.

(** What [_replace(m)] decides for one match: the replacement and the
    line logged, or [None] when the conversion raises. *)
Definition replace (ctx : BookfixContext) (m : Re.rmatch)
    : option (str * option conversion) :=
  let token := Re.group0 m in
  if decide (upper token ∈ roman_ignore_set ctx) then Some (token, None)
  else
    match roman_to_arabic token with
    | Returns (Some val) =>
        if (val >? 0)%Z then
          let context_start := Re.m_start m - 10 in
          let context_end := Re.m_end m + 10 `min` length (text ctx) in
          Some (str_of_nat (Z.to_nat val),
                Some (Conversion token val
                        (slice (text ctx) context_start context_end)))
        else Some (token, None)
    | Returns None => Some (token, None)
    | Raises => None
    end.

Record converted := Converted {
  conv_ctx : BookfixContext;
  conversion_log : list conversion
}.

(** [convert_roman_numerals(ctx)]; [None] when [_replace] raises. *)
Definition convert_roman_numerals (ctx : BookfixContext) : option converted :=
  let original_text := text ctx in
  let ms := Re.finditer roman_pattern original_text in
  decided ← mapM (replace ctx) ms;
  let t := Re.rebuild_with original_text 0 (zip ms (fst <$> decided)) in
  let logged := omap snd decided in
  let ctx := set_text t ctx in
  Some (Converted
          (log_change (py "roman_numerals")
             (py "Converted " ++ str_of_nat (length logged)
                ++ py " Roman numerals to Arabic numbers")
             (Some (length original_text)) (Some (length t)) ctx)
          logged).

End Roman.

(** ** The language of a pattern without assertions

    For a pattern built from literals, classes, bounded repetitions,
    concatenation and alternation, [lang] lists the strings it matches;
    [finite] tells whether a pattern is of that kind. *)

Definition all_ascii : list ascii := ascii_of_nat <$> seq 0 256.

Definition chars (p : ascii → bool) : list ascii :=
  filter (λ c, p c = true) all_ascii.

(** The strings over [cs] of a length between [lo] and [hi]. *)
Fixpoint rep_lang (cs : list ascii) (lo hi : nat) : list str :=
  let stop := match lo with 0 => [[]] | S _ => [] end in
  match hi with
  | 0 => stop
  | S hi' => (c ← cs; w ← rep_lang cs (pred lo) hi'; [c :: w]) ++ stop
  end.

Fixpoint finite (r : Re.regex) : bool :=
  match r with
  | Re.Eps | Re.Lit false _ | Re.Cls _ | Re.Rep _ _ (Some _) => true
  | Re.Cat r1 r2 | Re.Alt r1 r2 => finite r1 && finite r2
  | _ => false
  end.

Fixpoint lang (r : Re.regex) : list str :=
  match r with
  | Re.Eps => [[]]
  | Re.Lit _ s => [s]
  | Re.Cls p => (λ c, [c]) <$> chars p
  | Re.Rep p lo (Some hi) => rep_lang (chars p) lo hi
  | Re.Cat r1 r2 => w1 ← lang r1; w2 ← lang r2; [w1 ++ w2]
  | Re.Alt r1 r2 => lang r1 ++ lang r2
  | _ => []
  end.

(** The check run over the numeral language: the loop of
    [roman_to_arabic] gives a value between 1 and 3999 whose standard
    numeral is the word itself.  The empty word is set apart. *)
Definition numeral_checked (w : str) : bool :=
  bool_decide (w = [])
  || match Roman.subtractive (reverse w) 0 0 with
     | Some v =>
         (1 <=? v)%Z && (v <=? 3999)%Z
           && bool_decide (Roman.to_roman (Z.to_nat v) = w)
     | None => false
     end.

(** ** Words used to state what a match is *)

(** [c'] lies [w] further on in the same subject as [c]. *)
Definition advances (c c' : Re.cursor) (w : str) : Prop :=
  Re.ahead c = w ++ Re.ahead c' ∧ Re.seen c' = reverse w ++ Re.seen c.

(** The spans follow one another from [from] on and stay within [len]. *)
Fixpoint chained (len from : nat) (spans : list (nat * nat)) : Prop :=
  match spans with
  | [] => True
  | (s, e) :: rest => from ≤ s ∧ s ≤ e ∧ e ≤ len ∧ chained len e rest
  end.

(** ** The data file ([datafile.py]) *)

Module Datafile.

Definition CHOICE_SECTION_MARKER : str := py "# CHOICE".
Definition REPLACE_SECTION_MARKER : str := py "# REPLACE".
Definition PERIODS_SECTION_MARKER : str := py "# PERIODS".
Definition IGNORE_SECTION_MARKER : str := py "# CAP_IGNORE".
Definition LOWERCASE_SECTION_MARKER : str := py "# UPPER_TO_LOWER".
Definition ROMAN_IGNORE_SECTION_MARKER : str := py "# ROMAN_IGNORE".
Definition DEFAULT_DIR_SECTION_MARKER : str := py "# DEFAULT_FILE_DIR".

Definition ALL_SECTION_MARKERS : list str :=
  [CHOICE_SECTION_MARKER; REPLACE_SECTION_MARKER; PERIODS_SECTION_MARKER;
   IGNORE_SECTION_MARKER; LOWERCASE_SECTION_MARKER;
   ROMAN_IGNORE_SECTION_MARKER; DEFAULT_DIR_SECTION_MARKER].

(** The section names ['choice'], ['replace'], ... *)
Inductive section :=
| sec_choice | sec_replace | sec_periods | sec_ignore | sec_lowercase
| sec_roman_ignore | sec_default_dir.

Global Instance section_eq_dec : EqDecision section.
Proof. solve_decision. Defined.

(** [str.split(sep)] for a non-empty separator; [skip] counts the
    characters of a separator still to be passed over. *)
Fixpoint split_go (sep cur s : str) (skip : nat) : list str :=
  match s with
  | [] => [reverse cur]
  | c :: s' =>
      match skip with
      | S n => split_go sep cur s' n
      | 0 =>
          if startswith s sep
          then reverse cur :: split_go sep [] s' (length sep - 1)
          else split_go sep (c :: cur) s' 0
      end
  end.

Definition split (sep s : str) : list str := split_go sep [] s 0.

(** [d[k] = v] on a dictionary kept in insertion order. *)
Fixpoint dict_set {K V : Type} `{EqDecision K} (k : K) (v : V)
    (d : list (K * V)) : list (K * V) :=
  match d with
  | [] => [(k, v)]
  | (k', v') :: d' =>
      if decide (k' = k) then (k, v) :: d' else (k', v') :: dict_set k v d'
  end.

(** [d.get(k)] *)
Fixpoint dict_get {K V : Type} `{EqDecision K} (k : K)
    (d : list (K * V)) : option V :=
  match d with
  | [] => None
  | (k', v) :: d' => if decide (k' = k) then Some v else dict_get k d'
  end.

(** What the file system answers.  [Missing]: [os.path.exists] is
    false.  [Unreadable]: the file exists and [open] or [readlines]
    raises.  [Lines]: the result of [readlines()], every line with its
    newline but possibly the last. *)
Inductive read_result :=
| Missing
| Unreadable
| Lines (lines : list str).

(** [Path(s).expanduser()] followed by [is_dir()]: either call may
    raise, else the path is a directory or not. *)
Inductive probe_result :=
| ProbeRaises
| NotDir
| IsDir (expanded : str).

Record fs := Fs {
  data_file : read_result;
  probe_dir : str → probe_result;
  can_write : bool                 (* [open(path, 'w')] and [writelines] succeed *)
}.

(** The section a marker line opens in [load_data_file]. *)
Definition loaded_section (marker : str) : option section :=
  if decide (marker = CHOICE_SECTION_MARKER) then Some sec_choice
  else if decide (marker = REPLACE_SECTION_MARKER) then Some sec_replace
  else if decide (marker = PERIODS_SECTION_MARKER) then Some sec_periods
  else if decide (marker = IGNORE_SECTION_MARKER) then Some sec_ignore
  else if decide (marker = LOWERCASE_SECTION_MARKER) then Some sec_lowercase
  else if decide (marker = ROMAN_IGNORE_SECTION_MARKER) then Some sec_roman_ignore
  else if decide (marker = DEFAULT_DIR_SECTION_MARKER) then Some sec_default_dir
  else None.

Definition set_choices (v : list (str * list str)) (ctx : BookfixContext) :=
  Ctx (text ctx) (filepath ctx) v (replacements ctx) (periods ctx)
      (ignore_set ctx) (lowercase_set ctx) (roman_ignore_set ctx)
      (default_file_directory ctx) (processing_log ctx).
Definition set_replacements (v : list (str * str)) (ctx : BookfixContext) :=
  Ctx (text ctx) (filepath ctx) (choices ctx) v (periods ctx)
      (ignore_set ctx) (lowercase_set ctx) (roman_ignore_set ctx)
      (default_file_directory ctx) (processing_log ctx).
Definition set_periods (v : gset str) (ctx : BookfixContext) :=
  Ctx (text ctx) (filepath ctx) (choices ctx) (replacements ctx) v
      (ignore_set ctx) (lowercase_set ctx) (roman_ignore_set ctx)
      (default_file_directory ctx) (processing_log ctx).
Definition set_roman_ignore_set (v : gset str) (ctx : BookfixContext) :=
  Ctx (text ctx) (filepath ctx) (choices ctx) (replacements ctx) (periods ctx)
      (ignore_set ctx) (lowercase_set ctx) v
      (default_file_directory ctx) (processing_log ctx).
Definition set_default_file_directory (v : option str) (ctx : BookfixContext) :=
  Ctx (text ctx) (filepath ctx) (choices ctx) (replacements ctx) (periods ctx)
      (ignore_set ctx) (lowercase_set ctx) (roman_ignore_set ctx)
      v (processing_log ctx).

(** One content line of a section; [None] when the line raises. *)
Definition load_content (env : fs) (sec : section) (stripped_line : str)
    (ctx : BookfixContext) : option BookfixContext :=
  match sec with
  | sec_choice =>
      match split (py "->") stripped_line with
      | [word; options] =>
          Some (set_choices
                  (dict_set (strip word) (strip <$> split (py ";") options)
                     (choices ctx)) ctx)
      | _ => Some ctx
      end
  | sec_replace =>
      match split (py "->") stripped_line with
      | [old; new] =>
          Some (set_replacements
                  (dict_set (strip old) (strip new) (replacements ctx)) ctx)
      | _ => Some ctx
      end
  | sec_periods => Some (set_periods ({[stripped_line]} ∪ periods ctx) ctx)
  | sec_ignore => Some (set_ignore_set ({[stripped_line]} ∪ ignore_set ctx) ctx)
  | sec_lowercase =>
      Some (set_lowercase_set ({[stripped_line]} ∪ lowercase_set ctx) ctx)
  | sec_roman_ignore =>
      Some (set_roman_ignore_set
              ({[upper stripped_line]} ∪ roman_ignore_set ctx) ctx)
  | sec_default_dir =>
      match default_file_directory ctx with
      | Some _ => Some ctx
      | None =>
          match probe_dir env stripped_line with
          | ProbeRaises => None
          | NotDir => Some ctx
          | IsDir expanded => Some (set_default_file_directory (Some expanded) ctx)
          end
      end
  end.

(** The loop over the lines inside the [try] block.  The result is the
    context as the loop left it and whether an exception was raised.
    (The BOM and zero-width characters that the code strips after
    [strip()] lie outside the alphabet of the embedding.) *)
Fixpoint load_lines (env : fs) (lines : list str)
    (current_section : option section) (ctx : BookfixContext)
    : BookfixContext * bool :=
  match lines with
  | [] => (ctx, false)
  | line :: rest =>
      let stripped_line := strip line in
      if decide (stripped_line ∈ ALL_SECTION_MARKERS) then
        load_lines env rest (loaded_section stripped_line) ctx
      else
        match current_section with
        | Some sec =>
            if bool_decide (stripped_line ≠ [])
               && negb (startswith stripped_line (py "#"))
            then
              match load_content env sec stripped_line ctx with
              | Some ctx' => load_lines env rest current_section ctx'
              | None => (ctx, true)
              end
            else load_lines env rest current_section ctx
        | None => load_lines env rest current_section ctx
        end
  end.

(** The assignments at the top of [load_data_file]. *)
Definition reset_data (ctx : BookfixContext) : BookfixContext :=
  Ctx (text ctx) (filepath ctx) [] [] ∅ ∅ ∅ ∅ None (processing_log ctx).

(** The assignments of the [except] block. *)
Definition reset_after_error (ctx : BookfixContext) : BookfixContext :=
  Ctx (text ctx) (filepath ctx) [] [] ∅ ∅ ∅ (roman_ignore_set ctx) None
      (processing_log ctx).

(** [load_data_file(ctx)] *)
Definition load_data_file (env : fs) (ctx : option BookfixContext)
    : BookfixContext :=
  let ctx := reset_data (default empty_ctx ctx) in
  match data_file env with
  | Missing => ctx
  | Unreadable => reset_after_error ctx
  | Lines lines =>
      match load_lines env lines None ctx with
      | (ctx', false) => ctx'
      | (ctx', true) => reset_after_error ctx'
      end
  end.

(** Whether the load went through the [except] block or found no file. *)
Definition load_failed (env : fs) (ctx : option BookfixContext) : bool :=
  match data_file env with
  | Missing | Unreadable => true
  | Lines lines =>
      (load_lines env lines None (reset_data (default empty_ctx ctx))).2
  end.

(** The section a marker line opens in the boundary scans of the save
    routines: the dictionary there has no entry for [# ROMAN_IGNORE]. *)
Definition saved_section (marker : str) : option section :=
  if decide (marker = CHOICE_SECTION_MARKER) then Some sec_choice
  else if decide (marker = REPLACE_SECTION_MARKER) then Some sec_replace
  else if decide (marker = PERIODS_SECTION_MARKER) then Some sec_periods
  else if decide (marker = IGNORE_SECTION_MARKER) then Some sec_ignore
  else if decide (marker = LOWERCASE_SECTION_MARKER) then Some sec_lowercase
  else if decide (marker = DEFAULT_DIR_SECTION_MARKER) then Some sec_default_dir
  else None.

Abbreviation indices := (list (section * (nat * nat))).

(** The loop that finds the section boundaries.  [start] is
    [current_section_start_idx], with [None] for its initial [-1]. *)
Fixpoint find_sections (i : nat) (lines : list str)
    (name : option section) (start : option nat) (found : indices)
    : indices * option section * option nat :=
  match lines with
  | [] => (found, name, start)
  | line :: rest =>
      let stripped_line := strip line in
      if decide (stripped_line ∈ ALL_SECTION_MARKERS) then
        let found :=
          match name, start with
          | Some nm, Some st => dict_set nm (st, i) found
          | _, _ => found
          end in
        find_sections (S i) rest (saved_section stripped_line) (Some (S i)) found
      else find_sections (S i) rest name start found
  end.

Definition section_indices (original_lines : list str) : indices :=
  match find_sections 0 original_lines None None [] with
  | (found, Some nm, Some st) => dict_set nm (st, length original_lines) found
  | (found, _, _) => found
  end.

Record rewritten := Rewritten {
  new_lines : list str;
  ignore_section_handled : bool;
  lowercase_section_handled : bool
}.

(** The [while i < len(original_lines)] loop of [save_caps_data_file];
    [None] when the fuel runs out. *)
Fixpoint rewrite_loop (fuel i : nat) (original_lines : list str)
    (found : indices) (ignore_content lowercase_content : list str)
    (acc : rewritten) : option rewritten :=
  match original_lines !! i with
  | None => Some acc
  | Some line =>
      match fuel with
      | 0 => None
      | S fuel =>
          let stripped_line := strip line in
          match decide (stripped_line = IGNORE_SECTION_MARKER),
                dict_get sec_ignore found,
                decide (stripped_line = LOWERCASE_SECTION_MARKER),
                dict_get sec_lowercase found with
          | left _, Some (_, end_idx), _, _ =>
              rewrite_loop fuel end_idx original_lines found
                ignore_content lowercase_content
                (Rewritten (new_lines acc ++ [line] ++ ignore_content)
                   true (lowercase_section_handled acc))
          | _, _, left _, Some (_, end_idx) =>
              rewrite_loop fuel end_idx original_lines found
                ignore_content lowercase_content
                (Rewritten (new_lines acc ++ [line] ++ lowercase_content)
                   (ignore_section_handled acc) true)
          | _, _, _, _ =>
              rewrite_loop fuel (S i) original_lines found
                ignore_content lowercase_content
                (Rewritten (new_lines acc ++ [line])
                   (ignore_section_handled acc) (lowercase_section_handled acc))
          end
      end
  end.

(** [x <= y] on strings, as [sorted] compares them: by code point. *)
Fixpoint str_le (a b : str) : bool :=
  match a, b with
  | [], _ => true
  | _ :: _, [] => false
  | x :: a', y :: b' =>
      if decide (Char.code x < Char.code y) then true
      else if decide (Char.code x = Char.code y) then str_le a' b'
      else false
  end.

Definition sorted_list (s : gset str) : list str :=
  merge_sort (λ a b, Is_true (str_le a b)) (elements s).

(** [[seq + '\n' for seq in sorted(list(s))]] *)
Definition content_lines (s : gset str) : list str :=
  (λ seq, seq ++ nl) <$> sorted_list s.

(** A new section appended at the end of the file. *)
Definition append_section (marker : str) (content : list str)
    (lines : list str) : list str :=
  (match last lines with
   | Some l => if decide (strip l ≠ []) then lines ++ [nl] else lines
   | None => lines
   end) ++ [marker ++ nl] ++ content.

(** The lines that [save_caps_data_file(ignore_set, lowercase_set)]
    writes; [None] when the rewriting loop does not end. *)
Definition saved_lines (env : fs) (ignore_set lowercase_set : gset str)
    : option (list str) :=
  let original_lines :=
    match data_file env with Lines lines => lines | _ => [] end in
  let found := section_indices original_lines in
  let new_ignore_content_lines := content_lines ignore_set in
  let new_lowercase_content_lines := content_lines lowercase_set in
  r ← rewrite_loop (length original_lines) 0 original_lines found
         new_ignore_content_lines new_lowercase_content_lines
         (Rewritten [] false false);
  let lines := new_lines r in
  let lines :=
    if negb (ignore_section_handled r) && bool_decide (ignore_set ≠ ∅)
    then append_section IGNORE_SECTION_MARKER new_ignore_content_lines lines
    else lines in
  let lines :=
    if negb (lowercase_section_handled r) && bool_decide (lowercase_set ≠ ∅)
    then append_section LOWERCASE_SECTION_MARKER new_lowercase_content_lines lines
    else lines in
  Some lines.

(** [f.readlines()] on a file that holds [content], opened in text
    mode: a CR, alone or in front of a LF, is read as a LF, and every
    line keeps its LF; the last line has none when the content does not
    end in a line break.  [cur] holds the current line, reversed. *)
Fixpoint readlines_go (cur : str) (content : str) : list str :=
  match content with
  | [] => match cur with [] => [] | _ => [reverse cur] end
  | c :: rest =>
      if bool_decide (c = LF) then
        reverse (LF :: cur) :: readlines_go [] rest
      else if bool_decide (c = "013"%char) then
        reverse (LF :: cur) ::
          match rest with
          | d :: rest' =>
              if bool_decide (d = LF) then readlines_go [] rest'
              else readlines_go [] rest
          | [] => []
          end
      else readlines_go (c :: cur) rest
  end.

Definition readlines (content : str) : list str := readlines_go [] content.

(** The file after [f.writelines(new_lines)]: it holds the lines one
    after the other, and is read back split at its line breaks. *)
Definition written (new_lines : list str) : read_result :=
  Lines (readlines (concat new_lines)).

(** [save_caps_data_file(ignore_set, lowercase_set)]: the file system
    afterwards.  An error while writing is logged and the file is left
    as it was. *)
Definition save_caps_data_file (env : fs) (ignore_set lowercase_set : gset str)
    : option fs :=
  lines ← saved_lines env ignore_set lowercase_set;
  Some (if can_write env
        then Fs (written lines) (probe_dir env) (can_write env)
        else env).

(** The lines of a file whose lines all end in a newline. *)
Definition file_lines (l : list string) : list str := (λ s, py s ++ nl) <$> l.

(** A data file with a Roman-numeral exception and a default directory
    that names the home of a user who does not exist: for such a path
    [expanduser()] raises [RuntimeError]. *)
Definition roman_file : list str :=
  file_lines ["# ROMAN_IGNORE"; "iv"; "# DEFAULT_FILE_DIR"; "~nosuchuser/books"]%string.

Definition roman_env : fs := Fs (Lines roman_file) (λ _, ProbeRaises) true.





End Datafile.

(** ** All-caps sequences ([processors/allcaps.py]) *)

Module AllCaps.

Definition upper_or_space (c : ascii) : bool :=
  Char.is_upper c || bool_decide (c = " "%char).

(** [re.compile(r"\b[A-Z](?:[A-Z ]*[A-Z])\b")] *)
Definition sequence_pattern : Re.regex :=
  Re.Cat Re.WordB
 (Re.Cat (Re.Cls Char.is_upper)
 (Re.Cat (Re.Rep upper_or_space 0 None)
 (Re.Cat (Re.Cls Char.is_upper) Re.WordB))).

(** The processor.  Of the callbacks only [text_update_callback]
    decides what the text becomes; the field tells whether it is set. *)
Record processor := Processor {
  current_caps_sequence : option str;
  current_caps_span : option (nat * nat);
  all_caps_matches_original : list Re.rmatch;
  decided_sequences_text : gset str;
  lowercased_original_spans : gset (nat * nat);
  current_match_index : nat;
  current_text : str;
  text_update_callback : bool
}.

(** [AllCapsProcessor()] *)
Definition new (callback : bool) : processor :=
  Processor None None [] ∅ ∅ 0 [] callback.

(** What a call works on: the context, the processor, the file system
    with the data file, and the sequences presented for a choice so
    far, oldest first: an entry is added each time
    [_process_next_sequence] stops at a sequence. *)
Record world := World {
  w_ctx : BookfixContext;
  w_proc : processor;
  w_env : Datafile.fs;
  shown : list (str * (nat * nat))
}.

(** [t] with every match of [\b{re.escape(word)}\b] replaced by the
    string [word.lower()] as it stands. *)
Definition lower_word (word : str) (t : str) : str :=
  Re.sub (Re.whole_word false word) (λ _, lower word) t.

Definition lower_words (words : list str) (t : str) : str :=
  foldl (λ t word, lower_word word t) t words.

(** A replacement string without a backslash is put in as it stands.
    One with a backslash is a template, which [re] expands (or
    rejects); that expansion is outside the embedding. *)
Definition literal (repl : str) : bool := bool_decide ("\"%char ∉ repl).

(** [re.sub(rf'\b{re.escape(word)}\b', word.lower(), text)]; [None] when
    the replacement is a template. *)
Definition sub_lower (word : str) (t : str) : option str :=
  if literal (lower word) then Some (lower_word word t) else None.

(** [for word in words: text = re.sub(...)] *)
Fixpoint sub_lower_all (words : list str) (t : str) : option str :=
  match words with
  | [] => Some t
  | word :: rest => t ← sub_lower word t; sub_lower_all rest t
  end.

(** The [while] loop of [_process_next_sequence] over the matches from
    [current_match_index] on: the index at which it ends and the match
    it stops at, if any. *)
Fixpoint next_sequence (ignore decided : gset str) (rest : list Re.rmatch)
    (idx : nat) : nat * option Re.rmatch :=
  match rest with
  | [] => (idx, None)
  | m :: rest' =>
      if decide (Re.group0 m ∈ ignore ∨ Re.group0 m ∈ decided)
      then next_sequence ignore decided rest' (S idx)
      else (idx, Some m)
  end.

(** [_process_next_sequence(ctx)] *)
Definition process_next_sequence (w : world) : world :=
  let p := w_proc w in
  let '(idx, stop) :=
    next_sequence (ignore_set (w_ctx w)) (decided_sequences_text p)
      (drop (current_match_index p) (all_caps_matches_original p))
      (current_match_index p) in
  match stop with
  | Some m =>
      World (w_ctx w)
        (Processor (Some (Re.group0 m)) (Some (Re.span m))
           (all_caps_matches_original p) (decided_sequences_text p)
           (lowercased_original_spans p) idx (current_text p)
           (text_update_callback p))
        (w_env w)
        (shown w ++ [(Re.group0 m, Re.span m)])
  | None =>
      World (w_ctx w)
        (Processor (current_caps_sequence p) (current_caps_span p)
           (all_caps_matches_original p) (decided_sequences_text p)
           (lowercased_original_spans p) idx (current_text p)
           (text_update_callback p))
        (w_env w) (shown w)
  end.

Definition set_decided (d : gset str) (l : gset (nat * nat)) (p : processor)
    : processor :=
  Processor (current_caps_sequence p) (current_caps_span p)
    (all_caps_matches_original p) d l (current_match_index p)
    (current_text p) (text_update_callback p).

Definition set_index (i : nat) (p : processor) : processor :=
  Processor (current_caps_sequence p) (current_caps_span p)
    (all_caps_matches_original p) (decided_sequences_text p)
    (lowercased_original_spans p) i (current_text p)
    (text_update_callback p).

(** The four choices, as [handle_caps_choice] reads them. *)
Inductive caps_choice := Yes | No | AddToIgnore | AutoLowercase.

Definition read_choice (choice : str) : option caps_choice :=
  let c := lower choice in
  if bool_decide (c ∈ py <$> ["y"; "yes"; "0"]%string) then Some Yes
  else if bool_decide (c ∈ py <$> ["n"; "no"; "1"]%string) then Some No
  else if bool_decide (c ∈ py <$> ["a"; "add"; "2"]%string) then Some AddToIgnore
  else if bool_decide (c ∈ py <$> ["i"; "auto"; "3"]%string) then Some AutoLowercase
  else None.

(** The span of the first match of the snapshot that carries [seq] and
    is not yet in [lowercased_original_spans]. *)
Definition find_original_span (seq : str) (p : processor) : option (nat * nat) :=
  Re.span <$>
    head (filter (λ m, Re.group0 m = seq
                       ∧ Re.span m ∉ lowercased_original_spans p)
            (all_caps_matches_original p)).

(** The spans of the snapshot that carry [seq]. *)
Definition spans_of (seq : str) (p : processor) : gset (nat * nat) :=
  list_to_set
    (Re.span <$> filter (λ m, Re.group0 m = seq) (all_caps_matches_original p)).

Section iteration.

(** The order in which [for word in ctx.lowercase_set] visits a set. *)
Variable iteration : gset str → list str.

(** [process_all_caps_sequences(ctx)]; [None] when a replacement of the
    pre-pass is a template. *)
Definition process_all_caps_sequences (w : world) : option world :=
  let ctx := w_ctx w in
  let p := w_proc w in
  let original_for_detection := text ctx in
  let matches := Re.finditer sequence_pattern original_for_detection in
  working_text ←
    sub_lower_all (iteration (lowercase_set ctx)) original_for_detection;
  Some
    (process_next_sequence
       (World (set_text working_text ctx)
          (Processor (current_caps_sequence p) (current_caps_span p)
             matches ∅ ∅ 0 (text ctx) (text_update_callback p))
          (w_env w) (shown w))).

(** The branches of the [if]/[elif] chain of [handle_caps_choice], for
    the sequence [seq] at [(start_pos, end_pos)].  [None] stands for a
    call of [save_caps_data_file] whose loop does not end, or for a
    replacement that is a template. *)
Definition apply_choice (c : caps_choice) (seq : str) (start_pos end_pos : nat)
    (w : world) : option world :=
  let ctx := w_ctx w in
  let p := w_proc w in
  match c with
  | Yes =>
      let t :=
        if text_update_callback p
        then take start_pos (text ctx) ++ lower seq ++ drop end_pos (text ctx)
        else text ctx in
      let spans :=
        match find_original_span seq p with
        | Some sp => {[ sp ]} ∪ lowercased_original_spans p
        | None => lowercased_original_spans p
        end in
      t ← sub_lower seq t;
      Some (World (set_text t ctx)
              (set_decided ({[ seq ]} ∪ decided_sequences_text p) spans p)
              (w_env w) (shown w))
  | No =>
      Some (World ctx
              (set_decided ({[ seq ]} ∪ decided_sequences_text p)
                 (lowercased_original_spans p) p)
              (w_env w) (shown w))
  | AddToIgnore =>
      let ctx := set_ignore_set ({[ seq ]} ∪ ignore_set ctx) ctx in
      env ← Datafile.save_caps_data_file (w_env w)
              (ignore_set ctx) (lowercase_set ctx);
      Some (World ctx
              (set_decided ({[ seq ]} ∪ decided_sequences_text p)
                 (lowercased_original_spans p) p)
              env (shown w))
  | AutoLowercase =>
      let ctx := set_lowercase_set ({[ seq ]} ∪ lowercase_set ctx) ctx in
      env ← Datafile.save_caps_data_file (w_env w)
              (ignore_set ctx) (lowercase_set ctx);
      t ← sub_lower_all (iteration (lowercase_set ctx)) (text ctx);
      Some (World (set_text t ctx)
              (set_decided ({[ seq ]} ∪ decided_sequences_text p)
                 (spans_of seq p ∪ lowercased_original_spans p) p)
              env (shown w))
  end.

(** [self.current_match_index += 1] *)
Definition advance (w : world) : world :=
  World (w_ctx w) (set_index (S (current_match_index (w_proc w))) (w_proc w))
    (w_env w) (shown w).

(** [handle_caps_choice(choice, ctx)]: the world afterwards and the
    value returned.  [None] stands for a call that does not return
    ([current_caps_span] is [None] when it is unpacked, or the saving
    loop does not end), or for a replacement that is a template. *)
Definition handle_caps_choice (choice : str) (w : world)
    : option (world * bool) :=
  match current_caps_sequence (w_proc w) with
  | None | Some [] => Some (w, false)
  | Some seq =>
      '(start_pos, end_pos) ← current_caps_span (w_proc w);
      match read_choice choice with
      | Some c =>
          w ← apply_choice c seq start_pos end_pos w;
          let w := process_next_sequence (advance w) in
          Some (w, bool_decide
                     (current_match_index (w_proc w)
                      < length (all_caps_matches_original (w_proc w))))
      | None => Some (w, true)
      end
  end.

(** A session: the choices made one after the other. *)
Fixpoint handle_all (choices : list str) (w : world) : option world :=
  match choices with
  | [] => Some w
  | choice :: rest =>
      '(w, _) ← handle_caps_choice choice w;
      handle_all rest w
  end.

(** A pass from a fresh processor. *)
Definition start (callback : bool) (ctx : BookfixContext) (env : Datafile.fs)
    : option world :=
  process_all_caps_sequences (World ctx (new callback) env []).

End iteration.

(** A document, a data file and a pass for the examples: [GO] is in
    [lowercase_set], the data file does not exist yet, and sets are
    visited in the order of [elements]. *)
Definition example_ctx : BookfixContext :=
  Ctx (py "STOP one STOP, GO NOW two STOP") None [] [] ∅ ∅ {[ py "GO" ]} ∅ None [].

Definition example_env : Datafile.fs :=
  Datafile.Fs Datafile.Missing (λ _, Datafile.NotDir) true.

Definition example_start : option world :=
  start elements true example_ctx example_env.

(** The world in which the first choice of the example is made. *)
Definition example_world : world :=
  default (World example_ctx (new true) example_env []) example_start.

End AllCaps.

(** ** Words used to state what lowercasing does *)

(** The position [i] lies inside one of the spans. *)
Definition covered (spans : list (nat * nat)) (i : nat) : bool :=
  existsb (λ se, (se.1 <=? i) && (i <? se.2)) spans.

(** [t] with the characters at the positions selected by [f] in lower case. *)
Definition lower_where (f : nat → bool) (t : str) : str :=
  imap (λ i c, if f i then Char.lower c else c) t.

(** An all-caps word: it begins with an upper-case letter and has no
    lower-case letter.  Every sequence matched by [sequence_pattern] is
    one. *)
Definition caps_word (w : str) : bool :=
  match w with c :: _ => Char.is_upper c | [] => false end
  && forallb (λ c, negb (Char.is_lower c)) w.

(** A search for [\bw\b] finds nothing in [t]. *)
Definition no_whole_word (w t : str) : Prop :=
  Re.finditer (Re.whole_word false w) t = [].

(** The cursor at position [i] of [t]. *)
Definition at_pos (t : str) (i : nat) : Re.cursor :=
  Re.Cursor (reverse (take i t)) (drop i t).

(** The character at index [i] is a word character. *)
Definition word_at (t : str) (i : nat) : bool :=
  match t !! i with Some c => Char.is_word c | None => false end.

(** There is a word boundary in front of index [i]. *)
Definition boundary_at (t : str) (i : nat) : bool :=
  xorb (match i with 0 => false | S k => word_at t k end) (word_at t i).

(** [w] stands at index [i] of [t] as a whole word. *)
Definition occurs (w t : str) (i : nat) : Prop :=
  boundary_at t i = true
  ∧ (∀ j, j < length w → t !! (i + j) = w !! j)
  ∧ boundary_at t (i + length w) = true.

(** ** Words used to state what the boundary scan finds *)

(** Every entry of [found], other than the one of the section being
    read, lies behind every marker of its section among the lines read. *)
Definition entries_behind (read : list str) (name : option Datafile.section)
    (found : Datafile.indices) : Prop :=
  ∀ sec s e, Some sec ≠ name → Datafile.dict_get sec found = Some (s, e) →
    s ≤ e ∧ ∀ k l, read !! k = Some l →
              Datafile.saved_section (strip l) = Some sec → k < s.

(** The section being read has a start, which lies behind every marker
    of that section among the lines read. *)
Definition start_behind (read : list str) (name : option Datafile.section)
    (start : option nat) : Prop :=
  match name with
  | Some nm =>
      ∃ st, start = Some st ∧ st ≤ length read
            ∧ ∀ k l, read !! k = Some l →
                Datafile.saved_section (strip l) = Some nm → k < st
  | None => True
  end.

(** ** Words used to state what a pass over the all-caps sequences keeps *)

(** What holds of a world during a pass whose snapshot was taken of
    [t0]: the snapshot is the one of [t0], the live text differs from
    [t0] in case only, and the sequence being decided is carried by a
    match of the snapshot, with that match's span. *)
Record in_pass (t0 : str) (w : AllCaps.world) : Prop := InPass {
  pass_snapshot :
    AllCaps.all_caps_matches_original (AllCaps.w_proc w)
    = Re.finditer AllCaps.sequence_pattern t0;
  pass_text : lower (text (AllCaps.w_ctx w)) = lower t0;
  pass_literal :
    ∀ word, word ∈ lowercase_set (AllCaps.w_ctx w) →
      AllCaps.literal (lower word) = true;
  pass_current :
    ∀ seq, AllCaps.current_caps_sequence (AllCaps.w_proc w) = Some seq →
      ∃ m, m ∈ Re.finditer AllCaps.sequence_pattern t0
           ∧ Re.group0 m = seq
           ∧ AllCaps.current_caps_span (AllCaps.w_proc w) = Some (Re.span m);
  pass_shown_once : NoDup (fst <$> AllCaps.shown w);
  pass_shown :
    ∀ s, s ∈ fst <$> AllCaps.shown w →
      s ∈ AllCaps.decided_sequences_text (AllCaps.w_proc w)
      ∨ AllCaps.current_caps_sequence (AllCaps.w_proc w) = Some s
}.

(** ** Interactive choices ([processors/choices.py]) *)

Module Choices.

Record processor := Processor {
  current_word : option str;
  current_match : nat;
  matches : list Re.rmatch;
  processed_words : nat;
  total_words : nat;
  current_text : str
}.

(** [InteractiveChoiceProcessor()], and the state after [reset_state()]. *)
Definition new : processor := Processor None 0 [] 0 0 [].

(** What a call works on: the context, the processor and the lines
    appended to [debug.txt]. *)
Record world := World {
  w_ctx : BookfixContext;
  w_proc : processor;
  debug_txt : list str
}.

(** [list(re.finditer(r'\b' + re.escape(word) + r'\b', text, re.IGNORECASE))] *)
Definition find_matches (word t : str) : list Re.rmatch :=
  Re.finditer (Re.whole_word true word) t.

Definition set_processed (n : nat) (p : processor) : processor :=
  Processor (current_word p) (current_match p) (matches p) n
    (total_words p) (current_text p).

Definition set_matches (i : nat) (ms : list Re.rmatch) (p : processor)
    : processor :=
  Processor (current_word p) i ms (processed_words p) (total_words p)
    (current_text p).

(** The end of a pass: the entry added to the processing log. *)
Definition finished (w : world) : world :=
  World
    (log_change (py "interactive_choices")
       (py "Processed " ++ str_of_nat (total_words (w_proc w))
          ++ py " words with interactive choices")
       None None (w_ctx w))
    (w_proc w) (debug_txt w).

(** [_start_word_processing(ctx)].  A word without a match is finished
    at once, which starts the next word: the nested calls are counted
    by [fuel]; [None] stands for a call that does not return, because
    the fuel is used up or because [words[self.processed_words]] raises
    [IndexError]. *)
Fixpoint start_word_processing (fuel : nat) (w : world) : option world :=
  let p := w_proc w in
  if decide (processed_words p < total_words p) then
    word ← (fst <$> choices (w_ctx w)) !! processed_words p;
    let found := find_matches word (current_text p) in
    let p := Processor (Some word) 0 found (processed_words p)
               (total_words p) (current_text p) in
    let w := World (w_ctx w) p (debug_txt w) in
    match found with
    | _ :: _ => Some w
    | [] =>
        (* [_finish_current_word(ctx)] *)
        let p := set_processed (S (processed_words p)) p in
        let w := World (w_ctx w) p (debug_txt w) in
        if decide (processed_words p < total_words p) then
          match fuel with
          | S fuel => start_word_processing fuel w
          | 0 => None
          end
        else Some (finished w)
    end
  else Some w.

(** [_finish_current_word(ctx)] and the value it returns. *)
Definition finish_current_word (w : world) : option (world * bool) :=
  let p := set_processed (S (processed_words (w_proc w))) (w_proc w) in
  let w := World (w_ctx w) p (debug_txt w) in
  if decide (processed_words p < total_words p) then
    w ← start_word_processing (total_words p) w;
    Some (w, true)
  else Some (finished w, false).


(** The loop that selects the next match: the index of the first match
    that starts at or after [end_pos], or the number of matches. *)
Fixpoint next_index (end_pos : nat) (ms : list Re.rmatch) : nat :=
  match ms with
  | [] => 0
  | m :: ms' =>
      if decide (end_pos ≤ Re.m_start m) then 0 else S (next_index end_pos ms')
  end.

(** The line written to [debug.txt]; a word of [None] is printed as
    [None]. *)
Definition debug_line (word : option str) (choice : str) : str :=
  default (py "None") word ++ py " -> " ++ choice ++ nl.

(** [handle_choice(choice, ctx)]: the world afterwards and the value
    returned.  [None] stands for a call that does not return:
    [re.escape(None)] raises, or [_finish_current_word] does not
    return. *)
Definition handle_choice (choice : str) (w : world) : option (world * bool) :=
  let p := w_proc w in
  match matches p !! current_match p with
  | None => finish_current_word w
  | Some m =>
      let '(start_pos, end_pos) := Re.span m in
      let matched_text := slice (current_text p) start_pos end_pos in
      if decide (lower choice = lower matched_text) then
        let p := set_matches (current_match p)
                   (delete (current_match p) (matches p)) p in
        let w := World (w_ctx w) p (debug_txt w) in
        if decide (current_match p < length (matches p)) then Some (w, true)
        else finish_current_word w
      else
        let t := take start_pos (current_text p) ++ choice
                   ++ drop end_pos (current_text p) in
        let debug := debug_txt w ++ [debug_line (current_word p) choice] in
        word ← current_word p;
        let found := find_matches word t in
        let p := Processor (current_word p) (next_index end_pos found) found
                   (processed_words p) (total_words p) t in
        let w := World (set_text t (w_ctx w)) p debug in
        if decide (current_match p < length (matches p)) then Some (w, true)
        else finish_current_word w
  end.

(** A session: the choices made one after the other, with the value
    returned by the last call. *)
Fixpoint handle_all (choices : list str) (w : world) (more : bool)
    : option (world * bool) :=
  match choices with
  | [] => Some (w, more)
  | choice :: rest =>
      '(w, more) ← handle_choice choice w;
      handle_all rest w more
  end.




End Choices.

(** ** Words used to state the partial rewrite of the data file *)

(** A marker line. *)
Definition is_marker (line : str) : bool :=
  bool_decide (strip line ∈ Datafile.ALL_SECTION_MARKERS).

(** The number of lines in front of the first marker line. *)
Fixpoint content_end (lines : list str) : nat :=
  match lines with
  | [] => 0
  | line :: rest => if is_marker line then 0 else S (content_end rest)
  end.


(** No line is the marker [mk]; some line is; at most one line is. *)
Definition marker_free (mk : str) (lines : list str) : Prop :=
  Forall (λ l, strip l ≠ mk) lines.

Definition has_marker (mk : str) (lines : list str) : bool :=
  existsb (λ l, bool_decide (strip l = mk)) lines.

Definition marker_once (mk : str) (lines : list str) : Prop :=
  length (filter (λ l, strip l = mk) lines) ≤ 1.

(** The entry recorded when a section ends at line [i]. *)
Definition close_section (name : option Datafile.section) (start : option nat)
    (i : nat) (found : Datafile.indices) : Datafile.indices :=
  match name, start with
  | Some nm, Some st => Datafile.dict_set nm (st, i) found
  | _, _ => found
  end.

(** What the rewriting loop needs of [found] for the section [sec]
    with the marker [mk], when the lines [read] lie behind it and the
    lines [todo] ahead: the marker is not ahead, or it is ahead once and
    the entry of [sec] ends where the content behind that marker ends. *)
Definition target (sec : Datafile.section) (mk : str) (read todo : list str)
    (found : Datafile.indices) : Prop :=
  marker_free mk todo
  ∨ ∃ pre m post s,
      todo = pre ++ m :: post ∧ strip m = mk
      ∧ marker_free mk pre ∧ marker_free mk post
      ∧ Datafile.dict_get sec found
        = Some (s, length read + length pre + 1 + content_end post).

(** What holds of the count of the sequences shown during a pass: it
    is bounded by the index and by the number of sequences detected;
    without a sequence to decide the pass is over. *)
Record counted (w : AllCaps.world) : Prop := Counted {
  counted_shown :
    length (AllCaps.shown w)
    ≤ S (AllCaps.current_match_index (AllCaps.w_proc w));
  counted_bound :
    length (AllCaps.shown w)
    ≤ length (AllCaps.all_caps_matches_original (AllCaps.w_proc w));
  counted_none :
    AllCaps.current_caps_sequence (AllCaps.w_proc w) = None →
    length (AllCaps.all_caps_matches_original (AllCaps.w_proc w))
    ≤ AllCaps.current_match_index (AllCaps.w_proc w)
}.

(** ** Lowercase conversion ([processors/lowercase.py]) *)

Module Lowercase.


(** The loop of [apply_upper_to_lower] over the items of the mapping,
    with the text and the count of the matches found so far; [None]
    when a replacement is a template. *)
Fixpoint upper_to_lower_loop (items : list (str * str)) (t : str) (made : nat)
    : option (str * nat) :=
  match items with
  | [] => Some (t, made)
  | (up, low) :: rest =>
      let pattern := Re.whole_word false up in
      let matches := Re.finditer pattern t in
      if AllCaps.literal low
      then upper_to_lower_loop rest (Re.sub pattern (λ _, low) t)
             (made + length matches)
      else None
  end.

(** [apply_upper_to_lower(ctx, upper_to_lower)], the dictionary given
    by its items in insertion order. *)
Definition apply_upper_to_lower (ctx : BookfixContext)
    (upper_to_lower : list (str * str)) : option BookfixContext :=
  let original_text := text ctx in
  '(t, replacements_made) ← upper_to_lower_loop upper_to_lower (text ctx) 0;
  Some (log_change (py "apply_upper_to_lower")
          (py "Applied " ++ str_of_nat (length upper_to_lower)
             ++ py " uppercase-to-lowercase rules, made "
             ++ str_of_nat replacements_made ++ py " replacements")
          (Some (length original_text)) (Some (length t)) (set_text t ctx)).

End Lowercase.

(** ** Blank line removal ([processors/blanklines.py]) *)

Module Blanklines.

(** The arrow of the log description lies outside the alphabet of the
    embedding; it is kept as the bytes of its UTF-8 encoding. *)
Definition arrow : str := py " → ".

(** [remove_blank_lines(ctx)] *)
Definition remove_blank_lines (ctx : BookfixContext) : BookfixContext :=
  let original_text := text ctx in
  let original_line_count := length (splitlines original_text) in
  let lines := splitlines (text ctx) in
  let non_blank_lines := filter (λ line, strip line ≠ []) lines in
  let ctx := set_text (join nl non_blank_lines) ctx in
  let final_line_count := length non_blank_lines in
  let removed_lines := original_line_count - final_line_count in
  log_change (py "remove_blank_lines")
    (py "Removed " ++ str_of_nat removed_lines ++ py " blank lines ("
       ++ str_of_nat original_line_count ++ arrow
       ++ str_of_nat final_line_count ++ py " lines)")
    (Some (length original_text)) (Some (length (text ctx))) ctx.

End Blanklines.

(** ** The all-caps branch of [run_processing] ([pipeline.py]) *)

Module Pipeline.

Section iteration.

(** The order in which the dictionary comprehension visits
    [ctx.lowercase_set]. *)
Variable iteration : gset str → list str.

(** [{word: word.lower() for word in ctx.lowercase_set}] *)
Definition mapping (ctx : BookfixContext) : list (str * str) :=
  (λ word, (word, lower word)) <$> iteration (lowercase_set ctx).

(** The pre-application of the [UPPER_TO_LOWER] rules when the
    all-caps step is enabled: [if ctx.lowercase_set: ...]. *)
Definition pre_apply_rules (ctx : BookfixContext) : option BookfixContext :=
  if decide (lowercase_set ctx ≠ ∅)
  then Lowercase.apply_upper_to_lower ctx (mapping ctx)
  else Some ctx.

End iteration.

End Pipeline.

(** ** Saving the default directory ([datafile.py]) *)

Module SaveDir.

Record rewritten := Rewritten {
  new_lines : list str;
  default_dir_section_handled : bool
}.

(** The [while i < len(original_lines)] loop of
    [save_default_directory_to_data_file]; [None] when the fuel runs
    out. *)
Fixpoint rewrite_loop (fuel i : nat) (original_lines : list str)
    (found : Datafile.indices) (content : list str) (acc : rewritten)
    : option rewritten :=
  match original_lines !! i with
  | None => Some acc
  | Some line =>
      match fuel with
      | 0 => None
      | S fuel =>
          let stripped_line := strip line in
          match decide (stripped_line = Datafile.DEFAULT_DIR_SECTION_MARKER),
                Datafile.dict_get Datafile.sec_default_dir found with
          | left _, Some (_, end_idx) =>
              rewrite_loop fuel end_idx original_lines found content
                (Rewritten (new_lines acc ++ [line] ++ content) true)
          | _, _ =>
              rewrite_loop fuel (S i) original_lines found content
                (Rewritten (new_lines acc ++ [line])
                   (default_dir_section_handled acc))
          end
      end
  end.

(** The lines that [save_default_directory_to_data_file(directory_path)]
    writes; [None] when the rewriting loop does not end. *)
Definition saved_lines (env : Datafile.fs) (directory_path : str)
    : option (list str) :=
  let original_lines :=
    match Datafile.data_file env with Datafile.Lines lines => lines | _ => [] end in
  let found := Datafile.section_indices original_lines in
  let new_default_dir_content_lines := [directory_path ++ nl] in
  r ← rewrite_loop (length original_lines) 0 original_lines found
         new_default_dir_content_lines (Rewritten [] false);
  Some (if default_dir_section_handled r then new_lines r
        else Datafile.append_section Datafile.DEFAULT_DIR_SECTION_MARKER
               new_default_dir_content_lines (new_lines r)).

(** [save_default_directory_to_data_file(directory_path)]: the file
    system afterwards.  An error while writing is logged and the file
    is left as it was. *)
Definition save_default_directory_to_data_file (env : Datafile.fs)
    (directory_path : str) : option Datafile.fs :=
  lines ← saved_lines env directory_path;
  Some (if Datafile.can_write env
        then Datafile.Fs (Datafile.written lines) (Datafile.probe_dir env)
               (Datafile.can_write env)
        else env).

End SaveDir.

(** ** Words used to state what a session of line edits keeps *)

(** What the editor can ask of the processor. *)
Inductive numbered_action :=
| SaveAndNext (edited_text : str)
| GoNext
| GoPrevious.

Definition numbered_act (a : numbered_action) (p : Numbered.processor)
    : Numbered.processor * bool :=
  match a with
  | SaveAndNext edited_text => Numbered.save_and_next edited_text p
  | GoNext => Numbered.go_next p
  | GoPrevious => Numbered.go_previous p
  end.

(** The processor after the actions, one after the other. *)
Definition numbered_session (actions : list numbered_action)
    (p : Numbered.processor) : Numbered.processor :=
  foldl (λ p a, (numbered_act a p).1) p actions.

(** ** Words used to state what the removal of blank lines keeps *)

(** A string without a line boundary. *)
Definition unbroken (l : str) : Prop :=
  Forall (λ c, Char.is_linebreak c = false) l.

(** ** Words used to state what a session of word choices keeps *)


(** ** Words used to state the rewrite of one section of the data file *)

(** The rewrite of one section as the specification words it: every
    line is copied, except the content of the section of the marker
    [mk] (the lines after such a marker up to the next marker), in
    whose place the new content is put.  [inside] tells whether the
    line read is content of that section. *)
Fixpoint section_rewrite (mk : str) (content : list str) (inside : bool)
    (lines : list str) : list str :=
  match lines with
  | [] => []
  | line :: rest =>
      if is_marker line then
        if decide (strip line = mk)
        then line :: content ++ section_rewrite mk content true rest
        else line :: section_rewrite mk content false rest
      else if inside then section_rewrite mk content true rest
      else line :: section_rewrite mk content false rest
  end.

(** A data file with a default directory and other sections, for the
    examples. *)
Definition dir_file : list str :=
  Datafile.file_lines ["# CHOICE"; "x -> y"; "# DEFAULT_FILE_DIR"; "/old";
                       "# old one"; "# PERIODS"; "Mr"]%string.

Definition dir_env : Datafile.fs :=
  Datafile.Fs (Datafile.Lines dir_file)
    (λ p, if decide (p = py "/books") then Datafile.IsDir (py "/books")
          else Datafile.NotDir)
    true.

(** ** Words used to state that what is saved is loaded again *)





(** ** Period insertion ([processors/periods.py]) *)

Module Periods.

(** ['.'.join(abbr) + '.'] *)
Definition dotted (abbr : str) : str :=
  join (py ".") ((λ c, [c]) <$> abbr) ++ py ".".

(** The loop over the abbreviations, with the text and the count of
    the matches found so far.  The replacement is handed to [re.sub]
    as a template; in [dotted abbr] every backslash is followed by a
    period, which is no escape of a template, so that the template
    stands for itself. *)
Fixpoint insert_loop (abbrs : list str) (t : str) (made : nat) : str * nat :=
  match abbrs with
  | [] => (t, made)
  | abbr :: rest =>
      let pattern := Re.whole_word false abbr in
      let replacement := dotted abbr in
      let matches := Re.finditer pattern t in
      insert_loop rest (Re.sub pattern (λ _, replacement) t)
        (made + length matches)
  end.

Section iteration.

(** The order in which the loop visits [ctx.periods]. *)
Variable iteration : gset str → list str.

(** [insert_periods_into_abbreviations(ctx)] *)
Definition insert_periods_into_abbreviations (ctx : BookfixContext)
    : BookfixContext :=
  let original_text := text ctx in
  let result := insert_loop (iteration (periods ctx)) (text ctx) 0 in
  log_change (py "insert_periods")
    (py "Processed " ++ str_of_nat (size (periods ctx))
       ++ py " abbreviations, made " ++ str_of_nat result.2 ++ py " insertions")
    (Some (length original_text)) (Some (length result.1))
    (set_text result.1 ctx).

End iteration.

End Periods.

(** The text without its periods. *)
Definition unpunctuated (t : str) : str := filter (λ c, c ≠ "."%char) t.

(** ** Automatic replacements ([processors/automatic.py]) *)

Module Automatic.

Section oracle.

(** The rules of the data file are arbitrary Python patterns and
    templates, which lie outside the embedding.  [regex_sub old new t]
    stands for [re.compile(old)], [list(pattern.finditer(t))] and
    [pattern.sub(new, t)]: the new text and the number of matches, or
    [None] when [re.error] is raised. *)
Variable regex_sub : str → str → str → option (str * nat).



End oracle.

End Automatic.

(** ** The processing pipeline ([pipeline.py]) *)

Module Processing.


Section parameters.

Variable regex_sub : str → str → str → option (str * nat).
Variable bs4 : option Pagination.soup_pass.
Variable iteration : gset str → list str.






End parameters.

End Processing.

(** ** Words used to state what the pipeline keeps *)






(* ================================================================= *)
(** * Properties *)

(** ** The matcher and the scan *)

Lemma rep_greedy (p : ascii → bool) (ah : str) :
  ∀ lo sn,
    Re.rep p lo None sn ah Some =
      if lo <=? run_length p ah
      then Some (Re.Cursor (reverse (take (run_length p ah) ah) ++ sn)
                           (drop (run_length p ah) ah))
      else None.
Proof.
  induction ah as [|x a IH]; intros lo sn; simpl.
  - by destruct lo.
  - destruct (p x) eqn:Hx; simpl.
    + rewrite IH. destruct lo as [|lo]; simpl.
      * by rewrite reverse_cons, <- app_assoc.
      * destruct (lo <=? run_length p a); [|done].
        by rewrite reverse_cons, <- app_assoc.
    + by destruct lo.
Qed.

Lemma run_length_le (p : ascii → bool) (l : str) : run_length p l ≤ length l.
Proof. induction l as [|x l IH]; simpl; [lia|]. destruct (p x); simpl; lia. Qed.

Lemma run_length_lookup (p : ascii → bool) (l : str) (i : nat) :
  i < run_length p l → ∃ c, l !! i = Some c ∧ p c = true.
Proof.
  revert i. induction l as [|x l IH]; intros i; simpl; [lia|].
  destruct (p x) eqn:Hx; [|lia]. destruct i as [|i]; simpl.
  - eauto.
  - intros ?. apply IH. lia.
Qed.

Lemma run_length_stop (p : ascii → bool) (l : str) (c : ascii) :
  l !! run_length p l = Some c → p c = false.
Proof.
  induction l as [|x l IH]; simpl; [done|].
  destruct (p x) eqn:Hx; simpl; [done|]. by intros [= ->].
Qed.

Lemma scan_eq (r : Re.regex) (sn ah : str) (skip : nat) :
  Re.scan r sn ah skip =
    match skip with
    | S n => match ah with x :: a => Re.scan r (x :: sn) a n | [] => [] end
    | 0 =>
        match Re.match_at r (Re.Cursor sn ah) with
        | Some c' =>
            (length sn, Re.pos c') ::
              match ah with
              | x :: a => Re.scan r (x :: sn) a (Re.pos c' - length sn - 1)
              | [] => []
              end
        | None =>
            match ah with x :: a => Re.scan r (x :: sn) a 0 | [] => [] end
        end
    end.
Proof. by destruct ah. Qed.

Lemma scan_skip (r : Re.regex) (n : nat) :
  ∀ sn ah, n ≤ length ah →
    Re.scan r sn ah n = Re.scan r (reverse (take n ah) ++ sn) (drop n ah) 0.
Proof.
  induction n as [|n IH]; intros sn ah Hn.
  - by rewrite take_0, drop_0.
  - destruct ah as [|x a]; simpl in Hn; [lia|].
    rewrite scan_eq, IH by lia.
    by rewrite firstn_cons, skipn_cons, reverse_cons, <- app_assoc.
Qed.

(** One step of the scan at a position where a non-empty match is found. *)
Lemma scan_hit (r : Re.regex) (sn ah : str) (n : nat) :
  0 < n → n ≤ length ah →
  Re.match_at r (Re.Cursor sn ah)
    = Some (Re.Cursor (reverse (take n ah) ++ sn) (drop n ah)) →
  Re.scan r sn ah 0 =
    (length sn, length sn + n)
      :: Re.scan r (reverse (take n ah) ++ sn) (drop n ah) 0.
Proof.
  intros Hn Hlen Hm. rewrite scan_eq, Hm. unfold Re.pos. cbn [Re.seen].
  rewrite length_app, length_reverse, length_take_le by done.
  replace (n + length sn) with (length sn + n) by lia. f_equal.
  destruct ah as [|x a]; simpl in Hlen; [lia|].
  replace (length sn + n - length sn - 1) with (n - 1) by lia.
  rewrite scan_skip by lia.
  destruct n as [|n]; [lia|].
  rewrite firstn_cons, skipn_cons, reverse_cons, <- app_assoc.
  by replace (S n - 1) with n by lia.
Qed.

Lemma scan_miss (r : Re.regex) (sn : str) (x : ascii) (a : str) :
  Re.match_at r (Re.Cursor sn (x :: a)) = None →
  Re.scan r sn (x :: a) 0 = Re.scan r (x :: sn) a 0.
Proof. intros Hm. by rewrite scan_eq, Hm. Qed.

Lemma scan_end_miss (r : Re.regex) (sn : str) :
  Re.match_at r (Re.Cursor sn []) = None → Re.scan r sn [] 0 = [].
Proof. intros Hm. by rewrite scan_eq, Hm. Qed.

Lemma advances_refl (c : Re.cursor) : advances c c [].
Proof. by split. Qed.

Lemma advances_trans (c1 c2 c3 : Re.cursor) (w1 w2 : str) :
  advances c1 c2 w1 → advances c2 c3 w2 → advances c1 c3 (w1 ++ w2).
Proof.
  intros [Ha1 Hs1] [Ha2 Hs2]. split.
  - by rewrite Ha1, Ha2, app_assoc.
  - by rewrite Hs2, Hs1, reverse_app, app_assoc.
Qed.

Lemma lit_advances (A : Type) (icase : bool) (s : str) :
  ∀ sn ah (k : Re.cursor → option A) res,
    Re.lit icase s sn ah k = Some res →
    ∃ w rest, ah = w ++ rest ∧ length w = length s
              ∧ Forall2 (λ x y, Re.eqc icase x y = true) s w
              ∧ k (Re.Cursor (reverse w ++ sn) rest) = Some res.
Proof.
  induction s as [|x s IH]; intros sn ah k res; cbn [Re.lit].
  - intros Hk. exists [], ah. by repeat split.
  - destruct ah as [|y a]; [done|]. destruct (Re.eqc icase x y) eqn:Hxy; [|done].
    intros (w & rest & -> & Hlen & Hall & Hk)%IH.
    exists (y :: w), rest. split; [done|]. split; [by simpl; rewrite Hlen|].
    split; [by constructor|]. by rewrite reverse_cons, <- app_assoc.
Qed.

Lemma rep_advances (A : Type) (p : ascii → bool) (ah : str) :
  ∀ lo hi sn (k : Re.cursor → option A) res,
    Re.rep p lo hi sn ah k = Some res →
    ∃ w rest, ah = w ++ rest ∧ lo ≤ length w ∧ Forall (λ x, p x = true) w
              ∧ k (Re.Cursor (reverse w ++ sn) rest) = Some res.
Proof.
  assert (Hstop : ∀ lo sn ah (k : Re.cursor → option A) res,
    match lo with 0 => k (Re.Cursor sn ah) | S _ => None end = Some res →
    ∃ w rest, ah = w ++ rest ∧ lo ≤ length w ∧ Forall (λ x, p x = true) w
              ∧ k (Re.Cursor (reverse w ++ sn) rest) = Some res).
  { intros [|lo] sn ah' k res Hk; [|done]. exists [], ah'. by repeat split. }
  induction ah as [|x a IH]; intros lo hi sn k res H.
  - apply Hstop. by destruct hi as [[|?]|].
  - assert (Hcase : (Re.rep p lo hi sn (x :: a) k
               = match lo with 0 => k (Re.Cursor sn (x :: a)) | S _ => None end)
             ∨ (p x = true ∧
                Re.rep p (pred lo) (pred <$> hi) (x :: sn) a k = Some res)).
    { cbn [Re.rep] in H |- *. destruct hi as [[|hi]|]; [by left| |].
      - destruct (p x); [|by left].
        destruct (Re.rep p (pred lo) (pred <$> Some (S hi)) (x :: sn) a k) eqn:E;
          [right|by left]. split; [done|]. by rewrite <- H.
      - destruct (p x); [|by left].
        destruct (Re.rep p (pred lo) (pred <$> None) (x :: sn) a k) eqn:E;
          [right|by left]. split; [done|]. by rewrite <- H. }
    destruct Hcase as [Heq|[Hx Hrec]].
    + apply Hstop. by rewrite <- Heq.
    + apply IH in Hrec as (w & rest & -> & Hlo & Hall & Hk).
      exists (x :: w), rest. split; [done|]. split; [simpl; lia|].
      split; [by constructor|]. by rewrite reverse_cons, <- app_assoc.
Qed.

(** Whatever the matcher returns, it got from its continuation at a
    cursor further on in the same subject. *)
Lemma run_advances (A : Type) (r : Re.regex) :
  ∀ c (k : Re.cursor → option A) res,
    Re.run r c k = Some res →
    ∃ c' w, advances c c' w ∧ k c' = Some res.
Proof.
  induction r as [|icase s|p|p lo hi|r1 IH1 r2 IH2|r1 IH1 r2 IH2| | | | |];
    intros c k res; cbn [Re.run].
  - intros Hk. exists c, []. split; [apply advances_refl|done].
  - intros (w & rest & Hah & _ & _ & Hk)%lit_advances.
    exists (Re.Cursor (reverse w ++ Re.seen c) rest), w. by split.
  - destruct (Re.ahead c) as [|x a] eqn:Hah; [done|]. destruct (p x); [|done].
    intros Hk. exists (Re.Cursor (x :: Re.seen c) a), [x]. split; [|done].
    by split.
  - intros (w & rest & Hah & _ & _ & Hk)%rep_advances.
    exists (Re.Cursor (reverse w ++ Re.seen c) rest), w. by split.
  - intros (c1 & w1 & Hadv1 & (c2 & w2 & Hadv2 & Hk)%IH2)%IH1.
    exists c2, (w1 ++ w2). split; [by eapply advances_trans|done].
  - destruct (Re.run r1 c k) eqn:H1.
    + intros [= <-]. by apply IH1.
    + apply IH2.
  - destruct (Re.boundary _ _); [|done]. intros Hk.
    exists c, []. split; [apply advances_refl|done].
  - intros Hk. exists c, []. split; [apply advances_refl|].
    destruct (Re.seen c) as [|x ?]; [done|]. by destruct (p x).
  - intros Hk. exists c, []. split; [apply advances_refl|].
    destruct (Re.ahead c) as [|x ?]; [done|]. by destruct (p x).
  - intros Hk. exists c, []. split; [apply advances_refl|].
    by destruct (Re.seen c).
  - intros Hk. exists c, []. split; [apply advances_refl|].
    destruct (Re.ahead c) as [|x [|??]]; [done| |done]. by case_bool_decide.
Qed.

Lemma match_at_advances (r : Re.regex) (sn ah : str) (c' : Re.cursor) :
  Re.match_at r (Re.Cursor sn ah) = Some c' →
  ∃ w, c' = Re.Cursor (reverse w ++ sn) (drop (length w) ah)
       ∧ take (length w) ah = w ∧ length w ≤ length ah.
Proof.
  intros (c1 & w & [Hah Hsn] & [= ->])%run_advances.
  cbn [Re.seen Re.ahead] in *. exists w. destruct c' as [sn' ah'].
  cbn [Re.seen Re.ahead] in *. subst.
  rewrite drop_app_length, take_app_length, length_app. split; [done|].
  split; [done|lia].
Qed.

(** The spans of a scan follow one another and stay inside the text. *)
Lemma scan_chained (r : Re.regex) (n : nat) :
  ∀ sn ah, length ah ≤ n →
    chained (length sn + length ah) (length sn) (Re.scan r sn ah 0).
Proof.
  assert (Hmono : ∀ len from from' spans,
            from' ≤ from → chained len from spans → chained len from' spans).
  { intros len from from' [|[s e] rest] Hle; [done|].
    cbn [chained]. intros (? & ? & ? & ?). split; [lia|done]. }
  induction n as [|n IH]; intros sn ah Hlen.
  - destruct ah; simpl in Hlen; [|lia]. rewrite scan_eq.
    destruct (Re.match_at r (Re.Cursor sn [])) as [c'|] eqn:Hm; [|done].
    apply match_at_advances in Hm as (w & -> & _ & Hw). simpl in Hw.
    destruct w; simpl in Hw; [|lia]. unfold Re.pos. simpl. lia.
  - rewrite scan_eq.
    destruct (Re.match_at r (Re.Cursor sn ah)) as [c'|] eqn:Hm.
    + apply match_at_advances in Hm as (w & -> & Htake & Hw).
      unfold Re.pos. cbn [Re.seen chained].
      rewrite length_app, length_reverse.
      split; [lia|]. split; [lia|]. split; [lia|].
      destruct ah as [|x a]; [done|]. simpl in Hlen, Hw.
      replace (length w + length sn - length sn - 1) with (length w - 1) by lia.
      rewrite scan_skip by lia.
      eapply Hmono; cycle 1.
      * replace (length sn + length (x :: a))
          with (length (reverse (take (length w - 1) a) ++ x :: sn)
                + length (drop (length w - 1) a)).
        { apply IH. rewrite length_drop. lia. }
        rewrite length_app, length_reverse, length_take_le, length_drop by lia.
        simpl. lia.
      * rewrite length_app, length_reverse, length_take_le by lia. simpl. lia.
    + destruct ah as [|x a]; [done|]. simpl in Hlen.
      eapply Hmono; cycle 1.
      * replace (length sn + length (x :: a))
          with (length (x :: sn) + length a) by (simpl; lia).
        apply IH. lia.
      * simpl. lia.
Qed.

Lemma finditer_spans (r : Re.regex) (t : str) :
  Re.span <$> Re.finditer r t = Re.scan r [] t 0.
Proof.
  unfold Re.finditer. rewrite <- list_fmap_compose.
  rewrite <- (list_fmap_id (Re.scan r [] t 0)) at 2.
  apply list_fmap_ext. by intros i [s e] _.
Qed.

Lemma finditer_chained (r : Re.regex) (t : str) :
  chained (length t) 0 (Re.span <$> Re.finditer r t).
Proof. rewrite finditer_spans. apply (scan_chained r (length t) [] t). done. Qed.

Lemma finditer_group0 (r : Re.regex) (t : str) (m : Re.rmatch) :
  m ∈ Re.finditer r t → Re.group0 m = slice t (Re.m_start m) (Re.m_end m).
Proof.
  unfold Re.finditer. intros ([s e] & -> & _)%list_elem_of_fmap. done.
Qed.

Lemma slice_slice_drop (t : str) (from s e : nat) :
  from ≤ s → s ≤ e → e ≤ length t →
  slice t from s ++ slice t s e ++ drop e t = drop from t.
Proof.
  intros H1 H2 H3. unfold slice.
  rewrite <- (take_drop (s - from) (drop from t)) at 2. f_equal.
  rewrite drop_drop. replace (from + (s - from)) with s by lia.
  rewrite <- (take_drop (e - s) (drop s t)) at 2. f_equal.
  rewrite drop_drop. f_equal. lia.
Qed.

(** Replacing every match by a string that agrees with the matched text
    under [f] gives a text that agrees with the original under [f], for
    any [f] that distributes over concatenation. *)
Lemma rebuild_with_hom (f : str → str) (t : str) :
  (∀ a b, f (a ++ b) = f a ++ f b) →
  ∀ ms from,
    chained (length t) from ((Re.span ∘ fst) <$> ms) →
    Forall (λ mr, f mr.2 = f (slice t (Re.m_start mr.1) (Re.m_end mr.1))) ms →
    f (Re.rebuild_with t from ms) = f (drop from t).
Proof.
  intros Hf ms. induction ms as [|[m r] ms IH]; intros from Hch Hall; [done|].
  cbn [Re.rebuild_with]. cbn in Hch. destruct Hch as (H1 & H2 & H3 & Hch).
  apply Forall_cons in Hall as [Hr Hall]. cbn in Hr.
  rewrite !Hf, IH, Hr by done. rewrite <- !Hf.
  by rewrite slice_slice_drop.
Qed.

Lemma rebuild_with_id (t : str) (ms : list (Re.rmatch * str)) (from : nat) :
  chained (length t) from ((Re.span ∘ fst) <$> ms) →
  Forall (λ mr, mr.2 = slice t (Re.m_start mr.1) (Re.m_end mr.1)) ms →
  Re.rebuild_with t from ms = drop from t.
Proof. apply (rebuild_with_hom id); done. Qed.

Lemma zip_fst_spans (ms : list Re.rmatch) (rs : list str) :
  length rs = length ms →
  (Re.span ∘ fst) <$> zip ms rs = Re.span <$> ms.
Proof. intros Hlen. by rewrite list_fmap_compose, fst_zip by lia. Qed.

Lemma lower_app (a b : str) : lower (a ++ b) = lower a ++ lower b.
Proof. apply fmap_app. Qed.

Lemma length_lower (s : str) : length (lower s) = length s.
Proof. apply length_fmap. Qed.

(** Every span of a scan is a match found at its start. *)
Lemma scan_sound (r : Re.regex) (ah : str) :
  ∀ sn skip s e,
    (s, e) ∈ Re.scan r sn ah skip →
    ∃ j c', j ≤ length ah ∧ s = length sn + j
            ∧ Re.match_at r (Re.Cursor (reverse (take j ah) ++ sn) (drop j ah))
              = Some c'
            ∧ Re.pos c' = e.
Proof.
  induction ah as [|x a IH]; intros sn skip s e; rewrite scan_eq.
  - destruct skip; [|by intros ?%elem_of_nil].
    destruct (Re.match_at r (Re.Cursor sn [])) as [c'|] eqn:Hm;
      [|by intros ?%elem_of_nil].
    intros [= -> ->]%list_elem_of_singleton. exists 0, c'. simpl.
    repeat split; [lia|lia|done].
  - assert (Hrec : ∀ n, (s, e) ∈ Re.scan r (x :: sn) a n →
              ∃ j c', j ≤ length (x :: a) ∧ s = length sn + j
                ∧ Re.match_at r
                    (Re.Cursor (reverse (take j (x :: a)) ++ sn) (drop j (x :: a)))
                  = Some c'
                ∧ Re.pos c' = e).
    { intros n (j & c' & Hj & -> & Hm & He)%IH. exists (S j), c'.
      rewrite firstn_cons, skipn_cons, reverse_cons, <- app_assoc. simpl.
      repeat split; [lia|lia|done|done]. }
    destruct skip as [|n]; [|apply Hrec].
    destruct (Re.match_at r (Re.Cursor sn (x :: a))) as [c'|] eqn:Hm;
      [|apply Hrec].
    intros [[= -> ->]|Hin]%elem_of_cons; [|by eapply Hrec].
    exists 0, c'. rewrite take_0, drop_0. simpl. repeat split; [lia|lia|done].
Qed.

(** A scan that finds nothing: no position matches. *)
Lemma scan_nil (r : Re.regex) (ah : str) :
  ∀ sn,
    (∀ j, j ≤ length ah →
       Re.match_at r (Re.Cursor (reverse (take j ah) ++ sn) (drop j ah)) = None) →
    Re.scan r sn ah 0 = [].
Proof.
  induction ah as [|x a IH]; intros sn Hnone; rewrite scan_eq.
  - specialize (Hnone 0 (Nat.le_refl _)). rewrite take_0, drop_0 in Hnone.
    simpl in Hnone. by rewrite Hnone.
  - specialize (Hnone 0 ltac:(lia)) as H0. rewrite take_0, drop_0 in H0.
    simpl in H0. rewrite H0. apply IH. intros j Hj.
    specialize (Hnone (S j) ltac:(simpl; lia)).
    by rewrite firstn_cons, skipn_cons, reverse_cons, <- app_assoc in Hnone.
Qed.

(** For a pattern that matches no empty string, every position at
    which it matches lies inside a span of the scan. *)
Lemma scan_cover (r : Re.regex) :
  (∀ sn ah c', Re.match_at r (Re.Cursor sn ah) = Some c' → length sn < Re.pos c') →
  ∀ ah sn skip j c',
    skip ≤ j → j ≤ length ah →
    Re.match_at r (Re.Cursor (reverse (take j ah) ++ sn) (drop j ah)) = Some c' →
    covered (Re.scan r sn ah skip) (length sn + j) = true.
Proof.
  intros Hne. induction ah as [|x a IH]; intros sn skip j c' Hskip Hj Hm;
    rewrite scan_eq.
  - simpl in Hj. assert (j = 0) as -> by lia. assert (skip = 0) as -> by lia.
    simpl in Hm. rewrite Hm. apply Hne in Hm. simpl.
    apply orb_true_iff. left. apply andb_true_iff.
    split; [apply Nat.leb_le|apply Nat.ltb_lt]; lia.
  - assert (Hrec : ∀ n, n ≤ j - 1 → 0 < j →
              covered (Re.scan r (x :: sn) a n) (length sn + j) = true).
    { intros n Hn Hpos. destruct j as [|j]; [lia|].
      replace (length sn + S j) with (length (x :: sn) + j) by (simpl; lia).
      apply (IH _ _ _ c'); [lia|simpl in Hj; lia|].
      by rewrite firstn_cons, skipn_cons, reverse_cons, <- app_assoc in Hm. }
    destruct skip as [|n]; [|apply Hrec; lia].
    destruct (Re.match_at r (Re.Cursor sn (x :: a))) as [c1|] eqn:Hm1.
    + apply Hne in Hm1 as Hpos. cbn [covered existsb fst snd].
      apply orb_true_iff.
      destruct (decide (length sn + j < Re.pos c1)) as [Hin|Hout].
      * left. apply andb_true_iff.
        split; [apply Nat.leb_le|apply Nat.ltb_lt]; lia.
      * right. apply Hrec; lia.
    + destruct j as [|j]; [|apply Hrec; lia].
      rewrite take_0, drop_0 in Hm. simpl in Hm. congruence.
Qed.

(** A position before the first span is in none of them. *)
Lemma covered_before (len from : nat) (spans : list (nat * nat)) (i : nat) :
  chained len from spans → i < from → covered spans i = false.
Proof.
  revert from. induction spans as [|[s e] rest IH]; intros from Hch Hi; [done|].
  cbn in Hch. destruct Hch as (H1 & H2 & H3 & Hch).
  cbn [covered existsb fst snd]. apply orb_false_iff. split.
  - apply andb_false_iff. left. apply Nat.leb_gt. lia.
  - apply (IH e); [done|lia].
Qed.

(** ** Strings *)

Lemma endswith_spec (s suffix : str) :
  endswith s suffix = true ↔ ∃ s0, s = s0 ++ suffix.
Proof.
  unfold endswith. rewrite bool_decide_eq_true. split.
  - set (n := length s - length suffix). intros H.
    exists (take n s). by rewrite <- H, take_drop.
  - intros [s0 ->]. rewrite length_app.
    replace (length s0 + length suffix - length suffix) with (length s0) by lia.
    by rewrite drop_app_length.
Qed.

Lemma endswith_last (s suffix : str) (x : ascii) :
  endswith s suffix = true → last suffix = Some x → last s = Some x.
Proof.
  rewrite endswith_spec. intros [s0 ->] Hx.
  by rewrite last_app, Hx.
Qed.

Lemma endswith_nonempty (s suffix : str) :
  endswith s suffix = true → suffix ≠ [] → s ≠ [].
Proof.
  rewrite endswith_spec. intros [s0 ->] Hne Happ.
  apply app_eq_nil in Happ as [_ ?]. done.
Qed.

(** ** Pagination removal *)

Lemma txt_is_not_html (fp : str) :
  Pagination.is_txt fp = true → Pagination.is_html fp = false.
Proof.
  unfold Pagination.is_txt, Pagination.is_html. intros Htxt.
  pose proof (endswith_last _ _ "t"%char Htxt eq_refl) as Hlast.
  apply orb_false_iff. split; apply not_true_is_false; intros H.
  - pose proof (endswith_last _ _ "l"%char H eq_refl). congruence.
  - pose proof (endswith_last _ _ "l"%char H eq_refl). congruence.
Qed.

Lemma remove_body_txt soup (fp t : str) :
  Pagination.is_txt fp = true →
  Pagination.remove_body soup (Some fp) t =
    (join nl (filter (λ l, Pagination.page_number_line l = false) (splitlines t)),
     (λ l, py "Removed: " ++ l) <$>
       filter (λ l, Pagination.page_number_line l = true) (splitlines t)).
Proof.
  intros Htxt. unfold Pagination.remove_body.
  destruct fp as [|c fp'].
  - by vm_compute in Htxt.
  - by rewrite (txt_is_not_html _ Htxt), Htxt.
Qed.

Lemma remove_body_other soup (fp : option str) (t : str) :
  (∀ p, fp = Some p → Pagination.is_html p = false ∧ Pagination.is_txt p = false) →
  Pagination.remove_body soup fp t = (t, []).
Proof.
  intros H. unfold Pagination.remove_body.
  destruct fp as [[|c fp']|]; [done| |done].
  destruct (H _ eq_refl) as [-> ->]. done.
Qed.

(** Claim C5, as stated, fails on the code.  With an unknown extension
    ([book.md]) the digit-only lines of ['1\nChapter One\n2\n'] are not
    removed: the text comes back unchanged and nothing is logged.  With
    [book.txt] the result is ['Chapter One'], which is not
    ['Chapter One\n']. *)
Lemma remove_pagination_claim_counterexample :
  text (Pagination.ctx_out
          (Pagination.remove_pagination None (Pagination.ctx_of_file "book.md" Pagination.chapter_doc)))
    = Pagination.chapter_doc
  ∧ Pagination.pagination_log
      (Pagination.remove_pagination None (Pagination.ctx_of_file "book.md" Pagination.chapter_doc)) = []
  ∧ text (Pagination.ctx_out
            (Pagination.remove_pagination None (Pagination.ctx_of_file "book.txt" Pagination.chapter_doc)))
      ≠ py "Chapter One" ++ nl.
Proof. split; [|split]; [reflexivity|reflexivity|]. by vm_compute. Qed.

(** Claim C5, amended.  For a path that ends in [.txt] (in any case),
    [remove_pagination] keeps exactly the lines of [splitlines] whose
    stripped content is not a non-empty run of digits, in their order,
    joined by single newlines with no newline after the last one, and
    logs one entry for each line dropped.  For no path, an empty path or
    any other extension that is not [.html]/[.xhtml], the text is left
    as it is and nothing is logged.  On ['1\nChapter One\n2\n'] with a
    [.txt] path the result is ['Chapter One'] and two lines are
    logged. *)
Theorem remove_pagination_line_mode (bs4 : option Pagination.soup_pass)
    (ctx : BookfixContext) :
  let out := Pagination.remove_pagination bs4 ctx in
  let lines := splitlines (text ctx) in
  (∀ fp, filepath ctx = Some fp → Pagination.is_txt fp = true →
     text (Pagination.ctx_out out) =
       join nl (filter (λ l, isdigit (strip l) = false) lines)
     ∧ Pagination.pagination_log out =
         (λ l, py "Removed: " ++ l) <$> filter (λ l, isdigit (strip l) = true) lines)
  ∧ ((∀ fp, filepath ctx = Some fp →
        Pagination.is_html fp = false ∧ Pagination.is_txt fp = false) →
     text (Pagination.ctx_out out) = text ctx
     ∧ Pagination.pagination_log out = [])
  ∧ (let ex := Pagination.remove_pagination bs4 (Pagination.ctx_of_file "book.txt" Pagination.chapter_doc) in
     text (Pagination.ctx_out ex) = py "Chapter One"
     ∧ length (Pagination.pagination_log ex) = 2).
Proof.
  intros out lines. split; [|split].
  - intros fp Hfp Htxt. subst out. unfold Pagination.remove_pagination.
    rewrite Hfp.
    assert (Hhtml : match fp with
                    | [] => false | c :: fp' => Pagination.is_html (c :: fp')
                    end = false).
    { destruct fp; [done|]. by apply txt_is_not_html. }
    rewrite Hhtml. rewrite (remove_body_txt _ _ _ Htxt). simpl. done.
  - intros Hother. subst out. unfold Pagination.remove_pagination.
    assert (Hhtml : match filepath ctx with
                    | Some (c :: fp') => Pagination.is_html (c :: fp')
                    | _ => false
                    end = false).
    { destruct (filepath ctx) as [[|c fp']|] eqn:E; [done| |done].
      by destruct (Hother _ eq_refl). }
    rewrite Hhtml. rewrite (remove_body_other _ _ _ Hother). simpl. done.
  - destruct bs4; split; reflexivity.
Qed.

Lemma remove_pagination_line_mode_witness :
  Pagination.is_txt (py "Book.TXT") = true
  ∧ text (Pagination.ctx_out
            (Pagination.remove_pagination None (Pagination.ctx_of_file "Book.TXT" Pagination.chapter_doc)))
      = py "Chapter One".
Proof.
  split; [reflexivity|].
  pose proof (remove_pagination_line_mode None (Pagination.ctx_of_file "Book.TXT" Pagination.chapter_doc))
    as [Htxt _].
  destruct (Htxt (py "Book.TXT") eq_refl eq_refl) as [-> _]. reflexivity.
Defined.

(** ** Numbered lines *)

Lemma digit_at_ahead (sn ah : str) (i : nat) :
  digit_at (reverse sn ++ ah) (length sn + i) =
    match ah !! i with Some c => Char.is_digit c | None => false end.
Proof.
  unfold digit_at. rewrite lookup_app_r by (rewrite length_reverse; lia).
  rewrite length_reverse. by replace (length sn + i - length sn) with i by lia.
Qed.

Lemma digit_at_before (x : ascii) (sn ah : str) :
  digit_at (reverse (x :: sn) ++ ah) (length sn) = Char.is_digit x.
Proof.
  unfold digit_at. rewrite reverse_cons, <- app_assoc.
  rewrite lookup_app_r by (rewrite length_reverse; lia).
  rewrite length_reverse, Nat.sub_diag. done.
Qed.

Lemma digit_at_run (sn ah : str) (i : nat) :
  i < run_length Char.is_digit ah →
  digit_at (reverse sn ++ ah) (length sn + i) = true.
Proof.
  intros Hi. rewrite digit_at_ahead.
  by destruct (run_length_lookup _ _ _ Hi) as (c & -> & ?).
Qed.

Lemma digit_at_run_end (sn ah : str) :
  digit_at (reverse sn ++ ah) (length sn + run_length Char.is_digit ah) = false.
Proof.
  rewrite digit_at_ahead.
  destruct (ah !! run_length Char.is_digit ah) eqn:E; [|done].
  by apply run_length_stop in E.
Qed.

(** If three digits start at the position of the cursor, the run there
    is at least three long. *)
Lemma run_length_ge (sn ah : str) (n : nat) :
  (∀ i, i < n → digit_at (reverse sn ++ ah) (length sn + i) = true) →
  n ≤ run_length Char.is_digit ah.
Proof.
  intros H. destruct (decide (n ≤ run_length Char.is_digit ah)); [done|].
  pose proof (digit_at_run_end sn ah) as Hend.
  rewrite H in Hend by lia. done.
Qed.

Lemma match_number (sn ah : str) :
  Re.match_at Numbered.number_pattern (Re.Cursor sn ah) =
    if 3 <=? run_length Char.is_digit ah
    then Some (Re.Cursor (reverse (take (run_length Char.is_digit ah) ah) ++ sn)
                 (drop (run_length Char.is_digit ah) ah))
    else None.
Proof. unfold Re.match_at. cbn [Re.run Numbered.number_pattern Re.seen Re.ahead]. apply rep_greedy. Qed.

Lemma scan_number_runs (t : str) (n : nat) :
  ∀ sn ah, length ah ≤ n → t = reverse sn ++ ah →
    (digit_before sn = true → run_length Char.is_digit ah < 2) →
    ∀ s e, (s, e) ∈ Re.scan Numbered.number_pattern sn ah 0
           ↔ length sn ≤ s ∧ digit_run t s e ∧ 3 ≤ e - s.
Proof.
  induction n as [|n IH]; intros sn ah Hlen Ht Hinv s e.
  - destruct ah; simpl in Hlen; [|lia].
    rewrite scan_end_miss by (by rewrite match_number).
    split; [by intros ?%elem_of_nil|].
    intros (Hs & (Hse & Hdig & _) & _). exfalso.
    specialize (Hdig s ltac:(lia)). subst t.
    replace s with (length sn + (s - length sn)) in Hdig by lia.
    by rewrite digit_at_ahead in Hdig.
  - destruct ah as [|x a].
    { rewrite scan_end_miss by (by rewrite match_number).
      split; [by intros ?%elem_of_nil|].
      intros (Hs & (Hse & Hdig & _) & _). exfalso.
      specialize (Hdig s ltac:(lia)). subst t.
      replace s with (length sn + (s - length sn)) in Hdig by lia.
      by rewrite digit_at_ahead in Hdig. }
    simpl in Hlen.
    pose proof (match_number sn (x :: a)) as Hm.
    set (k := run_length Char.is_digit (x :: a)) in *.
    destruct (3 <=? k) eqn:Hk.
    + apply Nat.leb_le in Hk.
      pose proof (run_length_le Char.is_digit (x :: a)) as Hkl. fold k in Hkl.
      rewrite (scan_hit _ _ _ k) by (done || lia).
      rewrite elem_of_cons.
      rewrite (IH (reverse (take k (x :: a)) ++ sn) (drop k (x :: a))); cycle 1.
      { rewrite length_drop. simpl. lia. }
      { rewrite reverse_app, reverse_involutive, <- app_assoc, take_drop. done. }
      { intros _.
        pose proof (digit_at_run_end sn (x :: a)) as Hend. fold k in Hend.
        rewrite digit_at_ahead in Hend.
        destruct (drop k (x :: a)) as [|y d] eqn:Hd; simpl; [lia|].
        assert ((x :: a) !! k = Some y) as Hy.
        { rewrite <- (Nat.add_0_r k), <- lookup_drop, Hd. done. }
        rewrite Hy in Hend. rewrite Hend. lia. }
      rewrite length_app, length_reverse, length_take_le by done.
      assert (Hrun : digit_run t (length sn) (length sn + k)).
      { split; [lia|]. split; [|split].
        - intros i Hi. subst t.
          replace i with (length sn + (i - length sn)) by lia.
          apply digit_at_run. fold k. lia.
        - subst t. apply digit_at_run_end.
        - destruct sn as [|y sn']; [by left|right]. simpl.
          rewrite Nat.sub_0_r. subst t. rewrite digit_at_before.
          apply not_true_is_false. intros Hy. specialize (Hinv Hy). fold k in Hinv. lia. }
      split.
      * intros [[= -> ->]|(Hs & Hr & Hl)].
        -- split; [lia|]. split; [done|lia].
        -- split; [lia|done].
      * intros (Hs & Hr & Hl).
        destruct (decide (s = length sn)) as [->|Hne].
        -- left. f_equal.
           destruct Hr as (_ & Hdig & Hend & _), Hrun as (_ & Hdig' & Hend' & _).
           destruct (Nat.lt_trichotomy e (length sn + k)) as [?|[?|?]]; [|done|].
           ++ rewrite Hdig' in Hend by lia. done.
           ++ rewrite Hdig in Hend' by lia. done.
        -- right. split; [|done].
           destruct (decide (k + length sn ≤ s)); [done|exfalso].
           destruct Hr as (_ & _ & _ & [->|Hleft]); [lia|].
           destruct Hrun as (_ & Hdig' & _).
           rewrite Hdig' in Hleft by lia. done.
    + apply Nat.leb_gt in Hk.
      rewrite scan_miss by done.
      rewrite (IH (x :: sn) a); cycle 1.
      { lia. }
      { by rewrite reverse_cons, <- app_assoc. }
      { simpl. intros Hx. subst k. simpl in Hk. rewrite Hx in Hk. lia. }
      simpl. split.
      * intros (Hs & Hr & Hl). split; [lia|done].
      * intros (Hs & Hr & Hl). split; [|done].
        destruct (decide (s = length sn)) as [->|]; [exfalso|lia].
        destruct Hr as (_ & Hdig & _).
        assert (3 ≤ k); [|lia]. subst k. apply (run_length_ge sn).
        intros i Hi. subst t. apply Hdig. lia.
Qed.

Lemma number_spans_runs (line : str) (s e : nat) :
  (s, e) ∈ Re.span <$> Re.finditer Numbered.number_pattern line
  ↔ digit_run line s e ∧ 3 ≤ e - s.
Proof.
  rewrite finditer_spans.
  rewrite (scan_number_runs line (length line) [] line); [|done|done|done].
  simpl. split; [by intros (_ & ? & ?)|]. intros [??]. split; [lia|done].
Qed.

Lemma scan_number_nil (t : str) (n : nat) :
  ∀ sn ah, length ah ≤ n → t = reverse sn ++ ah →
    Re.scan Numbered.number_pattern sn ah 0 = [] →
    ∀ i, length sn ≤ i →
      ¬ (digit_at t i = true ∧ digit_at t (i + 1) = true ∧ digit_at t (i + 2) = true).
Proof.
  induction n as [|n IH]; intros sn ah Hlen Ht Hnil i Hi (H0 & H1 & H2).
  - destruct ah; simpl in Hlen; [|lia]. subst t.
    replace i with (length sn + (i - length sn)) in H0 by lia.
    by rewrite digit_at_ahead in H0.
  - destruct ah as [|x a].
    { subst t. replace i with (length sn + (i - length sn)) in H0 by lia.
      by rewrite digit_at_ahead in H0. }
    simpl in Hlen.
    pose proof (match_number sn (x :: a)) as Hm.
    set (k := run_length Char.is_digit (x :: a)) in *.
    destruct (3 <=? k) eqn:Hk.
    + apply Nat.leb_le in Hk.
      pose proof (run_length_le Char.is_digit (x :: a)) as Hkl. fold k in Hkl.
      rewrite (scan_hit _ _ _ k) in Hnil by (done || lia). done.
    + apply Nat.leb_gt in Hk. rewrite scan_miss in Hnil by done.
      destruct (decide (i = length sn)) as [->|Hne].
      * assert (3 ≤ k); [|lia]. subst k. apply (run_length_ge sn).
        intros j Hj. subst t.
        destruct j as [|[|[|j]]]; [by rewrite Nat.add_0_r|done|done|lia].
      * apply (IH (x :: sn) a ltac:(lia)
                 ltac:(by rewrite Ht, reverse_cons, <- app_assoc) Hnil i);
          [simpl; lia|done].
Qed.

Lemma number_spans_nonempty (line : str) :
  Re.span <$> Re.finditer Numbered.number_pattern line ≠ [] ↔ has_three_digits line.
Proof.
  split.
  - intros Hne.
    destruct (Re.span <$> Re.finditer Numbered.number_pattern line)
      as [|[s e] l] eqn:E; [done|].
    assert ((s, e) ∈ Re.span <$> Re.finditer Numbered.number_pattern line) as Hin.
    { rewrite E. left. }
    apply number_spans_runs in Hin as ((_ & Hdig & _) & Hl).
    exists s. split; [|split]; apply Hdig; lia.
  - intros [i Hi] Hnil. rewrite finditer_spans in Hnil.
    by apply (scan_number_nil line (length line) [] line
                ltac:(done) ltac:(done) Hnil i ltac:(simpl; lia)).
Qed.

Lemma find_loop_spec (lines : list str) :
  ∀ i0 idx line spans,
    (idx, line, spans) ∈ Numbered.find_loop i0 lines
    ↔ ∃ j, idx = i0 + j ∧ lines !! j = Some line
           ∧ spans = Re.span <$> Re.finditer Numbered.number_pattern line
           ∧ spans ≠ [].
Proof.
  induction lines as [|l lines IH]; intros i0 idx line spans; simpl.
  - split; [by intros ?%elem_of_nil|]. by intros (j & _ & ? & _).
  - assert (Hrest : (idx, line, spans) ∈ Numbered.find_loop (S i0) lines
             ↔ ∃ j, idx = i0 + S j ∧ lines !! j = Some line
                  ∧ spans = Re.span <$> Re.finditer Numbered.number_pattern line
                  ∧ spans ≠ []).
    { rewrite IH. split; intros (j & -> & ?); exists j; (split; [lia|done]). }
    destruct (Re.span <$> Re.finditer Numbered.number_pattern l) as [|sp sps] eqn:E.
    + rewrite Hrest. split.
      * intros (j & -> & ?). exists (S j). done.
      * intros ([|j] & -> & Hl & Hs & Hne); [|by exists j].
        simpl in Hl. injection Hl as ->. congruence.
    + rewrite elem_of_cons, Hrest. split.
      * intros [[= -> -> ->]|(j & -> & ?)].
        -- exists 0. rewrite Nat.add_0_r. simpl. by rewrite E.
        -- by exists (S j).
      * intros ([|j] & -> & Hl & Hs & Hne).
        -- left. simpl in Hl. injection Hl as ->. rewrite Nat.add_0_r.
           by rewrite Hs, E.
        -- right. by exists j.
Qed.

Lemma edit_lines_length (edits : list (nat * str)) :
  ∀ lines, length (Numbered.edit_lines edits lines) = length lines.
Proof.
  unfold Numbered.edit_lines.
  induction edits as [|e edits IH]; intros lines; simpl; [done|].
  by rewrite IH, length_insert.
Qed.

Lemma edit_lines_other (edits : list (nat * str)) (i : nat) :
  i ∉ edits.*1 →
  ∀ lines, Numbered.edit_lines edits lines !! i = lines !! i.
Proof.
  unfold Numbered.edit_lines.
  induction edits as [|[k v] edits IH]; intros Hi lines; simpl; [done|].
  rewrite fmap_cons, not_elem_of_cons in Hi. destruct Hi as [Hne Hi].
  rewrite IH by done. by rewrite list_lookup_insert_ne.
Qed.

Lemma edit_lines_key (edits : list (nat * str)) (i : nat) (r : str) :
  NoDup edits.*1 → (i, r) ∈ edits →
  ∀ lines, i < length lines → Numbered.edit_lines edits lines !! i = Some r.
Proof.
  induction edits as [|[k v] edits IH]; intros Hnd Hin lines Hlt.
  - by apply elem_of_nil in Hin.
  - rewrite fmap_cons in Hnd. apply NoDup_cons in Hnd as [Hk Hnd].
    apply elem_of_cons in Hin as [[= <- <-]|Hin].
    + change (Numbered.edit_lines ((i, r) :: edits) lines)
        with (Numbered.edit_lines edits (<[i:=r]> lines)).
      rewrite edit_lines_other by done. by rewrite list_lookup_insert_eq.
    + change (Numbered.edit_lines ((k, v) :: edits) lines)
        with (Numbered.edit_lines edits (<[k:=v]> lines)).
      apply IH; [done|done|]. by rewrite length_insert.
Qed.

(** Claim C8.  [find_numbered_lines] returns exactly the lines of the
    text (with their index in [splitlines]) that contain three digits in
    a row, each with the spans found by [\d{3,}], and these spans are
    exactly the maximal runs of digits that are at least three long.
    [apply_edits] leaves the context alone when there are no edits;
    otherwise the new text is the lines joined by newlines, where a line
    whose number is a key of the edits is replaced by its edit and every
    other line is unchanged.  On the three example lines only line 1
    qualifies, with the span (9, 13) of "1234", and editing it changes
    that line only. *)
Theorem numbered_lines_detect_and_frame (t : str) (p : Numbered.processor)
    (ctx : BookfixContext) :
  (∀ idx line spans,
     (idx, line, spans) ∈ Numbered.find_numbered_lines t
     ↔ splitlines t !! idx = Some line
       ∧ has_three_digits line
       ∧ spans = Re.span <$> Re.finditer Numbered.number_pattern line)
  ∧ (∀ line s e,
       (s, e) ∈ Re.span <$> Re.finditer Numbered.number_pattern line
       ↔ digit_run line s e ∧ 3 ≤ e - s)
  ∧ (Numbered.numbered_edits p = ∅ → Numbered.apply_edits p ctx = ctx)
  ∧ (Numbered.numbered_edits p ≠ ∅ →
     ∃ lines',
       text (Numbered.apply_edits p ctx) = join nl lines'
       ∧ length lines' = length (splitlines (text ctx))
       ∧ ∀ i,
           (Numbered.numbered_edits p !! i = None →
              lines' !! i = splitlines (text ctx) !! i)
           ∧ (∀ r, Numbered.numbered_edits p !! i = Some r →
                i < length (splitlines (text ctx)) → lines' !! i = Some r))
  ∧ (Numbered.find_numbered_lines numbered_doc
       = [(1, py "see page 1234 now", [(9, 13)])]
     ∧ slice (py "see page 1234 now") 9 13 = py "1234"
     ∧ let ctx0 := set_text numbered_doc empty_ctx in
       let p1 := (Numbered.save_and_next numbered_edit
                    (Numbered.start_numbered_line_edit ctx0).1).1 in
       text (Numbered.apply_edits p1 ctx0)
         = join nl [py "no numbers here"; numbered_edit; py "another 56 small"]).
Proof.
  split; [|split; [|split; [|split]]].
  - intros idx line spans. unfold Numbered.find_numbered_lines.
    rewrite find_loop_spec. split.
    + intros (j & -> & Hl & -> & Hne). simpl.
      split; [done|]. split; [|done]. by apply number_spans_nonempty.
    + intros (Hl & H3 & ->). exists idx. split; [done|].
      split; [done|]. split; [done|]. by apply number_spans_nonempty.
  - apply number_spans_runs.
  - intros Hemp. unfold Numbered.apply_edits. by rewrite Hemp, map_to_list_empty.
  - intros Hne. unfold Numbered.apply_edits.
    destruct (map_to_list (Numbered.numbered_edits p)) as [|e es] eqn:E.
    { by apply map_to_list_empty_iff in E. }
    rewrite <- E. clear e es E.
    exists (Numbered.edit_lines (map_to_list (Numbered.numbered_edits p))
              (splitlines (text ctx))).
    split; [done|]. split; [apply edit_lines_length|].
    intros i. split.
    + intros Hnone. apply edit_lines_other.
      intros ((k & v) & -> & Hin%elem_of_map_to_list)%list_elem_of_fmap.
      simpl in Hnone. congruence.
    + intros r Hr Hlt. apply edit_lines_key; [|by apply elem_of_map_to_list|done].
      apply NoDup_fst_map_to_list.
  - split; [by vm_compute|]. split; [by vm_compute|]. by vm_compute.
Qed.

Lemma numbered_lines_detect_and_frame_witness :
  Numbered.numbered_edits (Numbered.Processor [] 0 {[1 := numbered_edit]}) ≠ ∅
  ∧ ∃ lines',
      text (Numbered.apply_edits (Numbered.Processor [] 0 {[1 := numbered_edit]})
              (set_text numbered_doc empty_ctx)) = join nl lines'
      ∧ lines' !! 0 = Some (py "no numbers here")
      ∧ lines' !! 1 = Some numbered_edit.
Proof.
  assert (Hne : Numbered.numbered_edits
                  (Numbered.Processor [] 0 {[1 := numbered_edit]}) ≠ ∅).
  { simpl. apply insert_non_empty. }
  split; [exact Hne|].
  destruct (numbered_lines_detect_and_frame []
              (Numbered.Processor [] 0 {[1 := numbered_edit]})
              (set_text numbered_doc empty_ctx)) as (_ & _ & _ & Hframe & _).
  destruct (Hframe Hne) as (lines' & Htext & Hlen & Hlines).
  exists lines'. split; [exact Htext|]. split.
  - destruct (Hlines 0) as [H0 _]. rewrite H0; reflexivity.
  - destruct (Hlines 1) as [_ H1]. apply H1; [reflexivity|]. vm_compute. lia.
Defined.

(** ** Roman numerals *)

Lemma elem_of_all_ascii (c : ascii) : c ∈ all_ascii.
Proof.
  unfold all_ascii. apply list_elem_of_fmap. exists (nat_of_ascii c).
  split; [by rewrite ascii_nat_embedding|].
  apply elem_of_seq. pose proof (nat_ascii_bounded c). lia.
Qed.

Lemma elem_of_chars (p : ascii → bool) (c : ascii) : c ∈ chars p ↔ p c = true.
Proof.
  unfold chars. rewrite list_elem_of_filter.
  split; [by intros [??]|]. intros ?. split; [done|apply elem_of_all_ascii].
Qed.

Lemma lit_exact (A : Type) (s : str) :
  ∀ sn ah (k : Re.cursor → option A),
    Re.lit false s sn ah k =
      if decide (take (length s) ah = s)
      then k (Re.Cursor (reverse s ++ sn) (drop (length s) ah))
      else None.
Proof.
  induction s as [|x s IH]; intros sn ah k.
  - cbn [Re.lit length]. rewrite take_0, drop_0. by rewrite decide_True.
  - cbn [Re.lit length]. destruct ah as [|y a].
    + rewrite take_nil. by rewrite decide_False.
    + rewrite firstn_cons, skipn_cons. unfold Re.eqc. case_bool_decide as Hxy.
      * subst y. rewrite IH. destruct (decide (take (length s) a = s)) as [Hs|Hs].
        -- rewrite decide_True by (by rewrite Hs).
           by rewrite reverse_cons, <- app_assoc.
        -- rewrite decide_False; [done|]. by intros [= ?].
      * rewrite decide_False; [done|]. by intros [= ? ?].
Qed.

Lemma rep_bounded_lang (A : Type) (p : ascii → bool) (hi : nat) :
  ∀ lo sn ah (k : Re.cursor → option A),
    is_Some (Re.rep p lo (Some hi) sn ah k)
    ↔ ∃ w rest, w ∈ rep_lang (chars p) lo hi ∧ ah = w ++ rest
                ∧ is_Some (k (Re.Cursor (reverse w ++ sn) rest)).
Proof.
  assert (Hstop : ∀ lo sn ah (k : Re.cursor → option A),
    is_Some (match lo with 0 => k (Re.Cursor sn ah) | S _ => None end)
    ↔ ∃ w rest, w ∈ (match lo with 0 => [[]] | S _ => [] end : list str)
                ∧ ah = w ++ rest ∧ is_Some (k (Re.Cursor (reverse w ++ sn) rest))).
  { intros lo sn ah k. destruct lo.
    - split.
      + intros Hk. exists [], ah. split; [by left|]. by split.
      + intros (w & rest & ->%list_elem_of_singleton & -> & Hk). done.
    - split; [by intros [? ?]|]. by intros (w & rest & ?%elem_of_nil & _). }
  induction hi as [|hi IH]; intros lo sn ah k.
  - assert (Re.rep p lo (Some 0) sn ah k
            = match lo with 0 => k (Re.Cursor sn ah) | S _ => None end) as ->.
    { by destruct ah. }
    apply Hstop.
  - cbn [rep_lang]. setoid_rewrite elem_of_app.
    assert (Hcons : ∀ w, w ∈ (c ← chars p; w' ← rep_lang (chars p) (pred lo) hi; [c :: w'])
              ↔ ∃ c w', w = c :: w' ∧ p c = true ∧ w' ∈ rep_lang (chars p) (pred lo) hi).
    { intros w. rewrite list_elem_of_bind. split.
      - intros (c & (w' & ->%list_elem_of_singleton & Hw')%list_elem_of_bind
                  & Hc%elem_of_chars). eauto.
      - intros (c & w' & -> & Hc & Hw'). exists c. split; [|by apply elem_of_chars].
        apply list_elem_of_bind. exists w'. split; [by left|done]. }
    destruct ah as [|x a].
    + assert (Re.rep p lo (Some (S hi)) sn [] k
              = match lo with 0 => k (Re.Cursor sn []) | S _ => None end) as ->.
      { done. }
      rewrite Hstop. split.
      * intros (w & rest & ? & ? & ?). exists w, rest. auto.
      * intros (w & rest & [Hw|Hw] & Happ & Hk); [|by exists w, rest].
        apply Hcons in Hw as (c & w' & -> & _). done.
    + cbn [Re.rep]. destruct (p x) eqn:Hx.
      * change (pred <$> Some (S hi)) with (Some hi).
        destruct (Re.rep p (pred lo) (Some hi) (x :: sn) a k) as [res|] eqn:Hrec.
        -- split; [|by eauto]. intros _.
           assert (is_Some (Re.rep p (pred lo) (Some hi) (x :: sn) a k)) as Hs
             by (by rewrite Hrec).
           apply IH in Hs as (w & rest & Hw & -> & Hk).
           exists (x :: w), rest. split; [left; apply Hcons; eauto|].
           split; [done|]. by rewrite reverse_cons, <- app_assoc.
        -- rewrite Hstop. split.
           ++ intros (w & rest & ? & ? & ?). exists w, rest. auto.
           ++ intros (w & rest & [Hw|Hw] & Happ & Hk); [|by exists w, rest].
              apply Hcons in Hw as (c & w' & -> & _ & Hw').
              injection Happ as <- ->.
              assert (is_Some (Re.rep p (pred lo) (Some hi) (x :: sn) (w' ++ rest) k)) as Hs.
              { apply IH. exists w', rest. split; [done|]. split; [done|].
                by rewrite reverse_cons, <- app_assoc in Hk. }
              rewrite Hrec in Hs. by destruct Hs.
      * rewrite Hstop. split.
        -- intros (w & rest & ? & ? & ?). exists w, rest. auto.
        -- intros (w & rest & [Hw|Hw] & Happ & Hk); [|by exists w, rest].
           apply Hcons in Hw as (c & w' & -> & Hc & _).
           injection Happ as <- _. congruence.
Qed.

Lemma run_lang (A : Type) (r : Re.regex) :
  finite r = true →
  ∀ c (k : Re.cursor → option A),
    is_Some (Re.run r c k)
    ↔ ∃ w rest, w ∈ lang r ∧ Re.ahead c = w ++ rest
                ∧ is_Some (k (Re.Cursor (reverse w ++ Re.seen c) rest)).
Proof.
  induction r as [|icase s|p|p lo hi|r1 IH1 r2 IH2|r1 IH1 r2 IH2| | | | |];
    intros Hfin c k; try done.
  - destruct c as [sn ah]. cbn [Re.run lang Re.seen Re.ahead]. split.
    + intros Hk. exists [], ah. split; [by left|]. by split.
    + intros (w & rest & ->%list_elem_of_singleton & -> & Hk). done.
  - destruct icase; [done|]. cbn [Re.run lang]. rewrite lit_exact. split.
    + destruct (decide (take (length s) (Re.ahead c) = s)) as [Hs|Hs]; [|by intros [? ?]].
      intros Hk. exists s, (drop (length s) (Re.ahead c)).
      split; [by left|]. split; [|done]. by rewrite <- Hs at 1; rewrite take_drop.
    + intros (w & rest & ->%list_elem_of_singleton & Happ & Hk).
      rewrite Happ, take_app_length, decide_True by done.
      by rewrite drop_app_length.
  - cbn [Re.run lang]. split.
    + destruct (Re.ahead c) as [|x a]; [by intros [? ?]|].
      destruct (p x) eqn:Hx; [|by intros [? ?]].
      intros Hk. exists [x], a. split; [|done].
      apply list_elem_of_fmap. exists x. split; [done|]. by apply elem_of_chars.
    + intros (w & rest & (x & -> & Hx%elem_of_chars)%list_elem_of_fmap & -> & Hk).
      simpl. by rewrite Hx.
  - destruct hi as [hi|]; [|done]. cbn [Re.run lang]. apply rep_bounded_lang.
  - cbn [finite] in Hfin. apply andb_true_iff in Hfin as [Hf1 Hf2].
    cbn [Re.run lang]. rewrite (IH1 Hf1). split.
    + intros (w1 & rest1 & Hw1 & Happ1 & Hk).
      apply (IH2 Hf2) in Hk as (w2 & rest & Hw2 & Happ2 & Hk).
      cbn [Re.seen Re.ahead] in *. subst rest1.
      exists (w1 ++ w2), rest. split.
      { apply list_elem_of_bind. exists w1. split; [|done].
        apply list_elem_of_bind. exists w2. split; [by left|done]. }
      split; [by rewrite <- app_assoc|].
      by rewrite reverse_app, <- app_assoc.
    + intros (w & rest & (w1 & (w2 & ->%list_elem_of_singleton & Hw2)%list_elem_of_bind
                             & Hw1)%list_elem_of_bind & Happ & Hk).
      exists w1, (w2 ++ rest). split; [done|]. split; [by rewrite app_assoc|].
      apply (IH2 Hf2). exists w2, rest. cbn [Re.seen Re.ahead].
      split; [done|]. split; [done|].
      by rewrite reverse_app, <- app_assoc in Hk.
  - cbn [finite] in Hfin. apply andb_true_iff in Hfin as [Hf1 Hf2].
    cbn [Re.run lang]. setoid_rewrite elem_of_app.
    destruct (Re.run r1 c k) as [res|] eqn:H1.
    + split; [|by eauto]. intros _.
      assert (is_Some (Re.run r1 c k)) as Hs by (by rewrite H1).
      apply (IH1 Hf1) in Hs as (w & rest & ? & ? & ?). exists w, rest. auto.
    + rewrite (IH2 Hf2). split.
      * intros (w & rest & ? & ? & ?). exists w, rest. auto.
      * intros (w & rest & [Hw|Hw] & Happ & Hk); [|by exists w, rest].
        assert (is_Some (Re.run r1 c k)) as Hs.
        { apply (IH1 Hf1). by exists w, rest. }
        rewrite H1 in Hs. by destruct Hs.
Qed.

(** The validator accepts exactly the strings of the numeral language. *)
Lemma fullmatch_validator (s : str) :
  Re.fullmatch Roman.validator s = true ↔ s ∈ lang Roman.numeral.
Proof.
  unfold Re.fullmatch, Roman.validator. rewrite bool_decide_eq_true.
  cbn [Re.run Re.seen]. rewrite (run_lang _ Roman.numeral eq_refl).
  cbn [Re.seen Re.ahead]. split.
  - intros (w & rest & Hw & -> & Hk). cbn [Re.run Re.ahead] in Hk.
    destruct rest as [|x [|y rest]].
    + by rewrite app_nil_r.
    + case_bool_decide; by destruct Hk.
    + by destruct Hk.
  - intros Hs. exists s, []. split; [done|]. split; [by rewrite app_nil_r|].
    cbn [Re.run Re.ahead]. done.
Qed.

Lemma numeral_language_checked : forallb numeral_checked (lang Roman.numeral) = true.
Proof. vm_compute. reflexivity. Qed.

Lemma standard_numerals_accepted :
  forallb (λ n, Re.fullmatch Roman.validator (Roman.to_roman n)) (seq 1 3999) = true.
Proof. vm_compute. reflexivity. Qed.

Lemma numeral_value (w : str) :
  w ∈ lang Roman.numeral → w ≠ [] →
  ∃ n, 1 ≤ n ≤ 3999 ∧ w = Roman.to_roman n
       ∧ Roman.subtractive (reverse w) 0 0 = Some (Z.of_nat n).
Proof.
  intros Hw Hne.
  pose proof numeral_language_checked as Hall.
  rewrite forallb_forall in Hall. apply list_elem_of_In, Hall in Hw.
  unfold numeral_checked in Hw. apply orb_true_iff in Hw as [Hw|Hw].
  { by apply bool_decide_eq_true in Hw. }
  destruct (Roman.subtractive (reverse w) 0 0) as [v|]; [|done].
  apply andb_true_iff in Hw as [Hw Hrom]. apply andb_true_iff in Hw as [Hlo Hhi].
  apply Z.leb_le in Hlo, Hhi. apply bool_decide_eq_true in Hrom.
  exists (Z.to_nat v). split; [lia|]. split; [done|]. f_equal. lia.
Qed.

Lemma roman_to_arabic_total (s : str) : Roman.roman_to_arabic s ≠ Roman.Raises.
Proof.
  unfold Roman.roman_to_arabic.
  destruct (decide (upper s = py "I")) as [|HI]; [done|].
  destruct (Re.fullmatch Roman.validator (upper s)) eqn:Hm; [|done].
  cbn [negb]. apply fullmatch_validator in Hm.
  destruct (decide (upper s = [])) as [->|Hne]; [done|].
  destruct (numeral_value _ Hm Hne) as (k & _ & _ & ->). done.
Qed.

(** Claim C4.  For every string whose upper-case form is a non-empty
    word of the subtractive grammar other than "I", [roman_to_arabic]
    returns the number between 1 and 3999 whose standard numeral that
    form is; every standard numeral is accepted by the validator; for
    "I" and for every string the validator rejects, among them "IIII",
    "VX" and "ABC", it returns [None]; and it never raises.  The empty
    string is where the code leaves the claim: the validator accepts
    it, and the function returns 0 for it, not [None]. *)
Theorem roman_to_arabic_values :
  (∀ s, upper s ≠ [] → upper s ≠ py "I" →
        Re.fullmatch Roman.validator (upper s) = true →
        ∃ n, 1 ≤ n ≤ 3999 ∧ upper s = Roman.to_roman n
             ∧ Roman.roman_to_arabic s = Roman.Returns (Some (Z.of_nat n)))
  ∧ (∀ n, 1 ≤ n ≤ 3999 → Re.fullmatch Roman.validator (Roman.to_roman n) = true)
  ∧ (∀ s, upper s = py "I" ∨ Re.fullmatch Roman.validator (upper s) = false →
          Roman.roman_to_arabic s = Roman.Returns None)
  ∧ (∀ s, Roman.roman_to_arabic s ≠ Roman.Raises)
  ∧ Roman.roman_to_arabic (py "IIII") = Roman.Returns None
  ∧ Roman.roman_to_arabic (py "VX") = Roman.Returns None
  ∧ Roman.roman_to_arabic (py "ABC") = Roman.Returns None
  ∧ Re.fullmatch Roman.validator [] = true
  ∧ Roman.roman_to_arabic [] = Roman.Returns (Some 0%Z).
Proof.
  split; [|split; [|split; [|split]]].
  - intros s Hne HI Hm. unfold Roman.roman_to_arabic.
    rewrite decide_False by done. rewrite Hm. cbn [negb].
    apply fullmatch_validator in Hm.
    destruct (numeral_value _ Hm Hne) as (n & Hn & Hw & Hv).
    exists n. split; [done|]. split; [done|]. by rewrite Hv.
  - intros n Hn. pose proof standard_numerals_accepted as Hall.
    rewrite forallb_forall in Hall. apply Hall, in_seq. lia.
  - intros s [HI|Hm]; unfold Roman.roman_to_arabic.
    + by rewrite decide_True.
    + destruct (decide (upper s = py "I")); [done|]. by rewrite Hm.
  - apply roman_to_arabic_total.
  - repeat split; by vm_compute.
Qed.

Lemma roman_to_arabic_values_witness :
  upper (py "mcmxciv") ≠ [] ∧ upper (py "mcmxciv") ≠ py "I"
  ∧ Re.fullmatch Roman.validator (upper (py "mcmxciv")) = true
  ∧ ∃ n, 1 ≤ n ≤ 3999 ∧ upper (py "mcmxciv") = Roman.to_roman n
         ∧ Roman.roman_to_arabic (py "mcmxciv") = Roman.Returns (Some (Z.of_nat n)).
Proof.
  assert (H1 : upper (py "mcmxciv") ≠ []) by (by vm_compute).
  assert (H2 : upper (py "mcmxciv") ≠ py "I") by (by vm_compute).
  assert (H3 : Re.fullmatch Roman.validator (upper (py "mcmxciv")) = true)
    by (by vm_compute).
  split; [exact H1|]. split; [exact H2|]. split; [exact H3|].
  destruct roman_to_arabic_values as [Hval _].
  exact (Hval (py "mcmxciv") H1 H2 H3).
Defined.

Lemma replace_total (ctx : BookfixContext) (m : Re.rmatch) :
  is_Some (Roman.replace ctx m).
Proof.
  unfold Roman.replace. case_decide; [done|].
  pose proof (roman_to_arabic_total (Re.group0 m)) as Hno.
  destruct (Roman.roman_to_arabic (Re.group0 m)) as [[v|]|]; [|done|done].
  by destruct (v >? 0)%Z.
Qed.

(** What [_replace] returns for a match, case by case. *)
Lemma replace_policy (ctx : BookfixContext) (m : Re.rmatch) (r : str)
    (l : option Roman.conversion) :
  Roman.replace ctx m = Some (r, l) →
  (upper (Re.group0 m) ∈ roman_ignore_set ctx → r = Re.group0 m)
  ∧ (upper (Re.group0 m) ∉ roman_ignore_set ctx →
     ∀ v, Roman.roman_to_arabic (Re.group0 m) = Roman.Returns (Some v) →
          (0 < v)%Z → r = str_of_nat (Z.to_nat v))
  ∧ (upper (Re.group0 m) ∉ roman_ignore_set ctx →
     Roman.roman_to_arabic (Re.group0 m) = Roman.Returns None →
     r = Re.group0 m).
Proof.
  unfold Roman.replace. intros H. split; [|split].
  - intros Hin. rewrite decide_True in H by done. by injection H as <- _.
  - intros Hnot v Hv Hpos. rewrite decide_False, Hv in H by done.
    assert ((v >? 0)%Z = true) as Hgt by lia. rewrite Hgt in H.
    by injection H as <- _.
  - intros Hnot Hv. rewrite decide_False, Hv in H by done. by injection H as <- _.
Qed.

(** Claim C9.  [convert_roman_numerals] never raises.  Its result is
    the input with the matches [ms] of the detection pattern replaced,
    one by one, by the strings [rs], the text between the matches being
    copied (putting every token back in place of its replacement gives
    the input again).  The replacement of a token whose upper-case form
    is in [roman_ignore_set] is the token; otherwise it is the decimal
    string of the value when the conversion returns a positive integer,
    and the token when the conversion returns [None].  So when every
    matched token is ignored or fails to convert, the text is
    unchanged. *)
Theorem convert_roman_numerals_policy (ctx : BookfixContext) :
  let ms := Re.finditer Roman.roman_pattern (text ctx) in
  ∃ out rs,
    Roman.convert_roman_numerals ctx = Some out
    ∧ length rs = length ms
    ∧ text (Roman.conv_ctx out) = Re.rebuild_with (text ctx) 0 (zip ms rs)
    ∧ text ctx = Re.rebuild_with (text ctx) 0 (zip ms (Re.group0 <$> ms))
    ∧ (∀ i m r, ms !! i = Some m → rs !! i = Some r →
         (upper (Re.group0 m) ∈ roman_ignore_set ctx → r = Re.group0 m)
         ∧ (upper (Re.group0 m) ∉ roman_ignore_set ctx →
            ∀ v, Roman.roman_to_arabic (Re.group0 m) = Roman.Returns (Some v) →
                 (0 < v)%Z → r = str_of_nat (Z.to_nat v))
         ∧ (upper (Re.group0 m) ∉ roman_ignore_set ctx →
            Roman.roman_to_arabic (Re.group0 m) = Roman.Returns None →
            r = Re.group0 m))
    ∧ ((∀ m, m ∈ ms →
          upper (Re.group0 m) ∈ roman_ignore_set ctx
          ∨ Roman.roman_to_arabic (Re.group0 m) = Roman.Returns None) →
       text (Roman.conv_ctx out) = text ctx).
Proof.
  intros ms.
  assert (Hid : text ctx = Re.rebuild_with (text ctx) 0 (zip ms (Re.group0 <$> ms))).
  { symmetry. rewrite rebuild_with_id; [done| |].
    - rewrite zip_fst_spans by (by rewrite length_fmap). apply finditer_chained.
    - apply Forall_forall. intros [m r] Hin. cbn.
      pose proof (elem_of_zip_l _ _ _ _ Hin) as Hm.
      apply list_elem_of_lookup in Hin as [i Hi].
      apply lookup_zip_with_Some in Hi as (m' & r' & [= <- <-] & Hmi & Hri).
      rewrite list_lookup_fmap, Hmi in Hri. injection Hri as <-.
      by apply (finditer_group0 Roman.roman_pattern). }
  destruct (mapM (Roman.replace ctx) ms) as [decided|] eqn:Hmap; cycle 1.
  { exfalso. assert (is_Some (mapM (Roman.replace ctx) ms)) as [? Hs]; [|congruence].
    apply mapM_is_Some, Forall_forall. intros m _. apply replace_total. }
  apply mapM_Some in Hmap.
  eexists _, (fst <$> decided). split.
  { unfold Roman.convert_roman_numerals. fold ms.
    apply mapM_Some in Hmap. rewrite Hmap. reflexivity. }
  assert (Hlen : length (fst <$> decided) = length ms).
  { rewrite length_fmap. symmetry. by eapply Forall2_length. }
  assert (Hpol : ∀ i m r, ms !! i = Some m → (fst <$> decided) !! i = Some r →
            ∃ l, Roman.replace ctx m = Some (r, l)).
  { intros i m r Hm Hr. rewrite list_lookup_fmap in Hr.
    destruct (decided !! i) as [[r' l]|] eqn:Hd; [|done]. injection Hr as <-.
    exists l. by apply (Forall2_lookup_lr _ _ _ _ _ _ Hmap Hm Hd). }
  split; [done|]. split; [done|]. split; [done|]. split.
  - intros i m r Hm Hr. destruct (Hpol i m r Hm Hr) as [l Hl].
    by apply (replace_policy ctx m r l).
  - intros Hnone. cbn [Roman.conv_ctx text log_change set_text].
    rewrite Hid at 2. f_equal. f_equal.
    apply list_eq_same_length with (length ms); [by rewrite length_fmap|done|].
    intros i r r' Hi Hr Hr'. rewrite list_lookup_fmap in Hr'.
    destruct (ms !! i) as [m|] eqn:Hm; [|done]. injection Hr' as <-.
    destruct (Hpol i m r Hm Hr) as [l Hl].
    destruct (replace_policy ctx m r l Hl) as (Hign & _ & Hfail).
    destruct (Hnone m ltac:(by eapply list_elem_of_lookup_2)) as [Hin|Hv]; [by apply Hign|].
    destruct (decide (upper (Re.group0 m) ∈ roman_ignore_set ctx)); [by apply Hign|].
    by apply Hfail.
Qed.

(** The context of the example: one numeral, nothing ignored. *)
Lemma convert_roman_numerals_policy_witness :
  ∃ out, Roman.convert_roman_numerals (set_text (py "Chapter IV") empty_ctx) = Some out
         ∧ text (Roman.conv_ctx out) = py "Chapter 4".
Proof.
  destruct (convert_roman_numerals_policy (set_text (py "Chapter IV") empty_ctx))
    as (out & rs & Hconv & Hlen & Htext & _ & Hpol & _).
  exists out. split; [exact Hconv|].
  destruct rs as [|r [|r' rs]]; [discriminate Hlen| |discriminate Hlen].
  destruct (Hpol 0 (Re.Match 8 10 (py "IV")) r eq_refl eq_refl) as (_ & Hval & _).
  rewrite Htext, (Hval ltac:(vm_compute; set_solver) 4%Z eq_refl ltac:(lia)).
  reflexivity.
Defined.

Lemma convert_roman_numerals_example :
  let ctx := Ctx (py "Chapter IV of Ph.D. thesis, vol. XII, a CD, R&D, I am, IIII, MIX")
               None [] [] ∅ ∅ ∅ {[ py "CD" ]} None [] in
  (λ out, text (Roman.conv_ctx out)) <$> Roman.convert_roman_numerals ctx
    = Some (py "Chapter 4 of Ph.D. thesis, vol. 12, a CD, R&D, I am, IIII, 1009").
Proof. by vm_compute. Qed.

(** ** The data file: loading *)

Lemma reset_after_error_fields (ctx : BookfixContext) :
  let r := Datafile.reset_after_error ctx in
  choices r = [] ∧ replacements r = [] ∧ periods r = ∅ ∧ ignore_set r = ∅
  ∧ lowercase_set r = ∅ ∧ default_file_directory r = None
  ∧ roman_ignore_set r = roman_ignore_set ctx.
Proof. by repeat split. Qed.

Lemma reset_data_fields (ctx : BookfixContext) :
  let r := Datafile.reset_data ctx in
  choices r = [] ∧ replacements r = [] ∧ periods r = ∅ ∧ ignore_set r = ∅
  ∧ lowercase_set r = ∅ ∧ default_file_directory r = None
  ∧ roman_ignore_set r = ∅.
Proof. by repeat split. Qed.

(** Property X4 (claim C6).  [load_data_file] is a total function: whatever the file
    system answers, it returns a context.  Whenever the load fails (the
    file is missing, [open]/[readlines] raises, or a line raises while
    it is parsed), [choices], [replacements], [periods], [ignore_set]
    and [lowercase_set] of the result are empty and
    [default_file_directory] is unset; [roman_ignore_set] is empty when
    the file is missing or cannot be read.  It is not empty in general:
    the [except] block does not reset it, and on [roman_file], whose
    default directory makes [expanduser()] raise after the
    [# ROMAN_IGNORE] section has been read, the context returned has
    [roman_ignore_set = {'IV'}]. *)
Theorem load_data_file_failure (env : Datafile.fs) (ctx : option BookfixContext) :
  Datafile.load_failed env ctx = true →
  let r := Datafile.load_data_file env ctx in
  (choices r = [] ∧ replacements r = [] ∧ periods r = ∅ ∧ ignore_set r = ∅
   ∧ lowercase_set r = ∅ ∧ default_file_directory r = None)
  ∧ (Datafile.data_file env = Datafile.Missing
     ∨ Datafile.data_file env = Datafile.Unreadable → roman_ignore_set r = ∅)
  ∧ (Datafile.load_failed Datafile.roman_env None = true
     ∧ roman_ignore_set (Datafile.load_data_file Datafile.roman_env None)
       = {[ py "IV" ]}).
Proof.
  unfold Datafile.load_failed, Datafile.load_data_file.
  intros Hfail. cbn zeta. split; [|split].
  - destruct (Datafile.data_file env) as [| |lines]; [done..|].
    destruct (Datafile.load_lines env lines None _) as [ctx' raised].
    simpl in Hfail. subst raised. by repeat split.
  - intros [E|E]; rewrite E; done.
  - split; [reflexivity|]. by vm_compute.
Qed.

Lemma load_data_file_failure_witness :
  Datafile.load_failed Datafile.roman_env None = true
  ∧ ignore_set (Datafile.load_data_file Datafile.roman_env None) = ∅.
Proof.
  split; [reflexivity|].
  pose proof (load_data_file_failure Datafile.roman_env None eq_refl) as [H _].
  apply H.
Defined.

(** ** The data file: saving *)

Lemma dict_get_set_eq {K V : Type} `{EqDecision K} (k : K) (v : V)
    (d : list (K * V)) :
  Datafile.dict_get k (Datafile.dict_set k v d) = Some v.
Proof.
  induction d as [|[k' v'] d IH]; cbn.
  - by rewrite decide_True.
  - destruct (decide (k' = k)) as [->|Hne]; cbn.
    + by rewrite decide_True.
    + by rewrite decide_False.
Qed.

Lemma dict_get_set_ne {K V : Type} `{EqDecision K} (k k' : K) (v : V)
    (d : list (K * V)) :
  k ≠ k' →
  Datafile.dict_get k' (Datafile.dict_set k v d) = Datafile.dict_get k' d.
Proof.
  intros Hne. induction d as [|[k1 v1] d IH]; cbn.
  - by rewrite decide_False.
  - destruct (decide (k1 = k)) as [->|Hne1]; cbn.
    + by rewrite !decide_False.
    + destruct (decide (k1 = k')); [done|apply IH].
Qed.

Lemma saved_section_marker (m : str) (sec : Datafile.section) :
  Datafile.saved_section m = Some sec → m ∈ Datafile.ALL_SECTION_MARKERS.
Proof.
  unfold Datafile.saved_section, Datafile.ALL_SECTION_MARKERS.
  repeat (destruct (decide _) as [->|?]; [intros _; set_solver|]). done.
Qed.

Lemma find_sections_behind (lines : list str) :
  ∀ read name start found,
    entries_behind read name found → start_behind read name start →
    ∃ f n s,
      Datafile.find_sections (length read) lines name start found = (f, n, s)
      ∧ entries_behind (read ++ lines) n f
      ∧ start_behind (read ++ lines) n s.
Proof.
  induction lines as [|line rest IH]; intros read name start found Hent Hst.
  - exists found, name, start. by rewrite app_nil_r.
  - cbn [Datafile.find_sections].
    replace (read ++ line :: rest) with ((read ++ [line]) ++ rest)
      by (by rewrite <- app_assoc).
    replace (S (length read)) with (length (read ++ [line]))
      by (rewrite length_app; simpl; lia).
    destruct (decide (strip line ∈ Datafile.ALL_SECTION_MARKERS)) as [Hm|Hm].
    + apply IH.
      * intros sec s e Hsec Hget.
        assert (Hline : ∀ k l, [line] !! (k - length read) = Some l →
                  Datafile.saved_section (strip l) = Some sec → k < s).
        { intros k l [_ <-]%list_lookup_singleton_Some Hsav. congruence. }
        destruct name as [nm|]; cbn in Hst, Hget.
        -- destruct Hst as (st & -> & Hle & Hb). cbn in Hget.
           destruct (decide (nm = sec)) as [->|Hne].
           ++ rewrite dict_get_set_eq in Hget. injection Hget as <- <-.
              split; [done|].
              intros k l [Hl|[Hk Hl]]%lookup_app_Some Hsav; [by eapply Hb|].
              by eapply Hline.
           ++ rewrite dict_get_set_ne in Hget by done.
              destruct (Hent sec s e ltac:(congruence) Hget) as [Hle' Hb'].
              split; [done|].
              intros k l [Hl|[Hk Hl]]%lookup_app_Some Hsav; [by eapply Hb'|].
              by eapply Hline.
        -- destruct (Hent sec s e ltac:(done) Hget) as [Hle' Hb'].
           split; [done|].
           intros k l [Hl|[Hk Hl]]%lookup_app_Some Hsav; [by eapply Hb'|].
           by eapply Hline.
      * unfold start_behind.
        destruct (Datafile.saved_section (strip line)) as [nm|]; [|done].
        exists (length (read ++ [line])). split; [done|]. split; [done|].
        intros k l Hk%lookup_lt_Some _. done.
    + apply IH.
      * intros sec s e Hsec Hget. destruct (Hent sec s e Hsec Hget) as [Hle Hb].
        split; [done|].
        intros k l [Hl|[Hk Hl]]%lookup_app_Some Hsav.
        -- by eapply Hb.
        -- apply list_lookup_singleton_Some in Hl as [_ <-].
           by apply saved_section_marker in Hsav.
      * unfold start_behind in *. destruct name as [nm|]; [|done].
        destruct Hst as (st & -> & Hle & Hb). exists st. split; [done|].
        split; [rewrite length_app; lia|].
        intros k l [Hl|[Hk Hl]]%lookup_app_Some Hsav.
        -- by eapply Hb.
        -- apply list_lookup_singleton_Some in Hl as [_ <-].
           by apply saved_section_marker in Hsav.
Qed.

(** Every entry of [section_indices] ends behind the markers of its
    section. *)
Lemma section_indices_behind (lines : list str) :
  entries_behind lines None (Datafile.section_indices lines).
Proof.
  unfold Datafile.section_indices.
  destruct (find_sections_behind lines [] None None []) as (f & n & s & E & Hent & Hst).
  { intros sec s e _. done. }
  { done. }
  cbn [length app] in E, Hent, Hst. rewrite E.
  intros sec s' e _ Hget.
  destruct n as [nm|]; cycle 1.
  { destruct s; by apply (Hent sec). }
  destruct Hst as (st & -> & Hle & Hb).
  destruct (decide (nm = sec)) as [->|Hne].
  - rewrite dict_get_set_eq in Hget. injection Hget as <- <-. done.
  - rewrite dict_get_set_ne in Hget by done. apply (Hent sec); [congruence|done].
Qed.

(** The rewriting loop ends: every jump goes forward. *)
Lemma rewrite_loop_total (lines : list str) (found : Datafile.indices)
    (ic lc : list str) :
  entries_behind lines None found →
  ∀ fuel i acc, length lines - i ≤ fuel →
    is_Some (Datafile.rewrite_loop fuel i lines found ic lc acc).
Proof.
  intros Hent. induction fuel as [|fuel IH]; intros i acc Hfuel.
  - cbn. rewrite lookup_ge_None_2 by lia. by eexists.
  - cbn [Datafile.rewrite_loop].
    destruct (lines !! i) as [line|] eqn:Hline; [|by eexists].
    apply lookup_lt_Some in Hline as Hi.
    destruct (decide (strip line = Datafile.IGNORE_SECTION_MARKER)) as [Hig|Hig].
    + destruct (Datafile.dict_get Datafile.sec_ignore found) as [[s e]|] eqn:Hget.
      * destruct (Hent _ _ _ ltac:(done) Hget) as [Hle Hb].
        specialize (Hb i line Hline ltac:(by rewrite Hig)). apply IH. lia.
      * destruct (decide (strip line = Datafile.LOWERCASE_SECTION_MARKER)) as [Hlc|Hlc].
        { by rewrite Hig in Hlc. }
        apply IH. lia.
    + destruct (decide (strip line = Datafile.LOWERCASE_SECTION_MARKER)) as [Hlc|Hlc].
      * destruct (Datafile.dict_get Datafile.sec_lowercase found) as [[s e]|] eqn:Hget.
        -- destruct (Hent _ _ _ ltac:(done) Hget) as [Hle Hb].
           specialize (Hb i line Hline ltac:(by rewrite Hlc)).
           destruct (Datafile.dict_get Datafile.sec_ignore found) as [[? ?]|];
             apply IH; lia.
        -- destruct (Datafile.dict_get Datafile.sec_ignore found) as [[? ?]|];
             apply IH; lia.
      * destruct (Datafile.dict_get Datafile.sec_ignore found) as [[? ?]|];
          destruct (Datafile.dict_get Datafile.sec_lowercase found) as [[? ?]|];
          apply IH; lia.
Qed.

(** [save_caps_data_file] returns, whatever the file holds. *)
Lemma saved_lines_total (env : Datafile.fs) (ig lc : gset str) :
  is_Some (Datafile.saved_lines env ig lc).
Proof.
  unfold Datafile.saved_lines.
  set (lines := match Datafile.data_file env with
                | Datafile.Lines l => l | _ => [] end).
  destruct (rewrite_loop_total lines (Datafile.section_indices lines)
              (Datafile.content_lines ig) (Datafile.content_lines lc)
              (section_indices_behind lines) (length lines) 0
              (Datafile.Rewritten [] false false) ltac:(lia)) as [r ->].
  by eexists.
Qed.

Lemma save_caps_data_file_total (env : Datafile.fs) (ig lc : gset str) :
  is_Some (Datafile.save_caps_data_file env ig lc).
Proof.
  unfold Datafile.save_caps_data_file.
  destruct (saved_lines_total env ig lc) as [lines ->]. by eexists.
Qed.

(** The loop only adds lines, and a section it has handled has its new
    content among them. *)
Lemma rewrite_loop_keeps (lines : list str) (found : Datafile.indices)
    (ic lc : list str) :
  ∀ fuel i acc r,
    Datafile.rewrite_loop fuel i lines found ic lc acc = Some r →
    (∀ x, x ∈ Datafile.new_lines acc → x ∈ Datafile.new_lines r)
    ∧ (Datafile.ignore_section_handled r = true →
       (Datafile.ignore_section_handled acc = true → ∀ x, x ∈ ic → x ∈ Datafile.new_lines acc) →
       ∀ x, x ∈ ic → x ∈ Datafile.new_lines r)
    ∧ (Datafile.lowercase_section_handled r = true →
       (Datafile.lowercase_section_handled acc = true → ∀ x, x ∈ lc → x ∈ Datafile.new_lines acc) →
       ∀ x, x ∈ lc → x ∈ Datafile.new_lines r).
Proof.
  induction fuel as [|fuel IH]; intros i acc r.
  - cbn. destruct (lines !! i); [done|]. intros [= <-]. by auto.
  - cbn [Datafile.rewrite_loop].
    destruct (lines !! i) as [line|]; [|intros [= <-]; by auto].
    destruct (decide (strip line = Datafile.IGNORE_SECTION_MARKER)) as [Hig|Hig];
      destruct (Datafile.dict_get Datafile.sec_ignore found) as [[s e]|];
      destruct (decide (strip line = Datafile.LOWERCASE_SECTION_MARKER)) as [Hlc|Hlc];
      destruct (Datafile.dict_get Datafile.sec_lowercase found) as [[s' e']|];
      intros Hloop; apply IH in Hloop as (Hsub & Hi & Hl); cbn [Datafile.new_lines
        Datafile.ignore_section_handled Datafile.lowercase_section_handled] in *;
      (split;
       [ intros x Hx; apply Hsub; rewrite ?elem_of_app; auto
       | split;
         [ intros Hr Hacc x Hx; apply Hi; [done| |done]; intros Hh y Hy;
           rewrite ?elem_of_app; auto
         | intros Hr Hacc x Hx; apply Hl; [done| |done]; intros Hh y Hy;
           rewrite ?elem_of_app; auto ] ]).
Qed.

Lemma elem_of_append_section (marker : str) (content lines : list str) (x : str) :
  x ∈ lines ∨ x ∈ content →
  x ∈ Datafile.append_section marker content lines.
Proof.
  unfold Datafile.append_section. rewrite !elem_of_app.
  intros [Hx|Hx]; [|by auto]. left.
  destruct (last lines); [|done]. destruct (decide _); [|done].
  apply elem_of_app. by left.
Qed.

(** What [save_caps_data_file] writes holds a line for every sequence
    of a non-empty [lowercase_set]. *)
Lemma saved_lines_lowercase (env : Datafile.fs) (ig lc : gset str)
    (lines : list str) (x : str) :
  Datafile.saved_lines env ig lc = Some lines →
  x ∈ Datafile.content_lines lc → x ∈ lines.
Proof.
  unfold Datafile.saved_lines. intros Hsaved Hx.
  destruct (Datafile.rewrite_loop _ _ _ _ _ _ _) as [r|] eqn:Hloop; [|done].
  cbn in Hsaved. injection Hsaved as <-.
  apply rewrite_loop_keeps in Hloop as (_ & _ & Hl).
  assert (Hne : lc ≠ ∅).
  { intros ->. unfold Datafile.content_lines, Datafile.sorted_list in Hx.
    apply list_elem_of_fmap in Hx as (y & _ & Hy).
    rewrite merge_sort_Permutation, elements_empty in Hy. by apply elem_of_nil in Hy. }
  destruct (Datafile.lowercase_section_handled r) eqn:Hh; cbn [negb andb].
  - specialize (Hl eq_refl ltac:(done) x Hx).
    destruct (negb _ && _); [|done]. apply elem_of_append_section. by left.
  - rewrite bool_decide_eq_true_2 by done.
    apply elem_of_append_section. by right.
Qed.

Lemma elem_of_content_lines (s : gset str) (x : str) :
  x ∈ s → x ++ nl ∈ Datafile.content_lines s.
Proof.
  intros Hx. unfold Datafile.content_lines, Datafile.sorted_list.
  apply list_elem_of_fmap. exists x. split; [done|].
  rewrite merge_sort_Permutation. by apply elem_of_elements.
Qed.

(** ** The data file: what the rewrite keeps *)

Lemma find_sections_marker (i : nat) (line : str) (rest : list str)
    (name : option Datafile.section) (start : option nat)
    (found : Datafile.indices) :
  Datafile.find_sections i (line :: rest) name start found =
    if is_marker line
    then Datafile.find_sections (S i) rest
           (Datafile.saved_section (strip line)) (Some (S i))
           (close_section name start i found)
    else Datafile.find_sections (S i) rest name start found.
Proof.
  cbn [Datafile.find_sections]. unfold is_marker.
  destruct (decide _) as [H|H].
  - rewrite bool_decide_eq_true_2 by done. by destruct name, start.
  - by rewrite bool_decide_eq_false_2.
Qed.

Lemma section_indices_close (lines : list str) :
  Datafile.section_indices lines =
    let '(f, n, s) := Datafile.find_sections 0 lines None None [] in
    close_section n s (length lines) f.
Proof.
  unfold Datafile.section_indices.
  destruct (Datafile.find_sections 0 lines None None []) as [[f [n|]] [s|]]; done.
Qed.

Section one_marker.

Variables (sec : Datafile.section) (mk : str).
Hypothesis saved_mk : ∀ m, Datafile.saved_section m = Some sec ↔ m = mk.

Lemma mk_is_marker (line : str) : strip line = mk → is_marker line = true.
Proof.
  intros H. apply bool_decide_eq_true_2.
  apply (saved_section_marker _ sec). by apply saved_mk.
Qed.

Lemma close_section_other (name : option Datafile.section) (start : option nat)
    (i : nat) (found : Datafile.indices) :
  name ≠ Some sec →
  Datafile.dict_get sec (close_section name start i found)
  = Datafile.dict_get sec found.
Proof.
  intros Hne. unfold close_section. destruct name as [nm|], start as [st|]; try done.
  apply dict_get_set_ne. congruence.
Qed.

(** Lines without the marker leave the entry of the section alone. *)
Lemma find_sections_free (lines : list str) :
  ∀ i name start found f n s,
    marker_free mk lines → name ≠ Some sec →
    Datafile.find_sections i lines name start found = (f, n, s) →
    Datafile.dict_get sec f = Datafile.dict_get sec found ∧ n ≠ Some sec.
Proof.
  induction lines as [|line rest IH]; intros i name start found f n s Hfree Hne.
  - by intros [= <- <- <-].
  - rewrite find_sections_marker. apply Forall_cons in Hfree as [Hline Hfree].
    destruct (is_marker line).
    + intros Hrest. eapply IH in Hrest as [Hget Hn]; [|done|].
      * by rewrite Hget, close_section_other.
      * intros Hs. by apply saved_mk in Hs.
    + by apply IH.
Qed.

(** An open section is closed where its content ends. *)
Lemma find_sections_open (lines : list str) :
  ∀ i st found f n s,
    marker_free mk lines →
    Datafile.find_sections i lines (Some sec) (Some st) found = (f, n, s) →
    Datafile.dict_get sec (close_section n s (i + length lines) f)
    = Some (st, i + content_end lines).
Proof.
  induction lines as [|line rest IH]; intros i st found f n s Hfree.
  - intros [= <- <- <-]. cbn. by rewrite dict_get_set_eq.
  - rewrite find_sections_marker. apply Forall_cons in Hfree as [Hline Hfree].
    cbn [content_end length]. destruct (is_marker line).
    + intros Hrest. eapply find_sections_free in Hrest as [Hget Hn]; [|done|].
      * rewrite close_section_other by done. rewrite Hget. cbn.
        by rewrite dict_get_set_eq, Nat.add_0_r.
      * intros Hs. by apply saved_mk in Hs.
    + intros Hrest. apply IH in Hrest; [|done].
      by rewrite <- !Nat.add_succ_comm.
Qed.

(** With the marker once among the lines, the entry of the section
    spans the content behind it. *)
Lemma find_sections_once (pre : list str) (m : str) (post : list str) :
  strip m = mk → marker_free mk pre → marker_free mk post →
  ∀ i name start found f n s,
    name ≠ Some sec →
    Datafile.find_sections i (pre ++ m :: post) name start found = (f, n, s) →
    Datafile.dict_get sec (close_section n s (i + length (pre ++ m :: post)) f)
    = Some (i + length pre + 1, i + length pre + 1 + content_end post).
Proof.
  intros Hm Hpre Hpost. induction pre as [|line pre IH];
    intros i name start found f n s Hne.
  - cbn [app length]. rewrite find_sections_marker, (mk_is_marker _ Hm).
    rewrite (proj2 (saved_mk _) Hm). intros Hrest.
    apply find_sections_open in Hrest; [|done].
    rewrite Nat.add_0_r, Nat.add_1_r. by rewrite <- Nat.add_succ_comm.
  - apply Forall_cons in Hpre as [Hline Hpre]. cbn [app length].
    rewrite find_sections_marker.
    replace (i + S (length pre) + 1) with (S i + length pre + 1) by lia.
    replace (i + S (length (pre ++ m :: post)))
      with (S i + length (pre ++ m :: post)) by lia.
    destruct (is_marker line).
    + apply IH; [done|]. intros Hs. by apply saved_mk in Hs.
    + by apply IH.
Qed.

Lemma once_split (lines : list str) :
  marker_once mk lines →
  marker_free mk lines
  ∨ ∃ pre m post, lines = pre ++ m :: post ∧ strip m = mk
                  ∧ marker_free mk pre ∧ marker_free mk post.
Proof.
  unfold marker_once. induction lines as [|line rest IH]; intros Honce.
  - left. constructor.
  - rewrite filter_cons in Honce. destruct (decide (strip line = mk)) as [Hm|Hm].
    + right. exists [], line, rest. split; [done|]. split; [done|].
      split; [constructor|]. simpl in Honce.
      apply Forall_forall. intros l Hl Hlm.
      assert (l ∈ filter (λ l, strip l = mk) rest) as Hin
        by by apply list_elem_of_filter.
      destruct (filter _ rest); [by apply elem_of_nil in Hin|simpl in Honce; lia].
    + destruct (IH Honce) as [Hfree|(pre & m & post & -> & ? & ? & ?)].
      * left. by constructor.
      * right. exists (line :: pre), m, post. split; [done|]. split; [done|].
        split; [by constructor|done].
Qed.

(** The entry of the section in [section_indices], for a file with the
    marker at most once. *)
Lemma section_indices_target (lines : list str) :
  marker_once mk lines →
  target sec mk [] lines (Datafile.section_indices lines).
Proof.
  intros [Hfree|(pre & m & post & -> & Hm & Hpre & Hpost)]%once_split;
    [by left|].
  right. exists pre, m, post. rewrite section_indices_close.
  destruct (Datafile.find_sections 0 _ None None []) as [[f n] s] eqn:E.
  eapply find_sections_once in E; [|done..]. rewrite !Nat.add_0_l in E.
  exists (length pre + 1). split; [done|]. split; [done|]. split; [done|].
  split; [done|]. by rewrite E.
Qed.

Lemma content_end_le (lines : list str) : content_end lines ≤ length lines.
Proof.
  induction lines as [|l rest IH]; simpl; [done|]. destruct (is_marker l); lia.
Qed.


(** The three moves of the rewriting loop. *)
Lemma target_here (read : list str) (l : str) (rest : list str)
    (found : Datafile.indices) :
  strip l = mk → target sec mk read (l :: rest) found →
  ∃ s, Datafile.dict_get sec found
       = Some (s, length read + 1 + content_end rest)
       ∧ marker_free mk rest.
Proof.
  intros Hl [Hfree|(pre & m & post & s & Heq & Hm & Hpre & Hpost & Hget)].
  - by apply Forall_cons in Hfree as [? _].
  - destruct pre as [|l' pre].
    + injection Heq as -> ->. exists s. split; [|done].
      rewrite Hget. simpl. do 2 f_equal. lia.
    + injection Heq as -> ->. by apply Forall_cons in Hpre as [? _].
Qed.

Lemma target_step (read : list str) (l : str) (rest : list str)
    (found : Datafile.indices) :
  strip l ≠ mk → target sec mk read (l :: rest) found →
  target sec mk (read ++ [l]) rest found.
Proof.
  intros Hl [Hfree|(pre & m & post & s & Heq & Hm & Hpre & Hpost & Hget)].
  - left. by apply Forall_cons in Hfree as [_ ?].
  - destruct pre as [|l' pre]; injection Heq as -> ->; [done|].
    right. exists pre, m, post, s. apply Forall_cons in Hpre as [_ Hpre].
    repeat split; [done..|]. rewrite Hget, length_app. simpl.
    do 2 f_equal. lia.
Qed.


End one_marker.





Lemma has_marker_free (mk : str) (lines : list str) :
  has_marker mk lines = false ↔ marker_free mk lines.
Proof.
  unfold marker_free. induction lines as [|l rest IH]; cbn [has_marker existsb].
  - split; [constructor|done].
  - rewrite Forall_cons, orb_false_iff, <- IH. fold (has_marker mk rest).
    by rewrite bool_decide_eq_false.
Qed.












(** ** Lowercasing the matches of a pattern *)

Lemma lookup_slice (t : str) (s e i : nat) :
  i < e - s → slice t s e !! i = t !! (s + i).
Proof. intros Hi. unfold slice. by rewrite lookup_take_lt, lookup_drop by done. Qed.

Lemma length_slice (t : str) (s e : nat) :
  s ≤ e → e ≤ length t → length (slice t s e) = e - s.
Proof. intros. unfold slice. rewrite length_take, length_drop. lia. Qed.

(** The text rebuilt with every match in lower case, position by position. *)
Lemma rebuild_lower_lookup (t : str) :
  ∀ ms from i,
    chained (length t) from ((Re.span ∘ fst) <$> ms) →
    Forall (λ mr, mr.2 = lower (slice t (Re.m_start mr.1) (Re.m_end mr.1))) ms →
    Re.rebuild_with t from ms !! i =
      (λ c, if covered ((Re.span ∘ fst) <$> ms) (from + i)
            then Char.lower c else c) <$> t !! (from + i).
Proof.
  induction ms as [|[m r] ms IH]; intros from i Hch Hall.
  - cbn. rewrite lookup_drop. by destruct (t !! (from + i)).
  - cbn [Re.rebuild_with]. cbn in Hch. destruct Hch as (H1 & H2 & H3 & Hch).
    apply Forall_cons in Hall as [Hr Hall]. cbn in Hr.
    rewrite fmap_cons. cbn [covered existsb].
    change ((Re.span ∘ fst) (m, r)) with (Re.m_start m, Re.m_end m).
    cbn [fst snd]. subst r.
    destruct (decide (from + i < Re.m_start m)) as [Hlt|Hge].
    + rewrite lookup_app_l by (rewrite length_slice by lia; lia).
      rewrite lookup_slice by lia.
      replace (Re.m_start m <=? from + i) with false
        by (symmetry; apply Nat.leb_gt; lia).
      cbn [andb orb].
      change (existsb _ ((Re.span ∘ fst) <$> ms) )
        with (covered ((Re.span ∘ fst) <$> ms) (from + i)).
      rewrite (covered_before _ _ _ _ Hch) by lia.
      by destruct (t !! (from + i)).
    + rewrite lookup_app_r by (rewrite length_slice by lia; lia).
      rewrite length_slice by lia.
      replace (Re.m_start m <=? from + i) with true
        by (symmetry; apply Nat.leb_le; lia).
      destruct (decide (from + i < Re.m_end m)) as [Hin|Hout].
      * replace (from + i <? Re.m_end m) with true
          by (symmetry; apply Nat.ltb_lt; lia).
        cbn [andb orb].
        rewrite lookup_app_l
          by (rewrite length_lower, length_slice by lia; lia).
        unfold lower. rewrite list_lookup_fmap, lookup_slice by lia.
        replace (Re.m_start m + (i - (Re.m_start m - from))) with (from + i)
          by lia.
        done.
      * replace (from + i <? Re.m_end m) with false
          by (symmetry; apply Nat.ltb_ge; lia).
        cbn [andb orb].
        rewrite lookup_app_r
          by (rewrite length_lower, length_slice by lia; lia).
        rewrite length_lower, length_slice by lia.
        rewrite IH by done.
        replace (Re.m_end m + (i - (Re.m_start m - from) - (Re.m_end m - Re.m_start m)))
          with (from + i) by lia.
        done.
Qed.

(** [re.sub] with every match put in lower case, in closed form. *)
Lemma sub_lower_where (r : Re.regex) (t : str) :
  Re.sub r (λ m, lower (Re.group0 m)) t
  = lower_where (covered (Re.scan r [] t 0)) t.
Proof.
  apply list_eq. intros i. unfold Re.sub, lower_where.
  rewrite list_lookup_imap.
  rewrite rebuild_lower_lookup.
  - rewrite <- list_fmap_compose.
    replace ((Re.span ∘ fst) ∘ (λ m, (m, lower (Re.group0 m))))
      with Re.span by done.
    by rewrite finditer_spans.
  - rewrite <- list_fmap_compose.
    replace ((Re.span ∘ fst) ∘ (λ m, (m, lower (Re.group0 m))))
      with Re.span by done.
    apply finditer_chained.
  - apply Forall_fmap, Forall_forall. intros m Hm. cbn.
    by rewrite (finditer_group0 _ _ _ Hm).
Qed.

(** ** Whole words *)

Lemma is_word_lower (c : ascii) : Char.is_word (Char.lower c) = Char.is_word c.
Proof. by destruct c as [[] [] [] [] [] [] [] []]. Qed.

Lemma is_lower_lower (c : ascii) :
  Char.is_upper c = true → Char.is_lower (Char.lower c) = true.
Proof. by destruct c as [[] [] [] [] [] [] [] []]. Qed.

Lemma lower_not_upper (c : ascii) : Char.is_upper c = false → Char.lower c = c.
Proof. unfold Char.lower. by intros ->. Qed.

Lemma upper_not_lower (c : ascii) :
  Char.is_upper c = true → Char.is_lower c = false.
Proof. by destruct c as [[] [] [] [] [] [] [] []]. Qed.

(** A character that is not a lower-case letter comes out of
    [Char.lower] only when it went in. *)
Lemma lower_reflects (c d : ascii) :
  Char.is_lower d = false → Char.lower c = d → c = d.
Proof.
  intros Hd Hc. destruct (Char.is_upper c) eqn:Hu.
  - apply is_lower_lower in Hu. congruence.
  - by rewrite lower_not_upper in Hc.
Qed.

Lemma match_whole_word (w sn ah : str) :
  Re.match_at (Re.whole_word false w) (Re.Cursor sn ah) =
    if Re.boundary sn ah && bool_decide (take (length w) ah = w)
       && Re.boundary (reverse w ++ sn) (drop (length w) ah)
    then Some (Re.Cursor (reverse w ++ sn) (drop (length w) ah))
    else None.
Proof.
  unfold Re.match_at, Re.whole_word. cbn [Re.run Re.seen Re.ahead].
  destruct (Re.boundary sn ah); [|done]. rewrite lit_exact.
  cbn [Re.seen Re.ahead andb].
  destruct (decide (take (length w) ah = w)) as [Hw|Hw].
  - by rewrite bool_decide_eq_true_2.
  - by rewrite bool_decide_eq_false_2.
Qed.

Lemma word_before_at (t : str) (i : nat) :
  i ≤ length t →
  Re.word_before (reverse (take i t))
  = match i with 0 => false | S k => word_at t k end.
Proof.
  intros Hi. destruct i as [|k]; [done|].
  destruct (lookup_lt_is_Some_2 t k ltac:(lia)) as [c Hc].
  rewrite (take_S_r _ _ _ Hc), reverse_app. unfold word_at. by rewrite Hc.
Qed.

Lemma word_after_at (t : str) (i : nat) :
  Re.word_after (drop i t) = word_at t i.
Proof.
  unfold word_at. rewrite <- (Nat.add_0_r i) at 2. rewrite <- lookup_drop.
  by destruct (drop i t).
Qed.

Lemma boundary_at_pos (t : str) (i : nat) :
  i ≤ length t →
  Re.boundary (reverse (take i t)) (drop i t) = boundary_at t i.
Proof.
  intros Hi. unfold Re.boundary, boundary_at.
  by rewrite word_before_at, word_after_at.
Qed.

Lemma take_drop_lookup (t w : str) (i : nat) :
  take (length w) (drop i t) = w ↔ ∀ j, j < length w → t !! (i + j) = w !! j.
Proof.
  split.
  - intros Hw j Hj. rewrite <- Hw.
    by rewrite lookup_take_lt, lookup_drop by done.
  - intros Hw. apply list_eq. intros j.
    destruct (decide (j < length w)) as [Hj|Hj].
    + by rewrite lookup_take_lt, lookup_drop, Hw.
    + rewrite lookup_take_ge by lia. symmetry. apply lookup_ge_None. lia.
Qed.

(** A match of [\bw\b] at a position is an occurrence of [w] there. *)
Lemma match_at_occurs (w t : str) (i : nat) :
  i ≤ length t →
  is_Some (Re.match_at (Re.whole_word false w) (at_pos t i)) ↔ occurs w t i.
Proof.
  intros Hi. unfold at_pos. rewrite match_whole_word.
  rewrite boundary_at_pos by done. unfold occurs.
  rewrite <- take_drop_lookup.
  destruct (boundary_at t i); cbn [andb]; [|split; [by intros [? ?]|by intros [? _]]].
  case_bool_decide as Hw; cbn [andb];
    [|split; [by intros [? ?]|by intros (_ & ? & _)]].
  assert (Hlen : i + length w ≤ length t).
  { apply (f_equal length) in Hw. rewrite length_take, length_drop in Hw. lia. }
  rewrite <- Hw at 1. rewrite <- reverse_app, take_take_drop, drop_drop.
  rewrite boundary_at_pos by done.
  destruct (boundary_at t (i + length w)).
  - split; [done|by eexists].
  - split; [by intros [? ?]|by intros (_ & _ & ?)].
Qed.

Lemma match_whole_word_pos (w sn ah : str) (c' : Re.cursor) :
  Re.match_at (Re.whole_word false w) (Re.Cursor sn ah) = Some c' →
  Re.pos c' = length sn + length w ∧ take (length w) ah = w.
Proof.
  rewrite match_whole_word.
  destruct (Re.boundary sn ah); cbn [andb]; [|done].
  case_bool_decide as Hw; cbn [andb]; [|done].
  destruct (Re.boundary _ _); [|done]. intros [= <-]. split; [|done].
  unfold Re.pos. cbn [Re.seen]. rewrite length_app, length_reverse. lia.
Qed.

(** Every match of [\bw\b] carries [w]. *)
Lemma whole_word_group0 (w t : str) (m : Re.rmatch) :
  m ∈ Re.finditer (Re.whole_word false w) t → Re.group0 m = w.
Proof.
  unfold Re.finditer. intros ([s e] & -> & Hin)%list_elem_of_fmap.
  apply scan_sound in Hin as (j & c' & Hj & -> & Hm & <-).
  apply match_whole_word_pos in Hm as [-> Hw]. cbn [fst snd Re.group0].
  rewrite length_app, length_reverse, length_take_le by done.
  unfold slice. cbn [length]. rewrite Nat.add_0_r, Nat.add_0_l.
  by replace (j + length w - j) with (length w) by lia.
Qed.

Lemma lower_word_where (w t : str) :
  AllCaps.lower_word w t
  = lower_where (covered (Re.scan (Re.whole_word false w) [] t 0)) t.
Proof.
  rewrite <- sub_lower_where. unfold AllCaps.lower_word, Re.sub. f_equal.
  apply list_fmap_ext. intros i m Hm%list_elem_of_lookup_2.
  by rewrite (whole_word_group0 _ _ _ Hm).
Qed.

Lemma word_at_lower_where (f : nat → bool) (t : str) (i : nat) :
  word_at (lower_where f t) i = word_at t i.
Proof.
  unfold word_at, lower_where. rewrite list_lookup_imap.
  destruct (t !! i) as [c|]; [|done]. cbn.
  destruct (f i); [apply is_word_lower|done].
Qed.

Lemma boundary_at_lower_where (f : nat → bool) (t : str) (i : nat) :
  boundary_at (lower_where f t) i = boundary_at t i.
Proof.
  unfold boundary_at. rewrite word_at_lower_where.
  destruct i; [done|]. by rewrite word_at_lower_where.
Qed.

Lemma caps_word_head (w : str) :
  caps_word w = true → ∃ c w', w = c :: w' ∧ Char.is_upper c = true.
Proof.
  unfold caps_word. destruct w as [|c w']; [done|].
  intros [Hc _]%andb_true_iff. eauto.
Qed.

Lemma caps_word_lookup (w : str) (j : nat) (c : ascii) :
  caps_word w = true → w !! j = Some c → Char.is_lower c = false.
Proof.
  unfold caps_word. intros [_ Hall]%andb_true_iff Hj.
  rewrite forallb_forall in Hall. apply negb_true_iff, Hall.
  apply list_elem_of_In. by eapply list_elem_of_lookup_2.
Qed.

(** An all-caps word that stands in a text after some of its positions
    were put in lower case stood there before, and its first position
    was not touched. *)
Lemma occurs_lower_where (w : str) (f : nat → bool) (t : str) (i : nat) :
  caps_word w = true →
  occurs w (lower_where f t) i → occurs w t i ∧ f i = false.
Proof.
  intros Hw (Hb1 & Hchars & Hb2). rewrite boundary_at_lower_where in Hb1, Hb2.
  assert (Hsame : ∀ j, j < length w → t !! (i + j) = w !! j).
  { intros j Hj. specialize (Hchars j Hj).
    destruct (lookup_lt_is_Some_2 w j Hj) as [d Hd]. rewrite Hd in Hchars |- *.
    unfold lower_where in Hchars. rewrite list_lookup_imap in Hchars.
    destruct (t !! (i + j)) as [c|]; [|done]. cbn in Hchars.
    injection Hchars as Hc. f_equal.
    destruct (f (i + j)); [|done].
    eapply lower_reflects; [|done]. by eapply caps_word_lookup. }
  split; [done|].
  destruct (caps_word_head _ Hw) as (c & w' & -> & Hc).
  specialize (Hchars 0 ltac:(simpl; lia)). specialize (Hsame 0 ltac:(simpl; lia)).
  rewrite Nat.add_0_r in Hchars, Hsame. cbn in Hchars, Hsame.
  unfold lower_where in Hchars. rewrite list_lookup_imap, Hsame in Hchars.
  cbn in Hchars. destruct (f i); [|done]. injection Hchars as Hl.
  apply is_lower_lower in Hc as Hll. rewrite Hl in Hll.
  apply upper_not_lower in Hc. congruence.
Qed.

Lemma whole_word_nonempty (w sn ah : str) (c' : Re.cursor) :
  w ≠ [] →
  Re.match_at (Re.whole_word false w) (Re.Cursor sn ah) = Some c' →
  length sn < Re.pos c'.
Proof.
  intros Hw [-> _]%match_whole_word_pos. destruct w; [done|]. simpl. lia.
Qed.

Lemma caps_word_nonempty (w : str) : caps_word w = true → w ≠ [].
Proof. by destruct w. Qed.

Lemma length_lower_where (f : nat → bool) (t : str) :
  length (lower_where f t) = length t.
Proof. apply length_imap. Qed.

(** A search finds nothing when the word occurs nowhere. *)
Lemma no_whole_word_intro (w t : str) :
  (∀ i, i ≤ length t → ¬ occurs w t i) → no_whole_word w t.
Proof.
  intros Hnone. unfold no_whole_word, Re.finditer.
  rewrite scan_nil; [done|]. intros j Hj. rewrite app_nil_r.
  destruct (Re.match_at _ _) as [c'|] eqn:Hm; [|done].
  destruct (Hnone j Hj). apply match_at_occurs; [done|]. by eexists.
Qed.

(** Where an all-caps word occurs, the search has a span over it. *)
Lemma occurs_covered (w t : str) (i : nat) :
  w ≠ [] → i ≤ length t → occurs w t i →
  covered (Re.scan (Re.whole_word false w) [] t 0) i = true.
Proof.
  intros Hw Hi [c' Hm]%match_at_occurs; [|done].
  apply (scan_cover _ (λ sn ah c, whole_word_nonempty w sn ah c Hw)
           t [] 0 i c'); [lia|done|].
  by rewrite app_nil_r.
Qed.

Lemma no_whole_word_elim (w t : str) (i : nat) :
  w ≠ [] → i ≤ length t → no_whole_word w t → ¬ occurs w t i.
Proof.
  intros Hw Hi Hnone Hocc. apply (occurs_covered _ _ _ Hw Hi) in Hocc.
  unfold no_whole_word, Re.finditer in Hnone.
  apply fmap_nil_inv in Hnone. by rewrite Hnone in Hocc.
Qed.

(** After [re.sub(r'\bw\b', w.lower(), t)] an all-caps word [w] stands
    nowhere in the text as a whole word. *)
Lemma lower_word_clears (w t : str) :
  caps_word w = true → no_whole_word w (AllCaps.lower_word w t).
Proof.
  intros Hw. rewrite lower_word_where. apply no_whole_word_intro.
  intros i Hi [Hocc Hf]%occurs_lower_where; [|done].
  rewrite length_lower_where in Hi.
  apply occurs_covered in Hocc; [|by apply caps_word_nonempty|done].
  congruence.
Qed.

(** Lowercasing another word brings no occurrence back. *)
Lemma lower_word_keeps_clear (w v t : str) :
  caps_word w = true → no_whole_word w t →
  no_whole_word w (AllCaps.lower_word v t).
Proof.
  intros Hw Hnone. rewrite lower_word_where. apply no_whole_word_intro.
  intros i Hi [Hocc _]%occurs_lower_where; [|done].
  rewrite length_lower_where in Hi.
  by apply (no_whole_word_elim w t i (caps_word_nonempty _ Hw) Hi Hnone).
Qed.

Lemma lower_words_keep_clear (w : str) (words : list str) :
  caps_word w = true →
  ∀ t, no_whole_word w t → no_whole_word w (AllCaps.lower_words words t).
Proof.
  intros Hw. induction words as [|v words IH]; intros t Hnone; [done|].
  change (AllCaps.lower_words (v :: words) t)
    with (AllCaps.lower_words words (AllCaps.lower_word v t)).
  apply IH. by apply lower_word_keeps_clear.
Qed.

(** After the loop over [words], no all-caps word of [words] stands in
    the text as a whole word. *)
Lemma lower_words_clear (words : list str) (w : str) :
  w ∈ words → caps_word w = true →
  ∀ t, no_whole_word w (AllCaps.lower_words words t).
Proof.
  intros Hin Hw. induction words as [|v words IH]; intros t.
  - by apply elem_of_nil in Hin.
  - change (AllCaps.lower_words (v :: words) t)
      with (AllCaps.lower_words words (AllCaps.lower_word v t)).
    apply elem_of_cons in Hin as [->|Hin].
    + apply lower_words_keep_clear; [done|]. by apply lower_word_clears.
    + by apply IH.
Qed.

(** Lowercasing words changes the case of characters and nothing else. *)
Lemma lower_lower_where (f : nat → bool) (t : str) :
  lower (lower_where f t) = lower t.
Proof.
  apply list_eq. intros i. unfold lower, lower_where.
  rewrite !list_lookup_fmap, list_lookup_imap.
  destruct (t !! i) as [c|]; [|done]. cbn. f_equal.
  destruct (f i); [|done].
  unfold Char.lower at 1. destruct (Char.is_upper (Char.lower c)) eqn:Hu; [|done].
  destruct (Char.is_upper c) eqn:Hc.
  - apply is_lower_lower in Hc. apply upper_not_lower in Hu. congruence.
  - rewrite lower_not_upper in Hu by done. congruence.
Qed.

Lemma lower_lower_word (w t : str) : lower (AllCaps.lower_word w t) = lower t.
Proof. rewrite lower_word_where. apply lower_lower_where. Qed.

Lemma lower_lower_words (words : list str) :
  ∀ t, lower (AllCaps.lower_words words t) = lower t.
Proof.
  induction words as [|v words IH]; intros t; [done|].
  change (AllCaps.lower_words (v :: words) t)
    with (AllCaps.lower_words words (AllCaps.lower_word v t)).
  rewrite IH. apply lower_lower_word.
Qed.

Lemma lower_eq_length (a b : str) : lower a = lower b → length a = length b.
Proof. intros H%(f_equal length). by rewrite !length_lower in H. Qed.


(** ** The pass over the all-caps sequences *)

Lemma chained_elem (len : nat) (spans : list (nat * nat)) :
  ∀ from s e, chained len from spans → (s, e) ∈ spans →
    from ≤ s ∧ s ≤ e ∧ e ≤ len.
Proof.
  induction spans as [|[s1 e1] rest IH]; intros from s e Hch Hin.
  - by apply elem_of_nil in Hin.
  - cbn in Hch. destruct Hch as (H1 & H2 & H3 & Hch).
    apply elem_of_cons in Hin as [[= -> ->]|Hin]; [done|].
    destruct (IH _ _ _ Hch Hin) as (? & ? & ?). lia.
Qed.

Lemma finditer_bounds (r : Re.regex) (t : str) (m : Re.rmatch) :
  m ∈ Re.finditer r t → Re.m_start m ≤ Re.m_end m ∧ Re.m_end m ≤ length t.
Proof.
  intros Hm.
  destruct (chained_elem _ _ 0 (Re.m_start m) (Re.m_end m) (finditer_chained r t))
    as (_ & ? & ?); [|done].
  apply list_elem_of_fmap. by exists m.
Qed.

Lemma lower_lower (s : str) : lower (lower s) = lower s.
Proof.
  rewrite <- (lower_lower_where (λ _, true) s) at 2. f_equal.
  unfold lower, lower_where. apply list_eq. intros i.
  by rewrite list_lookup_fmap, list_lookup_imap.
Qed.

Lemma lower_slice (t : str) (s e : nat) : lower (slice t s e) = slice (lower t) s e.
Proof. unfold lower, slice. by rewrite fmap_take, fmap_drop. Qed.

(** Splicing the lower-case form of a snapshot match over its span
    changes the case of characters and nothing else. *)
Lemma splice_lower (t0 t : str) (m : Re.rmatch) (r : Re.regex) :
  lower t = lower t0 → m ∈ Re.finditer r t0 →
  lower (take (Re.m_start m) t ++ lower (Re.group0 m) ++ drop (Re.m_end m) t)
  = lower t0.
Proof.
  intros Ht Hm. destruct (finditer_bounds _ _ _ Hm) as [Hse He].
  rewrite (finditer_group0 _ _ _ Hm).
  rewrite !lower_app, lower_lower, lower_slice.
  unfold lower at 1 3. rewrite fmap_take, fmap_drop. fold (lower t).
  rewrite Ht.
  pose proof (slice_slice_drop (lower t0) 0 (Re.m_start m) (Re.m_end m)
                ltac:(lia) Hse ltac:(by rewrite length_lower)) as H.
  unfold slice at 1 in H. by rewrite Nat.sub_0_r, !drop_0 in H.
Qed.

Lemma next_sequence_spec (ignore decided : gset str) (rest : list Re.rmatch) :
  ∀ idx,
    ∃ k, (AllCaps.next_sequence ignore decided rest idx).1 = idx + k
         ∧ Forall (λ m, Re.group0 m ∈ ignore ∨ Re.group0 m ∈ decided)
             (take k rest)
         ∧ match (AllCaps.next_sequence ignore decided rest idx).2 with
           | Some m => rest !! k = Some m
                       ∧ (Re.group0 m ∉ ignore) ∧ (Re.group0 m ∉ decided)
           | None => k = length rest
           end.
Proof.
  induction rest as [|m rest IH]; intros idx; cbn [AllCaps.next_sequence].
  - exists 0. cbn. split; [lia|]. by split.
  - destruct (decide _) as [Hskip|Hstop].
    + destruct (IH (S idx)) as (k & Hk & Hall & Hstop). exists (S k).
      split; [lia|]. split; [by constructor|].
      destruct (AllCaps.next_sequence _ _ _ _).2; [done|]. simpl. lia.
    + exists 0. cbn. split; [lia|]. split; [done|].
      split; [done|]. split; intros ?; apply Hstop; by auto.
Qed.

(** [_process_next_sequence] passes over the matches whose text is in
    [ignore_set] or decided, and stops at the first one that is in
    neither; nothing else changes. *)
Lemma process_next_sequence_cases (w : AllCaps.world) :
  let w' := AllCaps.process_next_sequence w in
  let p := AllCaps.w_proc w in
  let p' := AllCaps.w_proc w' in
  let rest := drop (AllCaps.current_match_index p)
                (AllCaps.all_caps_matches_original p) in
  AllCaps.w_ctx w' = AllCaps.w_ctx w ∧ AllCaps.w_env w' = AllCaps.w_env w
  ∧ AllCaps.all_caps_matches_original p' = AllCaps.all_caps_matches_original p
  ∧ AllCaps.decided_sequences_text p' = AllCaps.decided_sequences_text p
  ∧ AllCaps.lowercased_original_spans p' = AllCaps.lowercased_original_spans p
  ∧ ∃ k, AllCaps.current_match_index p' = AllCaps.current_match_index p + k
      ∧ Forall (λ m, Re.group0 m ∈ ignore_set (AllCaps.w_ctx w)
                     ∨ Re.group0 m ∈ AllCaps.decided_sequences_text p)
          (take k rest)
      ∧ ((k = length rest ∧ AllCaps.shown w' = AllCaps.shown w
          ∧ AllCaps.current_caps_sequence p' = AllCaps.current_caps_sequence p
          ∧ AllCaps.current_caps_span p' = AllCaps.current_caps_span p)
         ∨ (∃ m, rest !! k = Some m
              ∧ (Re.group0 m ∉ ignore_set (AllCaps.w_ctx w))
              ∧ (Re.group0 m ∉ AllCaps.decided_sequences_text p)
              ∧ AllCaps.shown w' = AllCaps.shown w ++ [(Re.group0 m, Re.span m)]
              ∧ AllCaps.current_caps_sequence p' = Some (Re.group0 m)
              ∧ AllCaps.current_caps_span p' = Some (Re.span m))).
Proof.
  cbn zeta. unfold AllCaps.process_next_sequence.
  destruct (next_sequence_spec (ignore_set (AllCaps.w_ctx w))
              (AllCaps.decided_sequences_text (AllCaps.w_proc w))
              (drop (AllCaps.current_match_index (AllCaps.w_proc w))
                 (AllCaps.all_caps_matches_original (AllCaps.w_proc w)))
              (AllCaps.current_match_index (AllCaps.w_proc w)))
    as (k & Hk & Hall & Hstop).
  destruct (AllCaps.next_sequence _ _ _ _) as [idx' [m|]]; cbn in *.
  - repeat (split; [done|]). exists k. split; [done|]. split; [done|].
    right. exists m. destruct Hstop as (? & ? & ?). by repeat split.
  - repeat (split; [done|]). exists k. split; [done|]. split; [done|].
    left. by repeat split.
Qed.

(** ** The sequences of the snapshot *)

Lemma upper_or_space_not_lower (c : ascii) :
  AllCaps.upper_or_space c = true → Char.is_lower c = false.
Proof. by destruct c as [[] [] [] [] [] [] [] []]. Qed.

Lemma upper_or_space_lower (c : ascii) :
  AllCaps.upper_or_space c = true → Char.lower c ≠ "\"%char.
Proof. by destruct c as [[] [] [] [] [] [] [] []]. Qed.

Lemma upper_or_space_literal (w : str) :
  Forall (λ c, AllCaps.upper_or_space c = true) w →
  AllCaps.literal (lower w) = true.
Proof.
  intros Hall. apply bool_decide_eq_true_2.
  intros (c & Hc & Hin)%list_elem_of_fmap.
  rewrite Forall_forall in Hall. by apply (upper_or_space_lower c); [apply Hall|].
Qed.

Lemma sequence_match (sn ah : str) (c' : Re.cursor) :
  Re.match_at AllCaps.sequence_pattern (Re.Cursor sn ah) = Some c' →
  ∃ w, caps_word w = true ∧ AllCaps.literal (lower w) = true
       ∧ take (length w) ah = w
       ∧ Re.pos c' = length sn + length w.
Proof.
  unfold Re.match_at, AllCaps.sequence_pattern. cbn [Re.run Re.seen Re.ahead].
  destruct (Re.boundary sn ah); [|done].
  destruct ah as [|x a]; [done|]. destruct (Char.is_upper x) eqn:Hx; [|done].
  intros (w & rest & -> & _ & Hall & Hk)%rep_advances.
  cbn [Re.run Re.seen Re.ahead] in Hk.
  destruct rest as [|d rest]; [done|].
  destruct (Char.is_upper d) eqn:Hd; [|done].
  cbn [Re.seen Re.ahead] in Hk. destruct (Re.boundary _ _); [|done].
  injection Hk as <-. exists (x :: w ++ [d]). split; [|split; [|split]].
  - unfold caps_word. rewrite Hx. cbn [andb forallb].
    rewrite (upper_not_lower _ Hx). cbn [negb andb].
    rewrite forallb_app. apply andb_true_iff. split.
    + apply forallb_forall. intros c Hc%list_elem_of_In.
      rewrite Forall_forall in Hall.
      by rewrite (upper_or_space_not_lower _ (Hall _ Hc)).
    + cbn. by rewrite (upper_not_lower _ Hd).
  - apply upper_or_space_literal. constructor.
    + unfold AllCaps.upper_or_space. by rewrite Hx.
    + apply Forall_app. split; [done|]. constructor; [|done].
      unfold AllCaps.upper_or_space. by rewrite Hd.
  - cbn [length]. rewrite firstn_cons. f_equal.
    rewrite length_app. cbn [length].
    rewrite (take_app_ge w) by lia.
    replace (length w + 1 - length w) with 1 by lia. done.
  - unfold Re.pos. cbn [Re.seen length].
    rewrite !length_app, length_reverse. cbn [length]. lia.
Qed.

(** Every sequence detected is an all-caps word without a backslash. *)
Lemma sequence_shape (t : str) (m : Re.rmatch) :
  m ∈ Re.finditer AllCaps.sequence_pattern t →
  caps_word (Re.group0 m) = true ∧ AllCaps.literal (lower (Re.group0 m)) = true.
Proof.
  unfold Re.finditer. intros ([s e] & -> & Hin)%list_elem_of_fmap.
  apply scan_sound in Hin as (j & c' & Hj & -> & Hm & <-).
  apply sequence_match in Hm as (w & Hw & Hlit & Htake & ->).
  cbn [fst snd Re.group0].
  rewrite length_app, length_reverse, length_take_le by done.
  unfold slice. cbn [length]. rewrite Nat.add_0_r, Nat.add_0_l.
  replace (j + length w - j) with (length w) by lia. by rewrite Htake.
Qed.

Lemma sequence_caps_word (t : str) (m : Re.rmatch) :
  m ∈ Re.finditer AllCaps.sequence_pattern t → caps_word (Re.group0 m) = true.
Proof. by intros [? _]%sequence_shape. Qed.

(** ** Replacements that are put in as they stand *)

Lemma sub_lower_inv (word t t' : str) :
  AllCaps.sub_lower word t = Some t' → t' = AllCaps.lower_word word t.
Proof.
  unfold AllCaps.sub_lower. destruct (AllCaps.literal _); [|done].
  by intros [= <-].
Qed.

Lemma sub_lower_all_inv (words : list str) :
  ∀ t t', AllCaps.sub_lower_all words t = Some t' →
    t' = AllCaps.lower_words words t.
Proof.
  induction words as [|word words IH]; intros t t'; cbn [AllCaps.sub_lower_all].
  - by intros [= <-].
  - destruct (AllCaps.sub_lower word t) as [t1|] eqn:E; [|done].
    cbn [mbind option_bind]. intros Hrest%IH.
    apply sub_lower_inv in E as ->. done.
Qed.

Lemma sub_lower_all_literal (words : list str) :
  (∀ word, word ∈ words → AllCaps.literal (lower word) = true) →
  ∀ t, AllCaps.sub_lower_all words t = Some (AllCaps.lower_words words t).
Proof.
  induction words as [|word words IH]; intros Hlit t; [done|].
  cbn [AllCaps.sub_lower_all]. unfold AllCaps.sub_lower.
  rewrite Hlit by apply list_elem_of_here. cbn [mbind option_bind].
  rewrite IH; [done|]. intros w Hw. apply Hlit. by apply list_elem_of_further.
Qed.

(** ** A pass over the sequences *)

Section pass.

Variable iteration : gset str → list str.
Hypothesis iteration_elements : ∀ s, iteration s ≡ₚ elements s.

(** What a branch that returns leaves: the sequence is decided, the
    sequences shown, the snapshot, the index and the current sequence
    are as they were, [ignore_set] and [lowercase_set] gain at most the
    sequence, and the text is the one after the replacements. *)
Lemma apply_choice_inv (c : AllCaps.caps_choice) (seq : str) (s e : nat)
    (w w' : AllCaps.world) :
  AllCaps.apply_choice iteration c seq s e w = Some w' →
  AllCaps.shown w' = AllCaps.shown w
  ∧ AllCaps.decided_sequences_text (AllCaps.w_proc w')
    = {[ seq ]} ∪ AllCaps.decided_sequences_text (AllCaps.w_proc w)
  ∧ ignore_set (AllCaps.w_ctx w) ⊆ ignore_set (AllCaps.w_ctx w')
  ∧ (∀ word, word ∈ lowercase_set (AllCaps.w_ctx w') →
       word = seq ∨ word ∈ lowercase_set (AllCaps.w_ctx w))
  ∧ AllCaps.all_caps_matches_original (AllCaps.w_proc w')
    = AllCaps.all_caps_matches_original (AllCaps.w_proc w)
  ∧ AllCaps.current_caps_sequence (AllCaps.w_proc w')
    = AllCaps.current_caps_sequence (AllCaps.w_proc w)
  ∧ AllCaps.current_caps_span (AllCaps.w_proc w')
    = AllCaps.current_caps_span (AllCaps.w_proc w)
  ∧ AllCaps.current_match_index (AllCaps.w_proc w')
    = AllCaps.current_match_index (AllCaps.w_proc w)
  ∧ text (AllCaps.w_ctx w') =
      match c with
      | AllCaps.Yes =>
          AllCaps.lower_word seq
            (if AllCaps.text_update_callback (AllCaps.w_proc w)
             then take s (text (AllCaps.w_ctx w)) ++ lower seq
                    ++ drop e (text (AllCaps.w_ctx w))
             else text (AllCaps.w_ctx w))
      | AllCaps.AutoLowercase =>
          AllCaps.lower_words
            (iteration ({[ seq ]} ∪ lowercase_set (AllCaps.w_ctx w)))
            (text (AllCaps.w_ctx w))
      | _ => text (AllCaps.w_ctx w)
      end.
Proof.
  destruct c; cbn [AllCaps.apply_choice].
  - destruct (AllCaps.sub_lower _ _) as [t'|] eqn:E; [|done].
    cbn [mbind option_bind]. intros [= <-]. apply sub_lower_inv in E as ->.
    cbn. split_and!; try done. by right.
  - intros [= <-]. cbn. split_and!; try done. by right.
  - destruct (Datafile.save_caps_data_file _ _ _) as [env'|]; [|done].
    cbn [mbind option_bind]. intros [= <-]. cbn.
    split_and!; try done; [apply union_subseteq_r|by right].
  - destruct (Datafile.save_caps_data_file _ _ _) as [env'|]; [|done].
    cbn [mbind option_bind].
    destruct (AllCaps.sub_lower_all _ _) as [t'|] eqn:E; [|done].
    cbn [mbind option_bind]. intros [= <-]. apply sub_lower_all_inv in E as ->.
    cbn. split_and!; try done.
    intros word [->%elem_of_singleton|?]%elem_of_union; by auto.
Qed.

(** A branch returns when the replacements it makes hold no backslash. *)
Lemma apply_choice_total (c : AllCaps.caps_choice) (seq : str) (s e : nat)
    (w : AllCaps.world) :
  AllCaps.literal (lower seq) = true →
  (∀ word, word ∈ lowercase_set (AllCaps.w_ctx w) →
     AllCaps.literal (lower word) = true) →
  is_Some (AllCaps.apply_choice iteration c seq s e w).
Proof.
  intros Hseq Hset. destruct c; cbn [AllCaps.apply_choice].
  - unfold AllCaps.sub_lower. rewrite Hseq. by eexists.
  - by eexists.
  - destruct (save_caps_data_file_total (AllCaps.w_env w)
                (ignore_set (set_ignore_set
                   ({[ seq ]} ∪ ignore_set (AllCaps.w_ctx w)) (AllCaps.w_ctx w)))
                (lowercase_set (set_ignore_set
                   ({[ seq ]} ∪ ignore_set (AllCaps.w_ctx w)) (AllCaps.w_ctx w))))
      as [env' ->].
    by eexists.
  - destruct (save_caps_data_file_total (AllCaps.w_env w)
                (ignore_set (set_lowercase_set
                   ({[ seq ]} ∪ lowercase_set (AllCaps.w_ctx w)) (AllCaps.w_ctx w)))
                (lowercase_set (set_lowercase_set
                   ({[ seq ]} ∪ lowercase_set (AllCaps.w_ctx w)) (AllCaps.w_ctx w))))
      as [env' ->].
    cbn [mbind option_bind]. rewrite sub_lower_all_literal; [by eexists|].
    intros word. rewrite iteration_elements, elem_of_elements. cbn.
    intros [->%elem_of_singleton|?]%elem_of_union; by auto.
Qed.

(** A call of [handle_caps_choice] during a pass returns and leaves a
    world of the same pass. *)
Lemma handle_caps_choice_in_pass (t0 : str) (choice : str) (w : AllCaps.world) :
  in_pass t0 w →
  ∃ w' b, AllCaps.handle_caps_choice iteration choice w = Some (w', b)
          ∧ in_pass t0 w'.
Proof.
  intros Hw. unfold AllCaps.handle_caps_choice.
  destruct (AllCaps.current_caps_sequence (AllCaps.w_proc w)) as [[|c seq]|] eqn:Hseq;
    [by eauto| |by eauto].
  destruct (pass_current _ _ Hw _ Hseq) as (m & Hm & Hg & Hspan).
  rewrite Hspan. cbn [mbind option_bind Re.span].
  destruct (AllCaps.read_choice choice) as [ch|]; [|by eauto].
  destruct (sequence_shape _ _ Hm) as [_ Hlit]. rewrite Hg in Hlit.
  destruct (apply_choice_total ch (c :: seq) (Re.m_start m) (Re.m_end m) w
              Hlit (pass_literal _ _ Hw)) as [w1 Happly].
  rewrite Happly.
  apply apply_choice_inv in Happly
    as (Hshown & Hdec & Hign & Hlow & Hms & Hcur & Hsp & Hidx & Htext).
  cbn [mbind option_bind]. eexists _, _. split; [done|].
  pose proof (process_next_sequence_cases (AllCaps.advance w1))
    as (Hctx & Henv & Hms' & Hdec' & Hlow' & k & Hk & Hskip & Hcase).
  cbn [AllCaps.advance AllCaps.w_ctx AllCaps.w_proc AllCaps.w_env AllCaps.shown
       AllCaps.set_index AllCaps.all_caps_matches_original
       AllCaps.decided_sequences_text AllCaps.lowercased_original_spans
       AllCaps.current_match_index AllCaps.current_caps_sequence
       AllCaps.current_caps_span] in *.
  assert (Hall : ∀ s, s ∈ fst <$> AllCaps.shown w1 →
            s ∈ AllCaps.decided_sequences_text (AllCaps.w_proc w1)).
  { intros s Hs. rewrite Hshown in Hs. rewrite Hdec.
    apply elem_of_union.
    destruct (pass_shown _ _ Hw s Hs) as [?|Hc]; [by right|].
    rewrite Hseq in Hc. injection Hc as <-. left. by apply elem_of_singleton. }
  assert (Htext' : lower (text (AllCaps.w_ctx w1)) = lower t0).
  { rewrite Htext. destruct ch.
    - rewrite lower_lower_word.
      destruct (AllCaps.text_update_callback _); [|apply Hw].
      rewrite <- Hg. eapply splice_lower; [apply Hw|done].
    - apply Hw.
    - apply Hw.
    - rewrite lower_lower_words. apply Hw. }
  constructor.
  - rewrite Hms', Hms. apply Hw.
  - by rewrite Hctx.
  - rewrite Hctx. intros word [->|Hword]%Hlow; [done|].
    by apply (pass_literal _ _ Hw).
  - intros seq' Hseq'.
    destruct Hcase as [(_ & _ & Hc & Hs)|(m' & Hm' & _ & _ & _ & Hc & Hs)].
    + rewrite Hc, Hcur, Hseq in Hseq'. injection Hseq' as <-.
      exists m. rewrite Hs, Hsp. done.
    + rewrite Hc in Hseq'. injection Hseq' as <-. exists m'.
      split; [|done]. rewrite lookup_drop in Hm'.
      apply list_elem_of_lookup_2 in Hm'. rewrite Hms in Hm'.
      by rewrite (pass_snapshot _ _ Hw) in Hm'.
  - destruct Hcase as [(_ & -> & _ & _)|(m' & _ & _ & Hnew & -> & _ & _)].
    + rewrite Hshown. apply Hw.
    + rewrite fmap_app. apply NoDup_app. split; [rewrite Hshown; apply Hw|].
      split; [|apply NoDup_singleton].
      intros s Hs [= ->]%list_elem_of_singleton. by apply Hnew, Hall.
  - intros s Hs. rewrite Hdec'.
    destruct Hcase as [(_ & Hsh & _ & _)|(m' & _ & _ & _ & Hsh & Hc & _)];
      rewrite Hsh in Hs.
    + left. by apply Hall.
    + rewrite fmap_app in Hs. apply elem_of_app in Hs as [Hs|Hs].
      * left. by apply Hall.
      * apply list_elem_of_singleton in Hs as ->. by right.
Qed.

(** What a call of [handle_caps_choice] leaves for later: the decided
    sequences and [ignore_set] only grow, and a sequence shown by the
    call is in neither of them. *)
Lemma handle_caps_choice_later (choice : str) (w w' : AllCaps.world) (b : bool) :
  AllCaps.handle_caps_choice iteration choice w = Some (w', b) →
  AllCaps.decided_sequences_text (AllCaps.w_proc w)
    ⊆ AllCaps.decided_sequences_text (AllCaps.w_proc w')
  ∧ ignore_set (AllCaps.w_ctx w) ⊆ ignore_set (AllCaps.w_ctx w')
  ∧ ∃ later, AllCaps.shown w' = AllCaps.shown w ++ later
      ∧ ∀ s, s ∈ fst <$> later →
          (s ∉ AllCaps.decided_sequences_text (AllCaps.w_proc w'))
          ∧ (s ∉ ignore_set (AllCaps.w_ctx w')).
Proof.
  assert (Hsame : AllCaps.decided_sequences_text (AllCaps.w_proc w)
                    ⊆ AllCaps.decided_sequences_text (AllCaps.w_proc w)
                  ∧ ignore_set (AllCaps.w_ctx w) ⊆ ignore_set (AllCaps.w_ctx w)
                  ∧ ∃ later, AllCaps.shown w = AllCaps.shown w ++ later
                      ∧ ∀ s, s ∈ fst <$> later →
                          (s ∉ AllCaps.decided_sequences_text (AllCaps.w_proc w))
                          ∧ (s ∉ ignore_set (AllCaps.w_ctx w))).
  { split; [done|]. split; [done|]. exists []. rewrite app_nil_r.
    split; [done|]. by intros s ?%elem_of_nil. }
  unfold AllCaps.handle_caps_choice.
  destruct (AllCaps.current_caps_sequence (AllCaps.w_proc w)) as [[|c seq]|];
    [by intros [= <- <-]| |by intros [= <- <-]].
  destruct (AllCaps.current_caps_span (AllCaps.w_proc w)) as [[s e]|]; [|done].
  cbn [mbind option_bind].
  destruct (AllCaps.read_choice choice) as [ch|]; [|by intros [= <- <-]].
  destruct (AllCaps.apply_choice iteration ch (c :: seq) s e w) as [w1|] eqn:Happly;
    [|done].
  apply apply_choice_inv in Happly
    as (Hshown & Hdec & Hign & Hlow & Hms & Hcur & Hsp & Hidx & Htext).
  cbn [mbind option_bind]. intros [= <- <-]. clear Hsame.
  pose proof (process_next_sequence_cases (AllCaps.advance w1))
    as (Hctx & Henv & Hms' & Hdec' & Hlow' & k & Hk & Hskip & Hcase).
  cbn [AllCaps.advance AllCaps.w_ctx AllCaps.w_proc AllCaps.w_env AllCaps.shown
       AllCaps.set_index AllCaps.all_caps_matches_original
       AllCaps.decided_sequences_text AllCaps.lowercased_original_spans
       AllCaps.current_match_index AllCaps.current_caps_sequence
       AllCaps.current_caps_span] in *.
  rewrite Hdec', Hctx, Hdec. split; [apply union_subseteq_r|]. split; [done|].
  destruct Hcase as [(_ & -> & _ & _)|(m' & _ & Hni & Hnd & -> & _ & _)].
  - exists []. rewrite app_nil_r. split; [done|]. by intros ? ?%elem_of_nil.
  - exists [(Re.group0 m', Re.span m')]. rewrite Hshown. split; [done|].
    intros ? ->%list_elem_of_singleton. by rewrite <- Hdec.
Qed.

(** The same for a session. *)
Lemma handle_all_later (choices : list str) :
  ∀ w w', AllCaps.handle_all iteration choices w = Some w' →
    AllCaps.decided_sequences_text (AllCaps.w_proc w)
      ⊆ AllCaps.decided_sequences_text (AllCaps.w_proc w')
    ∧ ignore_set (AllCaps.w_ctx w) ⊆ ignore_set (AllCaps.w_ctx w')
    ∧ ∃ later, AllCaps.shown w' = AllCaps.shown w ++ later
        ∧ ∀ s, s ∈ fst <$> later →
            (s ∉ AllCaps.decided_sequences_text (AllCaps.w_proc w))
            ∧ (s ∉ ignore_set (AllCaps.w_ctx w)).
Proof.
  induction choices as [|choice choices IH]; intros w w'; cbn [AllCaps.handle_all].
  - intros [= <-]. split; [done|]. split; [done|]. exists [].
    rewrite app_nil_r. split; [done|]. by intros ? ?%elem_of_nil.
  - destruct (AllCaps.handle_caps_choice iteration choice w) as [[w1 b]|] eqn:Hstep;
      [|done].
    cbn [mbind option_bind]. intros Hrest.
    apply handle_caps_choice_later in Hstep as (Hd1 & Hi1 & l1 & Hs1 & Hl1).
    apply IH in Hrest as (Hd2 & Hi2 & l2 & Hs2 & Hl2).
    split; [by etrans|]. split; [by etrans|].
    exists (l1 ++ l2). rewrite Hs2, Hs1, app_assoc. split; [done|].
    intros s. rewrite fmap_app. intros [Hs|Hs]%elem_of_app.
    + destruct (Hl1 s Hs) as [Hnd Hni]. split.
      * intros Hin. by apply Hnd, Hd1.
      * intros Hin. by apply Hni, Hi1.
    + destruct (Hl2 s Hs) as [Hnd Hni]. split.
      * intros Hin. by apply Hnd, Hd1.
      * intros Hin. by apply Hni, Hi1.
Qed.

(** A session during a pass returns and stays in the pass. *)
Lemma handle_all_in_pass (t0 : str) (choices : list str) :
  ∀ w, in_pass t0 w →
    ∃ w', AllCaps.handle_all iteration choices w = Some w' ∧ in_pass t0 w'.
Proof.
  induction choices as [|choice choices IH]; intros w Hw; cbn [AllCaps.handle_all].
  - by eauto.
  - destruct (handle_caps_choice_in_pass t0 choice w Hw) as (w1 & b & -> & Hw1).
    cbn [mbind option_bind]. by apply IH.
Qed.

(** [process_all_caps_sequences] on a fresh processor returns when no
    entry of [lowercase_set] holds a backslash, and the world it
    leaves is in the pass of the text it was given; the sequence it
    shows is not in [ignore_set]. *)
Lemma start_in_pass (callback : bool) (ctx : BookfixContext) (env : Datafile.fs) :
  (∀ word, word ∈ lowercase_set ctx → AllCaps.literal (lower word) = true) →
  ∃ w0, AllCaps.start iteration callback ctx env = Some w0
        ∧ in_pass (text ctx) w0
        ∧ ignore_set (AllCaps.w_ctx w0) = ignore_set ctx
        ∧ (∀ s, s ∈ fst <$> AllCaps.shown w0 → s ∉ ignore_set ctx).
Proof.
  intros Hlit. unfold AllCaps.start, AllCaps.process_all_caps_sequences.
  cbn [AllCaps.w_ctx AllCaps.w_proc AllCaps.w_env AllCaps.shown AllCaps.new
       AllCaps.current_caps_sequence AllCaps.current_caps_span
       AllCaps.text_update_callback].
  rewrite sub_lower_all_literal; cycle 1.
  { intros word. rewrite iteration_elements, elem_of_elements. apply Hlit. }
  cbn [mbind option_bind]. eexists. split; [done|].
  match goal with |- in_pass _ (AllCaps.process_next_sequence ?w0) ∧ _ =>
    pose proof (process_next_sequence_cases w0)
      as (Hctx & Henv & Hms' & Hdec' & Hlow' & k & Hk & Hskip & Hcase);
    set (w1 := AllCaps.process_next_sequence w0) in *
  end.
  cbn [AllCaps.w_ctx AllCaps.w_proc AllCaps.w_env AllCaps.shown
       AllCaps.all_caps_matches_original
       AllCaps.decided_sequences_text AllCaps.lowercased_original_spans
       AllCaps.current_match_index AllCaps.current_caps_sequence
       AllCaps.current_caps_span] in *.
  split; [constructor|split].
  - done.
  - rewrite Hctx. cbn. apply lower_lower_words.
  - rewrite Hctx. cbn. apply Hlit.
  - intros seq Hseq.
    destruct Hcase as [(_ & _ & Hc & _)|(m & Hm & _ & _ & _ & Hc & Hs)].
    + by rewrite Hc in Hseq.
    + rewrite Hc in Hseq. injection Hseq as <-. exists m. split; [|done].
      rewrite drop_0 in Hm. by eapply list_elem_of_lookup_2.
  - destruct Hcase as [(_ & -> & _ & _)|(m & _ & _ & _ & -> & _ & _)].
    + apply NoDup_nil_2.
    + apply NoDup_singleton.
  - intros s Hs.
    destruct Hcase as [(_ & Hsh & _ & _)|(m & _ & _ & _ & Hsh & Hc & _)];
      rewrite Hsh in Hs.
    + by apply elem_of_nil in Hs.
    + apply list_elem_of_singleton in Hs as ->. by right.
  - by rewrite Hctx.
  - intros s Hs.
    destruct Hcase as [(_ & Hsh & _ & _)|(m & _ & Hni & _ & Hsh & _ & _)];
      rewrite Hsh in Hs.
    + by apply elem_of_nil in Hs.
    + by apply list_elem_of_singleton in Hs as ->.
Qed.

End pass.

(** ** The all-caps pass as a whole *)

(** Property X5 (claim C7).  Let sets be visited in any order of their elements, and
    let no entry of [lowercase_set] hold a backslash (the replacement
    strings are then put in as they stand).  A pass started on a fresh
    processor returns, and so does every session of choices in it.
    Take the world [w1] reached after any choices [before] and the
    world [w2] reached after any further choices [after].  The
    sequences shown between [w1] and [w2] are in neither [ignore_set]
    nor [decided_sequences_text] as they stand at [w1]; the sequence
    shown first is not in the [ignore_set] of the context given; over
    the whole pass no text is shown twice, whatever spans carry it; and
    when one of the four choices is handled for the current sequence,
    its text is in [decided_sequences_text] afterwards. *)
Theorem never_reprompted (iteration : gset str → list str) (callback : bool)
    (ctx : BookfixContext) (env : Datafile.fs) (before after : list str) :
  (∀ s, iteration s ≡ₚ elements s) →
  (∀ word, word ∈ lowercase_set ctx → AllCaps.literal (lower word) = true) →
  ∃ w0 w1 w2,
    AllCaps.start iteration callback ctx env = Some w0
    ∧ AllCaps.handle_all iteration before w0 = Some w1
    ∧ AllCaps.handle_all iteration after w1 = Some w2
    ∧ (∀ s, s ∈ fst <$> AllCaps.shown w0 → s ∉ ignore_set ctx)
    ∧ (∃ later, AllCaps.shown w2 = AllCaps.shown w1 ++ later
         ∧ ∀ s, s ∈ fst <$> later →
             (s ∉ ignore_set (AllCaps.w_ctx w1))
             ∧ (s ∉ AllCaps.decided_sequences_text (AllCaps.w_proc w1)))
    ∧ NoDup (fst <$> AllCaps.shown w2)
    ∧ (∀ choice seq,
         AllCaps.current_caps_sequence (AllCaps.w_proc w1) = Some seq →
         seq ≠ [] → is_Some (AllCaps.read_choice choice) →
         ∃ w' b, AllCaps.handle_caps_choice iteration choice w1 = Some (w', b)
                 ∧ seq ∈ AllCaps.decided_sequences_text (AllCaps.w_proc w')).
Proof.
  intros Hiter Hlit.
  destruct (start_in_pass iteration Hiter callback ctx env Hlit)
    as (w0 & Hstart & H0 & _ & Hfirst).
  destruct (handle_all_in_pass iteration Hiter _ before w0 H0) as (w1 & Hw1 & H1).
  destruct (handle_all_in_pass iteration Hiter _ after w1 H1) as (w2 & Hw2 & H2).
  exists w0, w1, w2. split; [done|]. split; [done|]. split; [done|].
  split; [done|]. split; [|split].
  - apply handle_all_later in Hw2 as (_ & _ & later & Hsh & Hl).
    exists later. split; [done|]. intros s Hs. by destruct (Hl s Hs).
  - apply H2.
  - intros choice seq Hseq Hne [ch Hch].
    destruct (handle_caps_choice_in_pass iteration Hiter _ choice w1 H1)
      as (w' & b & Hstep & _).
    exists w', b. split; [done|].
    unfold AllCaps.handle_caps_choice in Hstep. rewrite Hseq, Hch in Hstep.
    destruct seq as [|c seq]; [done|].
    destruct (AllCaps.current_caps_span (AllCaps.w_proc w1)) as [[s e]|]; [|done].
    cbn [mbind option_bind] in Hstep.
    destruct (AllCaps.apply_choice iteration ch (c :: seq) s e w1)
      as [wa|] eqn:Ha; [|done].
    apply apply_choice_inv in Ha as (_ & Hdec & _).
    cbn [mbind option_bind] in Hstep. injection Hstep as <- _.
    pose proof (process_next_sequence_cases (AllCaps.advance wa))
      as (_ & _ & _ & Hdec' & _).
    rewrite Hdec'. cbn [AllCaps.advance AllCaps.w_proc AllCaps.set_index
                        AllCaps.decided_sequences_text].
    rewrite Hdec. apply elem_of_union. left. by apply elem_of_singleton.
Qed.

Lemma never_reprompted_witness :
  ∃ w0 w, AllCaps.example_start = Some w0
       ∧ AllCaps.handle_all elements [py "i"; py "n"] w0 = Some w
       ∧ NoDup (fst <$> AllCaps.shown w).
Proof.
  destruct (never_reprompted elements true AllCaps.example_ctx
              AllCaps.example_env [py "i"; py "n"] [])
    as (w0 & w1 & w2 & H0 & H1 & H2 & _ & _ & Hnd & _).
  - done.
  - intros word Hword. unfold AllCaps.example_ctx in Hword.
    cbn [lowercase_set] in Hword. apply elem_of_singleton in Hword as ->.
    reflexivity.
  - injection H2 as <-. exists w0, w1. unfold AllCaps.example_start.
    split; [exact H0|]. split; [exact H1|exact Hnd].
Defined.



(** Property X2 (claim C2).  Let the order in which a set is visited be any order of
    its elements, and let no entry of the new [lowercase_set] hold a
    backslash.  When [handle_caps_choice] gets the Auto Lowercase
    choice for the current sequence [seq], the call returns; [seq] is
    added to [lowercase_set]; [save_caps_data_file] is run on the new
    sets, and where the data file can be written the lines written to
    it include a line for [seq]; the text becomes the result of
    [re.sub(r'\\bword\\b', word.lower(), text)] for every [word] of the new
    [lowercase_set] in turn, which changes the case of characters and
    nothing else and after which a search for [\\bword\\b] finds nothing
    anywhere in the text, for every all-caps [word] of the set, old or
    new; every span of the snapshot that carries [seq] is in
    [lowercased_original_spans]; and [seq] is decided.  Every sequence
    of a snapshot is an all-caps word without a backslash. *)
Theorem auto_lowercase (iteration : gset str → list str) (w : AllCaps.world)
    (choice seq : str) (sp : nat * nat) :
  (∀ s, iteration s ≡ₚ elements s) →
  AllCaps.current_caps_sequence (AllCaps.w_proc w) = Some seq →
  seq ≠ [] →
  AllCaps.current_caps_span (AllCaps.w_proc w) = Some sp →
  AllCaps.read_choice choice = Some AllCaps.AutoLowercase →
  let lowercase' := {[ seq ]} ∪ lowercase_set (AllCaps.w_ctx w) in
  (∀ word, word ∈ lowercase' → AllCaps.literal (lower word) = true) →
  ∃ env' w' b,
    Datafile.save_caps_data_file (AllCaps.w_env w)
      (ignore_set (AllCaps.w_ctx w)) lowercase' = Some env'
    ∧ AllCaps.handle_caps_choice iteration choice w = Some (w', b)
    ∧ lowercase_set (AllCaps.w_ctx w') = lowercase'
    ∧ AllCaps.w_env w' = env'
    ∧ (Datafile.can_write (AllCaps.w_env w) = true →
       ∃ lines, Datafile.saved_lines (AllCaps.w_env w)
                  (ignore_set (AllCaps.w_ctx w)) lowercase' = Some lines
                ∧ seq ++ nl ∈ lines
                ∧ Datafile.data_file env' = Datafile.written lines)
    ∧ text (AllCaps.w_ctx w')
      = AllCaps.lower_words (iteration lowercase') (text (AllCaps.w_ctx w))
    ∧ lower (text (AllCaps.w_ctx w')) = lower (text (AllCaps.w_ctx w))
    ∧ (∀ word, word ∈ lowercase' → caps_word word = true →
         no_whole_word word (text (AllCaps.w_ctx w')))
    ∧ AllCaps.lowercased_original_spans (AllCaps.w_proc w')
      = AllCaps.spans_of seq (AllCaps.w_proc w)
          ∪ AllCaps.lowercased_original_spans (AllCaps.w_proc w)
    ∧ (∀ m, m ∈ AllCaps.all_caps_matches_original (AllCaps.w_proc w) →
         Re.group0 m = seq →
         Re.span m ∈ AllCaps.lowercased_original_spans (AllCaps.w_proc w'))
    ∧ seq ∈ AllCaps.decided_sequences_text (AllCaps.w_proc w')
    ∧ (∀ t0 m, m ∈ Re.finditer AllCaps.sequence_pattern t0 →
         caps_word (Re.group0 m) = true
         ∧ AllCaps.literal (lower (Re.group0 m)) = true).
Proof.
  intros Hiter Hseq Hne Hsp Hch lowercase' Hlit.
  destruct (save_caps_data_file_total (AllCaps.w_env w)
              (ignore_set (AllCaps.w_ctx w)) lowercase') as [env' Hsave].
  unfold AllCaps.handle_caps_choice. rewrite Hseq, Hsp, Hch.
  destruct seq as [|c seq]; [done|]. destruct sp as [s e].
  cbn [mbind option_bind AllCaps.apply_choice].
  change (lowercase_set (set_lowercase_set _ _))
    with ({[ c :: seq ]} ∪ lowercase_set (AllCaps.w_ctx w)).
  change (ignore_set (set_lowercase_set _ (AllCaps.w_ctx w)))
    with (ignore_set (AllCaps.w_ctx w)).
  fold lowercase'. rewrite Hsave. cbn [mbind option_bind].
  rewrite sub_lower_all_literal; cycle 1.
  { intros word. rewrite Hiter, elem_of_elements. apply Hlit. }
  cbn [mbind option_bind].
  match goal with |- context [AllCaps.process_next_sequence ?wa] =>
    pose proof (process_next_sequence_cases wa)
      as (Hctx & Henv & _ & Hdec & Hlow & _);
    set (w' := AllCaps.process_next_sequence wa) in *
  end.
  cbn [AllCaps.advance AllCaps.w_ctx AllCaps.w_proc AllCaps.w_env
       AllCaps.set_index AllCaps.set_decided AllCaps.decided_sequences_text
       AllCaps.lowercased_original_spans] in Hctx, Henv, Hdec, Hlow.
  eexists env', w', _. split; [done|]. split; [done|].
  rewrite Hctx, Henv, Hdec, Hlow. cbn [lowercase_set set_text set_lowercase_set text].
  split; [done|]. split; [done|]. split; [|split; [done|split; [|split; [|split; [done|split; [|split]]]]]].
  - intros Hcan. unfold Datafile.save_caps_data_file in Hsave.
    destruct (Datafile.saved_lines _ _ _) as [lines|] eqn:Hlines; [|done].
    cbn [mbind option_bind] in Hsave. rewrite Hcan in Hsave.
    injection Hsave as <-. exists lines. split; [done|]. split; [|done].
    eapply saved_lines_lowercase; [done|]. apply elem_of_content_lines.
    apply elem_of_union. left. by apply elem_of_singleton.
  - apply lower_lower_words.
  - intros word Hword Hcaps. apply lower_words_clear; [|done].
    rewrite Hiter. by apply elem_of_elements.
  - intros m Hm Hg. apply elem_of_union. left. unfold AllCaps.spans_of.
    apply elem_of_list_to_set, list_elem_of_fmap. exists m. split; [done|].
    by apply list_elem_of_filter.
  - apply elem_of_union. left. by apply elem_of_singleton.
  - intros t0 m Hm. split; [by eapply sequence_caps_word|].
    by destruct (sequence_shape _ _ Hm).
Qed.

Lemma auto_lowercase_witness :
  ∃ w', fst <$> AllCaps.handle_caps_choice elements (py "i") AllCaps.example_world
        = Some w'
        ∧ no_whole_word (py "STOP") (text (AllCaps.w_ctx w')).
Proof.
  destruct (auto_lowercase elements AllCaps.example_world (py "i") (py "STOP") (0, 4))
    as (env' & w' & b & _ & Hstep & _ & _ & _ & _ & _ & Hclear & _).
  - done.
  - by vm_compute.
  - done.
  - by vm_compute.
  - by vm_compute.
  - intros word Hword. apply elem_of_union in Hword as [Hword|Hword].
    + apply elem_of_singleton in Hword as ->. reflexivity.
    + assert (Hset : lowercase_set (AllCaps.w_ctx AllCaps.example_world)
                     = {[ py "GO" ]}) by (by vm_compute).
      rewrite Hset in Hword. apply elem_of_singleton in Hword as ->.
      reflexivity.
  - exists w'. rewrite Hstep. split; [done|]. apply Hclear; [|by vm_compute].
    apply elem_of_union. left. by apply elem_of_singleton.
Defined.


(** ** Interactive choices *)







(** ** The four choices, one by one *)

(** What [save_caps_data_file] writes holds a line for every sequence
    of [ignore_set]. *)
Lemma saved_lines_ignore (env : Datafile.fs) (ig lc : gset str)
    (lines : list str) (x : str) :
  Datafile.saved_lines env ig lc = Some lines →
  x ∈ Datafile.content_lines ig → x ∈ lines.
Proof.
  unfold Datafile.saved_lines. intros Hsaved Hx.
  destruct (Datafile.rewrite_loop _ _ _ _ _ _ _) as [r|] eqn:Hloop; [|done].
  cbn in Hsaved. injection Hsaved as <-.
  apply rewrite_loop_keeps in Hloop as (_ & Hi & _).
  assert (Hne : ig ≠ ∅).
  { intros ->. unfold Datafile.content_lines, Datafile.sorted_list in Hx.
    apply list_elem_of_fmap in Hx as (y & _ & Hy).
    rewrite merge_sort_Permutation, elements_empty in Hy. by apply elem_of_nil in Hy. }
  assert (Hin : x ∈ (if negb (Datafile.ignore_section_handled r)
                        && bool_decide (ig ≠ ∅)
                     then Datafile.append_section Datafile.IGNORE_SECTION_MARKER
                            (Datafile.content_lines ig) (Datafile.new_lines r)
                     else Datafile.new_lines r)).
  { destruct (Datafile.ignore_section_handled r) eqn:Hh; cbn [negb andb].
    - by apply (Hi eq_refl).
    - rewrite bool_decide_eq_true_2 by done.
      apply elem_of_append_section. by right. }
  destruct (negb _ && bool_decide (lc ≠ ∅)); [|done].
  apply elem_of_append_section. by left.
Qed.

(** The sequence being decided in a pass is an all-caps word. *)
Lemma pass_current_shape (t0 : str) (w : AllCaps.world) (seq : str) :
  in_pass t0 w →
  AllCaps.current_caps_sequence (AllCaps.w_proc w) = Some seq →
  ∃ m, m ∈ Re.finditer AllCaps.sequence_pattern t0
       ∧ Re.group0 m = seq
       ∧ AllCaps.current_caps_span (AllCaps.w_proc w) = Some (Re.span m)
       ∧ caps_word seq = true ∧ AllCaps.literal (lower seq) = true.
Proof.
  intros Hw Hseq. destruct (pass_current _ _ Hw _ Hseq) as (m & Hm & Hg & Hsp).
  exists m. destruct (sequence_shape _ _ Hm) as [Hc Hl]. rewrite Hg in Hc, Hl.
  done.
Qed.




(** Property X8.  The choices that keep the sequence in upper case.
    With a sequence to decide: an input that is none of the accepted
    spellings leaves everything as it is and returns [True]; the No
    choice leaves the context (text and sets) and the data file as
    they are and decides the sequence; Add to Ignore leaves the text
    and [lowercase_set] as they are, adds the sequence to
    [ignore_set], runs [save_caps_data_file] on the new sets, where the
    file can be written the lines written include the sequence, and
    decides the sequence. *)
Theorem keep_uppercase_choices (iteration : gset str → list str)
    (w : AllCaps.world) (choice seq : str) (sp : nat * nat) :
  AllCaps.current_caps_sequence (AllCaps.w_proc w) = Some seq →
  seq ≠ [] →
  AllCaps.current_caps_span (AllCaps.w_proc w) = Some sp →
  (AllCaps.read_choice choice = None →
   AllCaps.handle_caps_choice iteration choice w = Some (w, true))
  ∧ (AllCaps.read_choice choice = Some AllCaps.No →
     ∃ w' b,
       AllCaps.handle_caps_choice iteration choice w = Some (w', b)
       ∧ AllCaps.w_ctx w' = AllCaps.w_ctx w
       ∧ AllCaps.w_env w' = AllCaps.w_env w
       ∧ seq ∈ AllCaps.decided_sequences_text (AllCaps.w_proc w'))
  ∧ (AllCaps.read_choice choice = Some AllCaps.AddToIgnore →
     let ignore' := {[ seq ]} ∪ ignore_set (AllCaps.w_ctx w) in
     ∃ env' w' b,
       Datafile.save_caps_data_file (AllCaps.w_env w) ignore'
         (lowercase_set (AllCaps.w_ctx w)) = Some env'
       ∧ AllCaps.handle_caps_choice iteration choice w = Some (w', b)
       ∧ text (AllCaps.w_ctx w') = text (AllCaps.w_ctx w)
       ∧ lowercase_set (AllCaps.w_ctx w') = lowercase_set (AllCaps.w_ctx w)
       ∧ ignore_set (AllCaps.w_ctx w') = ignore'
       ∧ AllCaps.w_env w' = env'
       ∧ (Datafile.can_write (AllCaps.w_env w) = true →
          ∃ lines, Datafile.saved_lines (AllCaps.w_env w) ignore'
                     (lowercase_set (AllCaps.w_ctx w)) = Some lines
                   ∧ seq ++ nl ∈ lines
                   ∧ Datafile.data_file env' = Datafile.written lines)
       ∧ seq ∈ AllCaps.decided_sequences_text (AllCaps.w_proc w')).
Proof.
  intros Hseq Hne Hsp. destruct seq as [|c seq]; [done|]. destruct sp as [s e].
  unfold AllCaps.handle_caps_choice. rewrite Hseq, Hsp.
  cbn [mbind option_bind]. split; [|split].
  - by intros ->.
  - intros ->. cbn [mbind option_bind AllCaps.apply_choice].
    match goal with |- context [AllCaps.process_next_sequence ?wa] =>
      pose proof (process_next_sequence_cases wa)
        as (Hctx & Henv & _ & Hdec & _);
      set (w' := AllCaps.process_next_sequence wa) in *
    end.
    cbn [AllCaps.advance AllCaps.w_ctx AllCaps.w_proc AllCaps.w_env
         AllCaps.set_index AllCaps.set_decided AllCaps.decided_sequences_text]
      in Hctx, Henv, Hdec.
    eexists w', _. split; [done|]. rewrite Hctx, Henv, Hdec.
    split; [done|]. split; [done|].
    apply elem_of_union. left. by apply elem_of_singleton.
  - intros ->. cbn zeta.
    destruct (save_caps_data_file_total (AllCaps.w_env w)
                ({[ c :: seq ]} ∪ ignore_set (AllCaps.w_ctx w))
                (lowercase_set (AllCaps.w_ctx w))) as [env' Hsave].
    cbn [mbind option_bind AllCaps.apply_choice].
    change (ignore_set (set_ignore_set _ _))
      with ({[ c :: seq ]} ∪ ignore_set (AllCaps.w_ctx w)).
    change (lowercase_set (set_ignore_set _ (AllCaps.w_ctx w)))
      with (lowercase_set (AllCaps.w_ctx w)).
    rewrite Hsave. cbn [mbind option_bind].
    match goal with |- context [AllCaps.process_next_sequence ?wa] =>
      pose proof (process_next_sequence_cases wa)
        as (Hctx & Henv & _ & Hdec & _);
      set (w' := AllCaps.process_next_sequence wa) in *
    end.
    cbn [AllCaps.advance AllCaps.w_ctx AllCaps.w_proc AllCaps.w_env
         AllCaps.set_index AllCaps.set_decided AllCaps.decided_sequences_text]
      in Hctx, Henv, Hdec.
    eexists env', w', _. split; [done|]. split; [done|].
    rewrite Hctx, Henv, Hdec. cbn [text lowercase_set ignore_set set_ignore_set].
    split; [done|]. split; [done|]. split; [done|]. split; [done|]. split.
    + intros Hcan. unfold Datafile.save_caps_data_file in Hsave.
      destruct (Datafile.saved_lines _ _ _) as [lines|] eqn:Hlines; [|done].
      cbn [mbind option_bind] in Hsave. rewrite Hcan in Hsave.
      injection Hsave as <-. exists lines. split; [done|]. split; [|done].
      eapply saved_lines_ignore; [done|]. apply elem_of_content_lines.
      apply elem_of_union. left. by apply elem_of_singleton.
    + apply elem_of_union. left. by apply elem_of_singleton.
Qed.

Lemma keep_uppercase_choices_witness :
  ∃ w' b,
    AllCaps.handle_caps_choice elements (py "n") AllCaps.example_world
    = Some (w', b)
    ∧ AllCaps.w_ctx w' = AllCaps.w_ctx AllCaps.example_world.
Proof.
  destruct (keep_uppercase_choices elements AllCaps.example_world (py "n")
              (py "STOP") (0, 4)) as (_ & Hno & _).
  - by vm_compute.
  - done.
  - by vm_compute.
  - destruct Hno as (w' & b & Hstep & Hctx & _); [by vm_compute|].
    exists w', b. split; [exact Hstep|exact Hctx].
Defined.

(** ** The end of a pass *)

Section pass_end.

Variable iteration : gset str → list str.
Hypothesis iteration_elements : ∀ s, iteration s ≡ₚ elements s.

(** A call either leaves the world as it is (no sequence to decide, or
    an input that is no choice), or moves the index on; it returns
    [True] for an input that is no choice, and else tells whether the
    index is still within the list. *)
Lemma handle_caps_choice_counted (t0 : str) (choice : str) (w w' : AllCaps.world)
    (b : bool) :
  in_pass t0 w → counted w →
  AllCaps.handle_caps_choice iteration choice w = Some (w', b) →
  counted w'
  ∧ (is_Some (AllCaps.read_choice choice) →
     (b = bool_decide
            (AllCaps.current_match_index (AllCaps.w_proc w')
             < length (AllCaps.all_caps_matches_original (AllCaps.w_proc w'))))
     ∧ (S (AllCaps.current_match_index (AllCaps.w_proc w))
        ≤ AllCaps.current_match_index (AllCaps.w_proc w')
        ∨ length (AllCaps.all_caps_matches_original (AllCaps.w_proc w'))
          ≤ AllCaps.current_match_index (AllCaps.w_proc w'))).
Proof.
  intros Hw Hc. unfold AllCaps.handle_caps_choice.
  destruct (AllCaps.current_caps_sequence (AllCaps.w_proc w)) as [seq|] eqn:Hseq;
    cycle 1.
  { intros [= <- <-]. split; [done|]. intros _.
    pose proof (counted_none _ Hc Hseq) as Hover. split; [|by right].
    symmetry. apply bool_decide_eq_false_2. lia. }
  destruct (pass_current_shape _ _ _ Hw Hseq) as (m & Hm & Hg & Hsp & Hcaps & _).
  pose proof (caps_word_nonempty _ Hcaps) as Hne.
  destruct seq as [|c seq]; [done|]. rewrite Hsp.
  cbn [mbind option_bind Re.span].
  destruct (AllCaps.read_choice choice) as [ch|].
  2:{ intros [= <- <-]. split; [done|]. by intros [? ?]. }
  destruct (AllCaps.apply_choice iteration ch (c :: seq) (Re.m_start m)
              (Re.m_end m) w) as [w1|] eqn:Happly; [|done].
  apply apply_choice_inv in Happly
    as (Hshown & Hdec & Hign & Hlow & Hms & Hcur & Hsp1 & Hidx & Htext).
  cbn [mbind option_bind]. intros [= <- <-].
  pose proof (process_next_sequence_cases (AllCaps.advance w1))
    as (Hctx & Henv & Hms' & Hdec' & Hlow' & k & Hk & Hskip & Hcase).
  cbn [AllCaps.advance AllCaps.w_ctx AllCaps.w_proc AllCaps.w_env AllCaps.shown
       AllCaps.set_index AllCaps.all_caps_matches_original
       AllCaps.decided_sequences_text AllCaps.lowercased_original_spans
       AllCaps.current_match_index AllCaps.current_caps_sequence
       AllCaps.current_caps_span] in *.
  pose proof (counted_shown _ Hc) as Hs. pose proof (counted_bound _ Hc) as Hb.
  rewrite Hms', Hms, Hk, Hidx.
  destruct Hcase as [(Hkl & Hsh & Hc' & _)|(m' & Hm' & _ & _ & Hsh & Hc' & _)].
  - rewrite length_drop in Hkl. split; [|intros _; split; [done|left; lia]].
    constructor; rewrite ?Hsh, ?Hshown, ?Hms', ?Hms, ?Hk, ?Hidx.
    + lia.
    + done.
    + rewrite Hc', Hcur, Hseq. done.
  - apply lookup_lt_Some in Hm'. rewrite length_drop, ?Hms, ?Hidx in Hm'.
    split; [|intros _; split; [done|left; lia]].
    constructor; rewrite ?Hsh, ?Hshown, ?Hms', ?Hms, ?Hk, ?Hidx, ?length_app;
      cbn [length].
    + lia.
    + lia.
    + by rewrite Hc'.
Qed.

Lemma start_counted (callback : bool) (ctx : BookfixContext) (env : Datafile.fs)
    (w0 : AllCaps.world) :
  AllCaps.start iteration callback ctx env = Some w0 → counted w0.
Proof.
  unfold AllCaps.start, AllCaps.process_all_caps_sequences.
  destruct (AllCaps.sub_lower_all _ _) as [t|]; [|done].
  cbn [mbind option_bind]. intros [= <-].
  match goal with |- counted (AllCaps.process_next_sequence ?w) =>
    pose proof (process_next_sequence_cases w)
      as (_ & _ & Hms & _ & _ & k & Hk & _ & Hcase);
    set (w1 := AllCaps.process_next_sequence w) in *
  end.
  cbn [AllCaps.w_ctx AllCaps.w_proc AllCaps.w_env AllCaps.shown AllCaps.new
       AllCaps.all_caps_matches_original AllCaps.current_match_index
       AllCaps.current_caps_sequence AllCaps.current_caps_span] in *.
  rewrite drop_0 in Hcase.
  destruct Hcase as [(Hkl & Hsh & Hc' & _)|(m' & Hm' & _ & _ & Hsh & Hc' & _)].
  - constructor; rewrite ?Hsh, ?Hms, ?Hk; cbn [length]; lia.
  - apply lookup_lt_Some in Hm'.
    constructor; rewrite ?Hsh, ?Hms, ?Hk; cbn [length app];
      [lia|lia|by rewrite Hc'].
Qed.

Lemma handle_all_counted (t0 : str) (choices : list str) :
  ∀ w w', in_pass t0 w → counted w →
    AllCaps.handle_all iteration choices w = Some w' →
    counted w'
    ∧ AllCaps.all_caps_matches_original (AllCaps.w_proc w')
      = AllCaps.all_caps_matches_original (AllCaps.w_proc w)
    ∧ (Forall (λ c, is_Some (AllCaps.read_choice c)) choices →
       AllCaps.current_match_index (AllCaps.w_proc w) + length choices
       ≤ AllCaps.current_match_index (AllCaps.w_proc w')
       ∨ length (AllCaps.all_caps_matches_original (AllCaps.w_proc w'))
         ≤ AllCaps.current_match_index (AllCaps.w_proc w')).
Proof.
  induction choices as [|choice choices IH]; intros w w' Hw Hc;
    cbn [AllCaps.handle_all].
  - intros [= <-]. split; [done|]. split; [done|]. intros _. left.
    cbn [length]. lia.
  - destruct (AllCaps.handle_caps_choice iteration choice w) as [[w1 b]|] eqn:Hstep;
      [|done].
    cbn [mbind option_bind]. intros Hrest.
    destruct (handle_caps_choice_in_pass iteration iteration_elements t0 choice
                w Hw) as (w1' & b' & Hstep' & Hw1).
    rewrite Hstep in Hstep'. injection Hstep' as <- <-.
    destruct (handle_caps_choice_counted _ _ _ _ _ Hw Hc Hstep) as [Hc1 Hprog].
    destruct (IH _ _ Hw1 Hc1 Hrest) as (Hc' & Hms & Hidx).
    split; [done|].
    assert (Hms1 : AllCaps.all_caps_matches_original (AllCaps.w_proc w1)
                   = AllCaps.all_caps_matches_original (AllCaps.w_proc w)).
    { by rewrite (pass_snapshot _ _ Hw1), (pass_snapshot _ _ Hw). }
    split; [by rewrite Hms|].
    intros [Hch Hall]%Forall_cons. specialize (Hidx Hall).
    destruct (Hprog Hch) as [_ Hstep1]. cbn [length].
    destruct Hidx as [Hidx|Hidx]; [|by right].
    destruct Hstep1 as [Hstep1|Hstep1]; [left; lia|].
    right. rewrite Hms. lia.
Qed.

End pass_end.

(** Property X9.  A pass ends.  Let sets be visited in any order of
    their elements, and let no entry of [lowercase_set] hold a
    backslash.  In a pass started on a fresh processor, whatever inputs
    are given, the number of sequences shown for a choice never exceeds
    the number of sequences detected in the text; and once as many
    choices have been made as there are sequences detected (inputs that
    are no choice not counted), the index has passed the last
    sequence, so that every later call with a choice returns [False]. *)
Theorem pass_ends (iteration : gset str → list str) (callback : bool)
    (ctx : BookfixContext) (env : Datafile.fs) (choices : list str) :
  (∀ s, iteration s ≡ₚ elements s) →
  (∀ word, word ∈ lowercase_set ctx → AllCaps.literal (lower word) = true) →
  let detected := Re.finditer AllCaps.sequence_pattern (text ctx) in
  ∃ w0 w,
    AllCaps.start iteration callback ctx env = Some w0
    ∧ AllCaps.handle_all iteration choices w0 = Some w
    ∧ AllCaps.all_caps_matches_original (AllCaps.w_proc w) = detected
    ∧ length (AllCaps.shown w) ≤ length detected
    ∧ (Forall (λ c, is_Some (AllCaps.read_choice c)) choices →
       length detected ≤ length choices →
       length detected ≤ AllCaps.current_match_index (AllCaps.w_proc w)
       ∧ ∀ choice, is_Some (AllCaps.read_choice choice) →
           ∃ w', AllCaps.handle_caps_choice iteration choice w
                 = Some (w', false)).
Proof.
  intros Hiter Hlit detected. subst detected.
  destruct (start_in_pass iteration Hiter callback ctx env Hlit)
    as (w0 & Hstart & H0 & _ & _).
  destruct (handle_all_in_pass iteration Hiter _ choices w0 H0) as (w & Hw & H).
  pose proof (start_counted iteration _ _ _ _ Hstart) as Hc0.
  destruct (handle_all_counted iteration Hiter _ _ _ _ H0 Hc0 Hw)
    as (Hc & Hms & Hidx).
  exists w0, w. split; [done|]. split; [done|].
  pose proof (pass_snapshot _ _ H) as Hsnap. split; [done|].
  split; [rewrite <- Hsnap; apply Hc|].
  intros Hall Hlen. specialize (Hidx Hall).
  assert (Hover : length (Re.finditer AllCaps.sequence_pattern (text ctx))
                  ≤ AllCaps.current_match_index (AllCaps.w_proc w)).
  { rewrite Hsnap in Hidx. destruct Hidx as [Hidx|Hidx]; lia. }
  split; [done|]. intros choice Hch.
  destruct (handle_caps_choice_in_pass iteration Hiter _ choice w H)
    as (w' & b & Hstep & Hw').
  destruct (handle_caps_choice_counted iteration _ _ _ _ _ H Hc Hstep)
    as [Hc' Hprog].
  destruct (Hprog Hch) as [Hb Hadv]. exists w'. rewrite Hstep. do 2 f_equal.
  rewrite Hb. apply bool_decide_eq_false_2.
  rewrite (pass_snapshot _ _ Hw') in *.
  destruct Hadv as [Hadv|Hadv]; lia.
Qed.

Lemma pass_ends_witness :
  ∃ w0 w, AllCaps.example_start = Some w0
       ∧ AllCaps.handle_all elements [py "y"; py "n"; py "a"; py "i"] w0
         = Some w
       ∧ length (AllCaps.shown w) ≤ 4.
Proof.
  destruct (pass_ends elements true AllCaps.example_ctx AllCaps.example_env
              [py "y"; py "n"; py "a"; py "i"])
    as (w0 & w & H0 & Hw & _ & Hshown & _).
  - done.
  - intros word Hword. unfold AllCaps.example_ctx in Hword.
    cbn [lowercase_set] in Hword. apply elem_of_singleton in Hword as ->.
    reflexivity.
  - exists w0, w. unfold AllCaps.example_start.
    split; [exact H0|]. split; [exact Hw|].
    etrans; [exact Hshown|]. by vm_compute.
Defined.


(** ** Lowercase conversion and the all-caps pass *)

(** A sequence is matched between two word boundaries. *)
Lemma sequence_match_whole (sn ah : str) (c' : Re.cursor) :
  Re.match_at AllCaps.sequence_pattern (Re.Cursor sn ah) = Some c' →
  ∃ w, caps_word w = true
       ∧ is_Some (Re.match_at (Re.whole_word false w) (Re.Cursor sn ah))
       ∧ Re.pos c' = length sn + length w.
Proof.
  intros Hm. destruct (sequence_match _ _ _ Hm) as (w & Hcaps & _ & Htake & Hpos).
  exists w. split; [done|]. split; [|done].
  rewrite match_whole_word.
  revert Hm. unfold Re.match_at, AllCaps.sequence_pattern.
  cbn [Re.run Re.seen Re.ahead].
  destruct (Re.boundary sn ah); [|done].
  destruct ah as [|x a]; [done|]. destruct (Char.is_upper x) eqn:Hx; [|done].
  intros (v & rest & -> & _ & Hall & Hk)%rep_advances.
  cbn [Re.run Re.seen Re.ahead] in Hk.
  destruct rest as [|d rest]; [done|].
  destruct (Char.is_upper d) eqn:Hd; [|done].
  cbn [Re.seen Re.ahead] in Hk.
  destruct (Re.boundary _ _) eqn:Hb; [|done]. injection Hk as <-.
  assert (Hw : w = x :: v ++ [d]).
  { unfold Re.pos in Hpos. cbn [Re.seen length] in Hpos.
    rewrite length_app, length_reverse in Hpos. cbn [length] in Hpos.
    rewrite <- Htake.
    replace (length w) with (length (x :: v ++ [d]))
      by (cbn [length]; rewrite length_app; cbn [length]; lia).
    cbn [length]. rewrite firstn_cons. f_equal.
    rewrite (cons_middle d v rest), app_assoc. apply take_app_length. }
  rewrite bool_decide_eq_true_2 by done. cbn [andb].
  subst w. cbn [length]. rewrite skipn_cons.
  rewrite (cons_middle d v rest), app_assoc, drop_app_length.
  replace (reverse (x :: v ++ [d]) ++ sn) with (d :: reverse v ++ x :: sn).
  - by rewrite Hb.
  - rewrite reverse_cons, reverse_app, reverse_singleton.
    cbn [app]. by rewrite <- app_assoc.
Qed.

(** Every sequence detected stands in the text as a whole word. *)
Lemma sequence_occurs (t : str) (m : Re.rmatch) :
  m ∈ Re.finditer AllCaps.sequence_pattern t →
  Re.m_start m ≤ length t ∧ occurs (Re.group0 m) t (Re.m_start m).
Proof.
  unfold Re.finditer. intros ([s e] & -> & Hin)%list_elem_of_fmap.
  apply scan_sound in Hin as (j & c' & Hj & -> & Hm & <-).
  rewrite app_nil_r in Hm.
  apply sequence_match_whole in Hm as Hw. destruct Hw as (w & Hcaps & Hsome & Hpos).
  cbn [fst snd Re.group0 Re.m_start length] in *. rewrite Nat.add_0_l.
  split; [done|].
  apply sequence_match in Hm as (w' & _ & _ & Htake' & Hpos').
  assert (length w' = length w) by lia.
  apply match_at_occurs in Hsome; [|done].
  rewrite length_reverse, length_take_le in Hpos by done.
  rewrite Hpos. unfold slice.
  replace (j + length w - j) with (length w) by lia.
  destruct Hsome as (Hb & Hchars & He).
  assert (Ht : take (length w) (drop j t) = w) by (by apply take_drop_lookup).
  by rewrite Ht.
Qed.







(** ** The rules applied before the all-caps pass *)

(** The loop of [apply_upper_to_lower] over the rules of
    [lowercase_set] is the pre-pass of the all-caps processor. *)
Lemma upper_to_lower_loop_spec (words : list str) :
  ∀ t made,
    (∀ word, word ∈ words → AllCaps.literal (lower word) = true) →
    ∃ made',
      Lowercase.upper_to_lower_loop ((λ word, (word, lower word)) <$> words)
        t made
      = Some (AllCaps.lower_words words t, made').
Proof.
  induction words as [|word words IH]; intros t made Hlit; [by eexists|].
  cbn [fmap list_fmap Lowercase.upper_to_lower_loop].
  rewrite Hlit by apply list_elem_of_here.
  apply IH. intros v Hv. apply Hlit. by apply list_elem_of_further.
Qed.

(** Lowercasing a word that does not occur changes nothing. *)
Lemma lower_word_absent (w t : str) :
  no_whole_word w t → AllCaps.lower_word w t = t.
Proof.
  unfold no_whole_word, AllCaps.lower_word, Re.sub. intros ->.
  cbn. apply drop_0.
Qed.

Lemma lower_words_absent (words : list str) (t : str) :
  (∀ w, w ∈ words → no_whole_word w t) → AllCaps.lower_words words t = t.
Proof.
  induction words as [|word words IH]; intros Hall; [done|].
  change (AllCaps.lower_words (word :: words) t)
    with (AllCaps.lower_words words (AllCaps.lower_word word t)).
  rewrite lower_word_absent by apply Hall, list_elem_of_here.
  apply IH. intros w Hw. apply Hall. by apply list_elem_of_further.
Qed.

(** Property X11.  When [run_processing] has applied the
    [UPPER_TO_LOWER] rules, the all-caps pass neither changes the text
    in its pre-pass nor asks about a rule.  Let sets be visited in any
    order of their elements, and let every entry of [lowercase_set] be
    an all-caps word without a backslash.  The pre-application
    returns; it changes the text in case only and leaves no whole-word
    occurrence of an entry; it leaves the sets as they are.  A pass
    started on the result returns with the text as it is, detects no
    sequence that is an entry of [lowercase_set], and shows none. *)
Theorem pre_applied_rules_are_not_asked (iteration : gset str → list str)
    (callback : bool) (ctx : BookfixContext) (env : Datafile.fs) :
  (∀ s, iteration s ≡ₚ elements s) →
  (∀ word, word ∈ lowercase_set ctx →
     caps_word word = true ∧ AllCaps.literal (lower word) = true) →
  ∃ ctx1 w0,
    Pipeline.pre_apply_rules iteration ctx = Some ctx1
    ∧ lower (text ctx1) = lower (text ctx)
    ∧ length (text ctx1) = length (text ctx)
    ∧ (∀ word, word ∈ lowercase_set ctx → no_whole_word word (text ctx1))
    ∧ lowercase_set ctx1 = lowercase_set ctx
    ∧ ignore_set ctx1 = ignore_set ctx
    ∧ AllCaps.start iteration callback ctx1 env = Some w0
    ∧ text (AllCaps.w_ctx w0) = text ctx1
    ∧ (∀ m, m ∈ AllCaps.all_caps_matches_original (AllCaps.w_proc w0) →
         Re.group0 m ∉ lowercase_set ctx)
    ∧ (∀ s, s ∈ fst <$> AllCaps.shown w0 → s ∉ lowercase_set ctx).
Proof.
  intros Hiter Hset.
  assert (Hlit : ∀ word, word ∈ iteration (lowercase_set ctx) →
            AllCaps.literal (lower word) = true).
  { intros word. rewrite Hiter, elem_of_elements. by intros [_ ?]%Hset. }
  assert (Hpre : ∃ ctx1,
            Pipeline.pre_apply_rules iteration ctx = Some ctx1
            ∧ text ctx1 = AllCaps.lower_words (iteration (lowercase_set ctx))
                            (text ctx)
            ∧ lowercase_set ctx1 = lowercase_set ctx
            ∧ ignore_set ctx1 = ignore_set ctx).
  { unfold Pipeline.pre_apply_rules.
    destruct (decide (lowercase_set ctx ≠ ∅)) as [Hne|Hemp].
    - unfold Lowercase.apply_upper_to_lower, Pipeline.mapping.
      destruct (upper_to_lower_loop_spec _ (text ctx) 0 Hlit) as [made ->].
      cbn [mbind option_bind]. by eexists.
    - exists ctx. split; [done|]. split; [|done].
      apply dec_stable in Hemp. rewrite Hemp.
      assert (iteration ∅ = []) as ->; [|done].
      apply Permutation_nil_r. by rewrite Hiter, elements_empty. }
  destruct Hpre as (ctx1 & Hpre & Htext & Hlc & Hig).
  assert (Hclear : ∀ word, word ∈ lowercase_set ctx →
            no_whole_word word (text ctx1)).
  { intros word Hword. rewrite Htext. apply lower_words_clear.
    - rewrite Hiter. by apply elem_of_elements.
    - by apply Hset. }
  destruct (start_in_pass iteration Hiter callback ctx1 env)
    as (w0 & Hstart & H0 & _ & _).
  { intros word. rewrite Hlc. by intros [_ ?]%Hset. }
  exists ctx1, w0. split; [done|].
  split; [by rewrite Htext, lower_lower_words|].
  split; [apply lower_eq_length; by rewrite Htext, lower_lower_words|].
  split; [done|]. split; [done|]. split; [done|]. split; [done|].
  assert (Hsame : text (AllCaps.w_ctx w0) = text ctx1).
  { revert Hstart. unfold AllCaps.start, AllCaps.process_all_caps_sequences.
    cbn [AllCaps.w_ctx AllCaps.w_proc AllCaps.w_env AllCaps.shown AllCaps.new
         AllCaps.current_caps_sequence AllCaps.current_caps_span
         AllCaps.text_update_callback].
    rewrite sub_lower_all_literal by (by rewrite Hlc).
    cbn [mbind option_bind]. intros [= <-].
    match goal with |- context [AllCaps.process_next_sequence ?w] =>
      pose proof (process_next_sequence_cases w) as (Hctx & _)
    end.
    rewrite Hctx. cbn [AllCaps.w_ctx text set_text].
    apply lower_words_absent. intros w. rewrite Hlc, Hiter, elem_of_elements.
    apply Hclear. }
  assert (Hdet : ∀ m, m ∈ Re.finditer AllCaps.sequence_pattern (text ctx1) →
            Re.group0 m ∉ lowercase_set ctx).
  { intros m Hm Hin. destruct (sequence_occurs _ _ Hm) as [Hle Hocc].
    eapply no_whole_word_elim; [| |by apply Hclear|done]; [|done].
    apply caps_word_nonempty. by apply Hset. }
  split; [done|]. split.
  - intros m. rewrite (pass_snapshot _ _ H0). apply Hdet.
  - intros s Hs.
    destruct (pass_shown _ _ H0 s Hs) as [Hd|Hc].
    + revert Hd Hstart. unfold AllCaps.start, AllCaps.process_all_caps_sequences.
      destruct (AllCaps.sub_lower_all _ _) as [t|]; [|done].
      cbn [mbind option_bind]. intros Hd [= <-]. revert Hd.
      match goal with |- context [AllCaps.process_next_sequence ?w] =>
        pose proof (process_next_sequence_cases w) as (_ & _ & _ & Hdec & _)
      end.
      rewrite Hdec. cbn. by intros ?%elem_of_empty.
    + destruct (pass_current _ _ H0 _ Hc) as (m & Hm & <- & _). by apply Hdet.
Qed.

Lemma pre_applied_rules_are_not_asked_witness :
  ∃ ctx1 w0,
    Pipeline.pre_apply_rules elements AllCaps.example_ctx = Some ctx1
    ∧ AllCaps.start elements true ctx1 AllCaps.example_env = Some w0
    ∧ text (AllCaps.w_ctx w0) = text ctx1.
Proof.
  destruct (pre_applied_rules_are_not_asked elements true AllCaps.example_ctx
              AllCaps.example_env)
    as (ctx1 & w0 & Hpre & _ & _ & _ & _ & _ & Hstart & Htext & _).
  - done.
  - intros word Hword. unfold AllCaps.example_ctx in Hword.
    cbn [lowercase_set] in Hword. apply elem_of_singleton in Hword as ->.
    split; reflexivity.
  - exists ctx1, w0. split; [exact Hpre|]. split; [exact Hstart|exact Htext].
Defined.


(** ** A session of the numbered-line editor *)

(** What holds of the processor during a session over the lines
    [found]: the list is the one found, the index stays within it, and
    every edit belongs to a line of the list, is stripped text and
    differs from the stripped line. *)
Lemma numbered_act_keeps (found : list Numbered.numbered_line)
    (a : numbered_action) (p : Numbered.processor) :
  let ok p :=
    Numbered.numbered_lines p = found
    ∧ (found ≠ [] → Numbered.current_numbered_idx p < length found)
    ∧ (∀ i r, Numbered.numbered_edits p !! i = Some r →
         ∃ line spans edited,
           (i, line, spans) ∈ found ∧ r = strip edited ∧ r ≠ strip line) in
  ok p →
  ok (numbered_act a p).1
  ∧ ∀ i, is_Some (Numbered.numbered_edits p !! i) →
         is_Some (Numbered.numbered_edits (numbered_act a p).1 !! i).
Proof.
  cbn zeta. intros (Hl & Hidx & Hed).
  assert (Hnext : ∀ q,
            Numbered.numbered_lines q = found →
            (found ≠ [] → Numbered.current_numbered_idx q < length found) →
            Numbered.numbered_lines (Numbered.go_next q).1 = found
            ∧ (found ≠ [] →
               Numbered.current_numbered_idx (Numbered.go_next q).1
               < length found)
            ∧ Numbered.numbered_edits (Numbered.go_next q).1
              = Numbered.numbered_edits q).
  { intros q Hq Hqi. unfold Numbered.go_next, Numbered.finish_editing.
    destruct (decide _) as [Hlt|Hge]; cbn [fst Numbered.numbered_lines
      Numbered.current_numbered_idx Numbered.numbered_edits].
    - rewrite Hq in Hlt. split; [done|]. split; [|done]. intros _. lia.
    - done. }
  destruct a as [edited| |]; cbn [numbered_act].
  - unfold Numbered.save_and_next.
    destruct (Numbered.numbered_lines p !! Numbered.current_numbered_idx p)
      as [[[lineno original_line] spans]|] eqn:Hcur.
    + destruct (decide (strip edited ≠ strip original_line)) as [Hne|Heq].
      * match goal with |- context [Numbered.go_next ?q] =>
          destruct (Hnext q) as (H1 & H2 & H3); [done|done|]
        end.
        rewrite H3. cbn [Numbered.numbered_edits]. split; [split; [done|split; [done|]]|].
        -- intros i r. destruct (decide (i = lineno)) as [->|Hi].
           ++ rewrite lookup_insert_eq. intros [= <-].
              exists original_line, spans, edited. split; [|done].
              rewrite <- Hl. by eapply list_elem_of_lookup_2.
           ++ rewrite lookup_insert_ne by done. apply Hed.
        -- intros i Hi. destruct (decide (i = lineno)) as [->|Hne'].
           ++ rewrite lookup_insert_eq. by eexists.
           ++ by rewrite lookup_insert_ne.
      * destruct (Hnext p) as (H1 & H2 & H3); [done|done|].
        rewrite H3. by split.
    + destruct (Hnext p) as (H1 & H2 & H3); [done|done|].
      rewrite H3. by split.
  - destruct (Hnext p) as (H1 & H2 & H3); [done|done|]. rewrite H3. by split.
  - unfold Numbered.go_previous.
    destruct (Numbered.current_numbered_idx p) as [|n] eqn:Hn;
      cbn [fst Numbered.numbered_lines Numbered.current_numbered_idx
           Numbered.numbered_edits].
    + split; [|done]. split; [done|]. split; [|done]. by rewrite Hn.
    + split; [|done]. split; [done|]. split; [|done].
      intros Hne. specialize (Hidx Hne). lia.
Qed.

Lemma numbered_session_keeps (found : list Numbered.numbered_line)
    (actions : list numbered_action) :
  ∀ p,
    Numbered.numbered_lines p = found →
    (found ≠ [] → Numbered.current_numbered_idx p < length found) →
    (∀ i r, Numbered.numbered_edits p !! i = Some r →
       ∃ line spans edited,
         (i, line, spans) ∈ found ∧ r = strip edited ∧ r ≠ strip line) →
    let p' := numbered_session actions p in
    Numbered.numbered_lines p' = found
    ∧ (found ≠ [] → Numbered.current_numbered_idx p' < length found)
    ∧ (∀ i r, Numbered.numbered_edits p' !! i = Some r →
         ∃ line spans edited,
           (i, line, spans) ∈ found ∧ r = strip edited ∧ r ≠ strip line)
    ∧ ∀ i, is_Some (Numbered.numbered_edits p !! i) →
           is_Some (Numbered.numbered_edits p' !! i).
Proof.
  induction actions as [|a actions IH]; intros p Hl Hidx Hed; cbn zeta.
  - by repeat split.
  - destruct (numbered_act_keeps found a p) as [(H1 & H2 & H3) Hmono]; [done|].
    destruct (IH _ H1 H2 H3) as (H1' & H2' & H3' & Hmono').
    unfold numbered_session in *. cbn [foldl].
    split; [done|]. split; [done|]. split; [done|].
    intros i Hi. by apply Hmono', Hmono.
Qed.

(** Property X12.  A session of the numbered-line editor, from
    [start_numbered_line_edit] through any series of [save_and_next],
    [go_next] and [go_previous]: the list of numbered lines stays the
    one found in the text; when it is not empty the index stays within
    it, so that there is always a current line to show; every recorded
    edit is stripped text that differs from the stripped content of a
    detected line and is keyed by that line's number, which is a line
    number of the text; an edit once recorded is never removed by
    later actions; and [apply_edits] on the same context then puts
    every recorded edit in the place of its line. *)
Theorem numbered_session_edits (ctx : BookfixContext)
    (actions more : list numbered_action) :
  let found := Numbered.find_numbered_lines (text ctx) in
  let p := numbered_session actions (Numbered.start_numbered_line_edit ctx).1 in
  Numbered.numbered_lines p = found
  ∧ (found ≠ [] → Numbered.current_numbered_idx p < length found)
  ∧ (∀ i r, Numbered.numbered_edits p !! i = Some r →
       ∃ line spans edited,
         (i, line, spans) ∈ found
         ∧ splitlines (text ctx) !! i = Some line
         ∧ r = strip edited ∧ r ≠ strip line)
  ∧ (∀ i, is_Some (Numbered.numbered_edits p !! i) →
          is_Some (Numbered.numbered_edits (numbered_session more p) !! i))
  ∧ ∃ lines',
      (Numbered.numbered_edits p ≠ ∅ →
       text (Numbered.apply_edits p ctx) = join nl lines')
      ∧ length lines' = length (splitlines (text ctx))
      ∧ ∀ i,
          (Numbered.numbered_edits p !! i = None →
           lines' !! i = splitlines (text ctx) !! i)
          ∧ (∀ r, Numbered.numbered_edits p !! i = Some r →
                  lines' !! i = Some r).
Proof.
  cbn zeta.
  set (found := Numbered.find_numbered_lines (text ctx)).
  set (p0 := (Numbered.start_numbered_line_edit ctx).1).
  assert (H0 : Numbered.numbered_lines p0 = found) by done.
  assert (Hi0 : found ≠ [] → Numbered.current_numbered_idx p0 < length found).
  { intros Hne. cbn. destruct found; [done|]. cbn. lia. }
  assert (He0 : ∀ i r, Numbered.numbered_edits p0 !! i = Some r →
            ∃ line spans edited,
              (i, line, spans) ∈ found ∧ r = strip edited ∧ r ≠ strip line).
  { intros i r. cbn. by rewrite lookup_empty. }
  destruct (numbered_session_keeps found actions p0 H0 Hi0 He0)
    as (H1 & H2 & H3 & _).
  set (p := numbered_session actions p0) in *.
  destruct (numbered_session_keeps found more p H1 H2 H3) as (_ & _ & _ & Hmono).
  assert (Hline : ∀ i line spans, (i, line, spans) ∈ found →
            splitlines (text ctx) !! i = Some line).
  { intros i line spans Hin. unfold found, Numbered.find_numbered_lines in Hin.
    apply find_loop_spec in Hin as (j & -> & Hl & _). by rewrite Nat.add_0_l. }
  split; [done|]. split; [done|]. split.
  { intros i r Hr. destruct (H3 i r Hr) as (line & spans & edited & Hin & ? & ?).
    exists line, spans, edited. split; [done|]. split; [|done]. by eapply Hline. }
  split; [done|].
  exists (Numbered.edit_lines (map_to_list (Numbered.numbered_edits p))
            (splitlines (text ctx))).
  split; [|split; [apply edit_lines_length|]].
  - intros Hne. unfold Numbered.apply_edits.
    destruct (map_to_list (Numbered.numbered_edits p)) as [|e es] eqn:E; [|done].
    by apply map_to_list_empty_iff in E.
  - intros i. split.
    + intros Hnone. apply edit_lines_other.
      intros ((k & v) & -> & Hin%elem_of_map_to_list)%list_elem_of_fmap.
      simpl in Hnone. congruence.
    + intros r Hr. apply edit_lines_key;
        [apply NoDup_fst_map_to_list|by apply elem_of_map_to_list|].
      destruct (H3 i r Hr) as (line & spans & edited & Hin & _).
      apply Hline in Hin. by eapply lookup_lt_Some.
Qed.


(** ** Blank line removal *)

(** The lines of [splitlines] hold no line boundary. *)
Lemma splitlines_go_unbroken (n : nat) :
  ∀ s cur, length s ≤ n → unbroken cur →
    Forall (λ l, unbroken l) (splitlines_go cur s).
Proof.
  unfold unbroken. induction n as [|n IH]; intros s cur Hn Hcur.
  - destruct s; [|simpl in Hn; lia]. cbn.
    destruct cur; [done|]. constructor; [|done]. by apply Forall_reverse.
  - destruct s as [|c s]; cbn [splitlines_go].
    { destruct cur; [done|]. constructor; [|done]. by apply Forall_reverse. }
    simpl in Hn. destruct (Char.is_linebreak c) eqn:Hc.
    + constructor; [by apply Forall_reverse|].
      destruct s as [|d s]; [done|]. simpl in Hn.
      destruct (_ && _); (apply IH; [simpl; lia|apply Forall_nil_2]).
    + apply IH; [lia|]. by constructor.
Qed.

Lemma splitlines_unbroken (t : str) : Forall (λ l, unbroken l) (splitlines t).
Proof. apply (splitlines_go_unbroken (length t)); [done|apply Forall_nil_2]. Qed.

(** Reading a line without a boundary moves it to the current line. *)
Lemma splitlines_go_line (p : str) :
  ∀ cur rest, unbroken p →
    splitlines_go cur (p ++ rest) = splitlines_go (reverse p ++ cur) rest.
Proof.
  unfold unbroken. induction p as [|c p IH]; intros cur rest Hp; [done|].
  apply Forall_cons in Hp as [Hc Hp]. cbn [app splitlines_go]. rewrite Hc.
  rewrite IH by done. by rewrite reverse_cons, <- app_assoc.
Qed.

(** Lines that are not empty and hold no boundary are read back from
    their join as they are. *)
Lemma join_cons (sep p q : str) (ps : list str) :
  join sep (p :: q :: ps) = p ++ sep ++ join sep (q :: ps).
Proof. done. Qed.

Lemma join_nonempty (sep q : str) (ps : list str) :
  q ≠ [] → join sep (q :: ps) ≠ [].
Proof.
  intros Hq. destruct ps; [done|]. rewrite join_cons.
  by intros [? _]%app_eq_nil.
Qed.

Lemma splitlines_join (ls : list str) :
  Forall (λ l, l ≠ [] ∧ unbroken l) ls → splitlines (join nl ls) = ls.
Proof.
  unfold splitlines. induction ls as [|p ls IH]; [done|].
  intros [[Hne Hp] Hls]%Forall_cons. destruct ls as [|q ls].
  - cbn [join]. rewrite <- (app_nil_r p) at 1.
    rewrite splitlines_go_line, app_nil_r by done. cbn.
    destruct (reverse p) eqn:E.
    + apply (f_equal reverse) in E. rewrite reverse_involutive in E. done.
    + by rewrite <- E, reverse_involutive.
  - rewrite join_cons, splitlines_go_line, app_nil_r by done.
    specialize (IH Hls). apply Forall_cons in Hls as [[Hq _] _].
    pose proof (join_nonempty nl q ls Hq) as Hj.
    destruct (join nl (q :: ls)) as [|d rest]; [done|].
    cbn [nl app splitlines_go]. change (Char.is_linebreak LF) with true.
    cbn match. rewrite reverse_involutive. f_equal.
    change (bool_decide (LF = "013"%char)) with false. cbn [andb]. exact IH.
Qed.

Lemma strip_nil_blank (l : str) : strip l ≠ [] → l ≠ [].
Proof. by intros Hs ->. Qed.

(** Property X13.  [remove_blank_lines]: the lines of the result, as
    [splitlines] gives them, are exactly the lines of the text that
    hold something other than white space, in their order; none of
    them is blank; every line kept is unchanged; a second run leaves
    the text as it is; and the entry added to the processing log
    counts the lines removed. *)
Theorem remove_blank_lines_result (ctx : BookfixContext) :
  let ctx' := Blanklines.remove_blank_lines ctx in
  let kept := filter (λ l, strip l ≠ []) (splitlines (text ctx)) in
  text ctx' = join nl kept
  ∧ splitlines (text ctx') = kept
  ∧ Forall (λ l, strip l ≠ []) (splitlines (text ctx'))
  ∧ text (Blanklines.remove_blank_lines ctx') = text ctx'
  ∧ (∃ entry,
       processing_log ctx' = processing_log ctx ++ [entry]
       ∧ step entry = py "remove_blank_lines"
       ∧ description entry
         = py "Removed "
             ++ str_of_nat (length (splitlines (text ctx)) - length kept)
             ++ py " blank lines ("
             ++ str_of_nat (length (splitlines (text ctx))) ++ Blanklines.arrow
             ++ str_of_nat (length kept) ++ py " lines)")
  ∧ length kept ≤ length (splitlines (text ctx)).
Proof.
  cbn zeta.
  set (kept := filter (λ l, strip l ≠ []) (splitlines (text ctx))).
  assert (Htext : text (Blanklines.remove_blank_lines ctx) = join nl kept)
    by done.
  assert (Hsplit : splitlines (join nl kept) = kept).
  { apply splitlines_join. apply Forall_forall. intros l Hl.
    apply list_elem_of_filter in Hl as [Hl Hin]. split; [by apply strip_nil_blank|].
    pose proof (splitlines_unbroken (text ctx)) as Hall.
    rewrite Forall_forall in Hall. by apply Hall. }
  split; [done|]. rewrite Htext, Hsplit. split; [done|].
  split; [apply Forall_forall; by intros l [? _]%list_elem_of_filter|]. split.
  - unfold Blanklines.remove_blank_lines at 1.
    cbn [text log_change set_text]. rewrite Htext, Hsplit.
    f_equal. unfold kept. rewrite list_filter_filter.
    apply list_filter_iff. tauto.
  - split; [by eexists|]. apply length_filter.
Qed.


(** ** A session of word choices *)







(** ** Saving the default directory *)

Lemma default_dir_saved (m : str) :
  Datafile.saved_section m = Some Datafile.sec_default_dir
  ↔ m = Datafile.DEFAULT_DIR_SECTION_MARKER.
Proof.
  unfold Datafile.saved_section. split.
  - repeat (destruct (decide _) as [->|?]; [done|]). done.
  - by intros ->.
Qed.

(** The rewriting loop ends: every jump goes forward. *)
Lemma dir_loop_total (lines : list str) (found : Datafile.indices)
    (content : list str) :
  entries_behind lines None found →
  ∀ fuel i acc, length lines - i ≤ fuel →
    is_Some (SaveDir.rewrite_loop fuel i lines found content acc).
Proof.
  intros Hent. induction fuel as [|fuel IH]; intros i acc Hfuel.
  - cbn. rewrite lookup_ge_None_2 by lia. by eexists.
  - cbn [SaveDir.rewrite_loop].
    destruct (lines !! i) as [line|] eqn:Hline; [|by eexists].
    apply lookup_lt_Some in Hline as Hi.
    destruct (decide (strip line = Datafile.DEFAULT_DIR_SECTION_MARKER))
      as [Hm|Hm]; [|apply IH; lia].
    destruct (Datafile.dict_get Datafile.sec_default_dir found)
      as [[s e]|] eqn:Hget; [|apply IH; lia].
    destruct (Hent _ _ _ ltac:(done) Hget) as [Hle Hb].
    specialize (Hb i line Hline ltac:(by rewrite Hm)). apply IH. lia.
Qed.

Lemma dir_saved_lines_total (env : Datafile.fs) (path : str) :
  is_Some (SaveDir.saved_lines env path).
Proof.
  unfold SaveDir.saved_lines.
  set (lines := match Datafile.data_file env with
                | Datafile.Lines l => l | _ => [] end).
  destruct (dir_loop_total lines (Datafile.section_indices lines)
              [path ++ nl] (section_indices_behind lines) (length lines) 0
              (SaveDir.Rewritten [] false) ltac:(lia)) as [r ->].
  by eexists.
Qed.

(** The loop only adds lines, and when it has handled the section the
    new content is among them. *)
Lemma dir_loop_keeps (lines : list str) (found : Datafile.indices)
    (content : list str) :
  ∀ fuel i acc r,
    SaveDir.rewrite_loop fuel i lines found content acc = Some r →
    (SaveDir.default_dir_section_handled acc = true →
     ∀ x, x ∈ content → x ∈ SaveDir.new_lines acc) →
    SaveDir.default_dir_section_handled r = true →
    ∀ x, x ∈ content → x ∈ SaveDir.new_lines r.
Proof.
  induction fuel as [|fuel IH]; intros i acc r.
  - cbn. destruct (lines !! i); [done|]. intros [= <-]. by auto.
  - cbn [SaveDir.rewrite_loop].
    destruct (lines !! i) as [line|]; [|intros [= <-]; by auto].
    destruct (decide (strip line = Datafile.DEFAULT_DIR_SECTION_MARKER))
      as [Hm|Hm];
      destruct (Datafile.dict_get Datafile.sec_default_dir found) as [[s e]|];
      intros Hloop Hacc; eapply IH; try done;
      cbn [SaveDir.new_lines SaveDir.default_dir_section_handled];
      intros Hh x Hx; rewrite ?elem_of_app; auto.
Qed.

Lemma section_rewrite_inside (mk : str) (content rest : list str) :
  section_rewrite mk content true rest
  = section_rewrite mk content false (drop (content_end rest) rest).
Proof.
  induction rest as [|l rest IH]; [done|].
  cbn [content_end]. destruct (is_marker l) eqn:E.
  - rewrite drop_0. cbn [section_rewrite]. by rewrite E.
  - cbn [section_rewrite drop]. by rewrite E.
Qed.

(** The rewriting loop on a file in which the marker lies ahead at
    most once: it copies the lines ahead as the rewrite of the section
    does. *)
Lemma dir_loop_spec (found : Datafile.indices) (content : list str) :
  ∀ fuel read todo acc,
    length todo ≤ fuel →
    target Datafile.sec_default_dir Datafile.DEFAULT_DIR_SECTION_MARKER
      read todo found →
    SaveDir.rewrite_loop fuel (length read) (read ++ todo) found content acc
    = Some (SaveDir.Rewritten
              (SaveDir.new_lines acc
                 ++ section_rewrite Datafile.DEFAULT_DIR_SECTION_MARKER
                      content false todo)
              (SaveDir.default_dir_section_handled acc
               || has_marker Datafile.DEFAULT_DIR_SECTION_MARKER todo)).
Proof.
  assert (Hend : ∀ fuel read acc,
            SaveDir.rewrite_loop fuel (length read) (read ++ []) found content acc
            = Some (SaveDir.Rewritten
                      (SaveDir.new_lines acc
                         ++ section_rewrite Datafile.DEFAULT_DIR_SECTION_MARKER
                              content false [])
                      (SaveDir.default_dir_section_handled acc || false))).
  { intros fuel read [nl0 a]. rewrite app_nil_r.
    destruct fuel; cbn; rewrite lookup_ge_None_2 by lia;
      by rewrite app_nil_r, !orb_false_r. }
  induction fuel as [|fuel IH]; intros read todo acc Hfuel Htarget.
  - destruct todo; [apply Hend|simpl in Hfuel; lia].
  - destruct todo as [|l rest]; [apply Hend|]. simpl in Hfuel.
    cbn [SaveDir.rewrite_loop]. rewrite list_lookup_middle by done.
    pose proof (mk_is_marker _ _ default_dir_saved) as Hmk.
    destruct (decide (strip l = Datafile.DEFAULT_DIR_SECTION_MARKER)) as [Hl|Hl].
    + destruct (target_here _ _ _ _ _ _ Hl Htarget) as (s & -> & Hfree).
      replace (SaveDir.rewrite_loop fuel (length read + 1 + content_end rest)
                 (read ++ l :: rest) found content)
        with (SaveDir.rewrite_loop fuel
                (length (read ++ l :: take (content_end rest) rest))
                ((read ++ l :: take (content_end rest) rest)
                   ++ drop (content_end rest) rest) found content); cycle 1.
      { rewrite <- app_assoc. cbn [app]. rewrite take_drop.
        rewrite length_app. cbn [length].
        rewrite length_take_le by apply content_end_le.
        f_equal. lia. }
      rewrite IH; cycle 1.
      { rewrite length_drop. lia. }
      { left. by apply Forall_drop. }
      cbn [SaveDir.new_lines SaveDir.default_dir_section_handled
           section_rewrite has_marker existsb].
      rewrite (Hmk _ Hl), decide_True by done.
      rewrite <- section_rewrite_inside. rewrite <- !app_assoc. cbn [app].
      rewrite (bool_decide_eq_true_2 _ Hl). by rewrite orb_true_r.
    + assert (Hgoal :
        SaveDir.rewrite_loop fuel (S (length read)) (read ++ l :: rest) found
          content
          (SaveDir.Rewritten (SaveDir.new_lines acc ++ [l])
             (SaveDir.default_dir_section_handled acc))
        = Some (SaveDir.Rewritten
                  (SaveDir.new_lines acc
                     ++ section_rewrite Datafile.DEFAULT_DIR_SECTION_MARKER
                          content false (l :: rest))
                  (SaveDir.default_dir_section_handled acc
                   || has_marker Datafile.DEFAULT_DIR_SECTION_MARKER (l :: rest)))).
      { replace (SaveDir.rewrite_loop fuel (S (length read))
                   (read ++ l :: rest) found content)
          with (SaveDir.rewrite_loop fuel (length (read ++ [l]))
                  ((read ++ [l]) ++ rest) found content); cycle 1.
        { rewrite <- app_assoc. cbn [app]. rewrite length_app.
          cbn [length]. f_equal. lia. }
        rewrite IH; cycle 1.
        { lia. }
        { by eapply target_step. }
        cbn [SaveDir.new_lines SaveDir.default_dir_section_handled
             section_rewrite has_marker existsb].
        rewrite decide_False by done. rewrite bool_decide_eq_false_2 by done.
        cbn [orb]. rewrite <- !app_assoc. cbn [app].
        by destruct (is_marker l). }
      by destruct (Datafile.dict_get Datafile.sec_default_dir found) as [[? ?]|].
Qed.

(** The rewrite of a section whose marker stands once in the file. *)
Lemma section_rewrite_free (mk : str) (content lines : list str) :
  marker_free mk lines → section_rewrite mk content false lines = lines.
Proof.
  induction lines as [|l rest IH]; [done|].
  intros [Hl Hrest]%Forall_cons. cbn [section_rewrite].
  rewrite decide_False by done. rewrite IH by done. by destruct (is_marker l).
Qed.

Lemma section_rewrite_once (mk : str) (content pre : list str) (m : str)
    (post : list str) :
  (∀ l, strip l = mk → is_marker l = true) →
  marker_free mk pre → marker_free mk post → strip m = mk →
  section_rewrite mk content false (pre ++ m :: post)
  = pre ++ m :: content ++ drop (content_end post) post.
Proof.
  intros Hmk Hpre Hpost Hm. induction pre as [|l pre IH].
  - cbn [app section_rewrite]. rewrite (Hmk _ Hm), decide_True by done.
    rewrite section_rewrite_inside, section_rewrite_free; [done|].
    by apply Forall_drop.
  - apply Forall_cons in Hpre as [Hl Hpre]. cbn [app section_rewrite].
    rewrite decide_False by done. rewrite IH by done. by destruct (is_marker l).
Qed.

(** Property X15.  [save_default_directory_to_data_file] returns for
    every data file and every path.  For a file in which
    [# DEFAULT_FILE_DIR] occurs at most once, the lines it writes are:
    when the marker is missing, the lines of the file followed by an
    empty line (if the last line is not blank), the marker and the
    path; when the marker is there, the lines of the file with the
    content of that section (the lines after the marker up to the
    next marker, comments included) replaced by the one line of the
    path, and every other line as it was and where it was.  Whatever
    the file holds, the path is among the lines written. *)
Theorem save_default_directory_rewrite (env : Datafile.fs) (lines : list str)
    (path : str) :
  Datafile.data_file env = Datafile.Lines lines →
  marker_once Datafile.DEFAULT_DIR_SECTION_MARKER lines →
  (∀ env' path', ∃ written env'',
     SaveDir.saved_lines env' path' = Some written
     ∧ path' ++ nl ∈ written
     ∧ SaveDir.save_default_directory_to_data_file env' path' = Some env''
     ∧ env'' = (if Datafile.can_write env'
                then Datafile.Fs (Datafile.written written)
                       (Datafile.probe_dir env') (Datafile.can_write env')
                else env'))
  ∧ (marker_free Datafile.DEFAULT_DIR_SECTION_MARKER lines →
     SaveDir.saved_lines env path
     = Some (Datafile.append_section Datafile.DEFAULT_DIR_SECTION_MARKER
               [path ++ nl] lines))
  ∧ (∀ pre m post,
       lines = pre ++ m :: post →
       strip m = Datafile.DEFAULT_DIR_SECTION_MARKER →
       SaveDir.saved_lines env path
       = Some (pre ++ m :: (path ++ nl) :: drop (content_end post) post)).
Proof.
  intros Hfile Honce. split; [|].
  { intros env' path'.
    destruct (dir_saved_lines_total env' path') as [written Hw].
    exists written. eexists. split; [done|]. split.
    - revert Hw. unfold SaveDir.saved_lines.
      destruct (SaveDir.rewrite_loop _ _ _ _ _ _) as [r|] eqn:Hloop; [|done].
      cbn [mbind option_bind]. intros [= <-].
      destruct (SaveDir.default_dir_section_handled r) eqn:Hh.
      + eapply dir_loop_keeps; [done|done|done|]. apply list_elem_of_here.
      + apply elem_of_append_section. right. apply list_elem_of_here.
    - unfold SaveDir.save_default_directory_to_data_file. rewrite Hw. done. }
  assert (Hsaved : SaveDir.saved_lines env path
            = Some (if has_marker Datafile.DEFAULT_DIR_SECTION_MARKER lines
                    then section_rewrite Datafile.DEFAULT_DIR_SECTION_MARKER
                           [path ++ nl] false lines
                    else Datafile.append_section
                           Datafile.DEFAULT_DIR_SECTION_MARKER [path ++ nl]
                           (section_rewrite Datafile.DEFAULT_DIR_SECTION_MARKER
                              [path ++ nl] false lines))).
  { unfold SaveDir.saved_lines. rewrite Hfile.
    pose proof (dir_loop_spec (Datafile.section_indices lines) [path ++ nl]
                  (length lines) [] lines (SaveDir.Rewritten [] false)
                  (Nat.le_refl _)
                  (section_indices_target _ _ default_dir_saved _ Honce))
      as Hloop.
    cbn [length app] in Hloop. rewrite Hloop.
    cbn [mbind option_bind SaveDir.new_lines
         SaveDir.default_dir_section_handled orb app]. done. }
  split.
  - intros Hfree. rewrite Hsaved.
    apply has_marker_free in Hfree as Hno. rewrite Hno.
    by rewrite section_rewrite_free.
  - intros pre m post -> Hm. rewrite Hsaved.
    assert (Hhas : has_marker Datafile.DEFAULT_DIR_SECTION_MARKER
                     (pre ++ m :: post) = true).
    { apply not_false_iff_true. intros Hno%has_marker_free.
      apply Forall_app in Hno as [_ Hno]. by apply Forall_cons in Hno as [? _]. }
    rewrite Hhas.
    assert (Hpre : marker_free Datafile.DEFAULT_DIR_SECTION_MARKER pre
                   ∧ marker_free Datafile.DEFAULT_DIR_SECTION_MARKER post).
    { unfold marker_once in Honce.
      rewrite filter_app, filter_cons_True, length_app in Honce by done.
      cbn [length] in Honce.
      split; apply Forall_forall; intros l Hl Hlm.
      - assert (l ∈ filter (λ l, strip l = Datafile.DEFAULT_DIR_SECTION_MARKER)
                      pre) as Hin by by apply list_elem_of_filter.
        destruct (filter _ pre); [by apply elem_of_nil in Hin|simpl in Honce; lia].
      - assert (l ∈ filter (λ l, strip l = Datafile.DEFAULT_DIR_SECTION_MARKER)
                      post) as Hin by by apply list_elem_of_filter.
        destruct (filter _ post); [by apply elem_of_nil in Hin|].
        simpl in Honce. lia. }
    destruct Hpre as [Hpre Hpost].
    rewrite (section_rewrite_once _ _ _ _ _
               (mk_is_marker _ _ default_dir_saved) Hpre Hpost Hm).
    done.
Qed.

Lemma save_default_directory_rewrite_witness :
  SaveDir.saved_lines dir_env (py "/books")
  = Some (Datafile.file_lines
            ["# CHOICE"; "x -> y"; "# DEFAULT_FILE_DIR"; "/books";
             "# PERIODS"; "Mr"]%string).
Proof.
  destruct (save_default_directory_rewrite dir_env dir_file (py "/books"))
    as (_ & _ & Honce); [done|by vm_compute|].
  rewrite (Honce (Datafile.file_lines ["# CHOICE"; "x -> y"]%string)
             (py "# DEFAULT_FILE_DIR" ++ nl)
             (Datafile.file_lines ["/old"; "# old one"; "# PERIODS"; "Mr"]%string));
    [by vm_compute|done|by vm_compute].
Defined.


(** ** What is saved is loaded again *)





















Section rewritten.

Variable env : Datafile.fs.
Variables ic lc : list str.
Variables ig lcs : gset str.
Hypothesis Hic : ∀ rest ctx,
  Datafile.load_lines env (ic ++ rest) (Some Datafile.sec_ignore) ctx
  = Datafile.load_lines env rest (Some Datafile.sec_ignore)
      (set_ignore_set (ig ∪ ignore_set ctx) ctx).
Hypothesis Hlc : ∀ rest ctx,
  Datafile.load_lines env (lc ++ rest) (Some Datafile.sec_lowercase) ctx
  = Datafile.load_lines env rest (Some Datafile.sec_lowercase)
      (set_lowercase_set (lcs ∪ lowercase_set ctx) ctx).


End rewritten.


















(** ** Period insertion *)

Lemma dotted_cons (c d : ascii) (w : str) :
  Periods.dotted (c :: d :: w) = c :: "."%char :: Periods.dotted (d :: w).
Proof. done. Qed.

Lemma dotted_length (abbr : str) :
  length (Periods.dotted abbr) = length abbr + max 1 (length abbr).
Proof.
  destruct abbr as [|c w]; [done|]. revert c.
  induction w as [|d w IH]; intros c; [done|].
  rewrite dotted_cons. cbn [length]. rewrite IH. cbn [length]. lia.
Qed.

Lemma dotted_unpunctuated (abbr : str) :
  unpunctuated (Periods.dotted abbr) = unpunctuated abbr.
Proof.
  unfold unpunctuated. destruct abbr as [|c w]; [done|]. revert c.
  induction w as [|d w IH]; intros c.
  - cbn. by destruct (decide (c ≠ "."%char)).
  - rewrite dotted_cons.
    destruct (decide (c ≠ "."%char)) as [Hc|Hc].
    + rewrite !(filter_cons_True _ c) by done. f_equal.
      rewrite filter_cons_False by (by intros H). apply IH.
    + rewrite !(filter_cons_False _ c) by done.
      rewrite filter_cons_False by (by intros H). apply IH.
Qed.

(** In the replacement every backslash stands in front of a period. *)
Lemma dotted_backslash (abbr : str) (i : nat) :
  Periods.dotted abbr !! i = Some "\"%char →
  Periods.dotted abbr !! S i = Some "."%char.
Proof.
  destruct abbr as [|c w]; [by destruct i as [|[|i]]|]. revert c i.
  induction w as [|d w IH]; intros c i.
  - by destruct i as [|[|i]].
  - rewrite dotted_cons. destruct i as [|[|i]]; [done|done|].
    cbn [lookup list_lookup]. apply IH.
Qed.

(** The length of a text in which every match grew by [d]. *)
Lemma rebuild_with_length (t : str) (d : nat) :
  ∀ ms from,
    from ≤ length t →
    chained (length t) from ((Re.span ∘ fst) <$> ms) →
    Forall (λ mr, length mr.2 = Re.m_end mr.1 - Re.m_start mr.1 + d) ms →
    length (Re.rebuild_with t from ms) = length t - from + length ms * d.
Proof.
  induction ms as [|[m r] ms IH]; intros from Hfrom Hch Hall.
  - cbn [Re.rebuild_with length]. rewrite length_drop. lia.
  - cbn [Re.rebuild_with]. cbn in Hch. destruct Hch as (H1 & H2 & H3 & Hch).
    apply Forall_cons in Hall as [Hr Hall]. cbn [fst snd] in Hr.
    rewrite !length_app, IH, Hr by done. unfold slice.
    rewrite length_take_le by (rewrite length_drop; lia). cbn [length]. lia.
Qed.

(** One abbreviation: only periods are put in, one or more for every
    match. *)
Lemma insert_one (abbr t : str) :
  let t' := Re.sub (Re.whole_word false abbr) (λ _, Periods.dotted abbr) t in
  let n := length (Re.finditer (Re.whole_word false abbr) t) in
  unpunctuated t' = unpunctuated t
  ∧ length t' = length t + n * max 1 (length abbr)
  ∧ (n = 0 → t' = t).
Proof.
  cbn zeta. unfold Re.sub.
  set (ms := Re.finditer (Re.whole_word false abbr) t).
  assert (Hch : chained (length t) 0
                  ((Re.span ∘ fst) <$> ((λ m, (m, Periods.dotted abbr)) <$> ms))).
  { rewrite <- list_fmap_compose.
    exact (finditer_chained (Re.whole_word false abbr) t). }
  assert (Hg : ∀ m, m ∈ ms →
            slice t (Re.m_start m) (Re.m_end m) = abbr
            ∧ Re.m_end m - Re.m_start m = length abbr).
  { intros m Hm. pose proof (whole_word_group0 _ _ _ Hm) as Hw.
    pose proof (finditer_group0 _ _ _ Hm) as Hs.
    pose proof (finditer_bounds _ _ _ Hm) as [Hb1 Hb2].
    rewrite Hw in Hs. split; [done|].
    apply (f_equal length) in Hs. unfold slice in Hs.
    rewrite length_take_le in Hs by (rewrite length_drop; lia). done. }
  split; [|split].
  - unfold unpunctuated.
    rewrite (rebuild_with_hom (filter (λ c, c ≠ "."%char)) t);
      [done|apply filter_app|done|].
    apply Forall_fmap, Forall_forall. intros m Hm. unfold compose. cbn [fst snd].
    destruct (Hg m Hm) as [-> _]. apply dotted_unpunctuated.
  - rewrite (rebuild_with_length t (max 1 (length abbr))); [|lia|done|].
    + rewrite length_fmap. lia.
    + apply Forall_fmap, Forall_forall. intros m Hm. unfold compose. cbn [fst snd].
      destruct (Hg m Hm) as [_ ->]. apply dotted_length.
  - intros Hn. destruct ms; [done|done].
Qed.

Lemma insert_loop_spec (abbrs : list str) :
  ∀ t made,
    let r := Periods.insert_loop abbrs t made in
    unpunctuated r.1 = unpunctuated t
    ∧ made ≤ r.2
    ∧ length t + (r.2 - made) ≤ length r.1
    ∧ (r.2 = made → r.1 = t).
Proof.
  induction abbrs as [|abbr rest IH]; intros t made; cbn zeta.
  { cbn. split; [done|]. split; [done|]. split; [lia|done]. }
  cbn [Periods.insert_loop].
  destruct (insert_one abbr t) as (H1 & H2 & H3).
  destruct (IH (Re.sub (Re.whole_word false abbr) (λ _, Periods.dotted abbr) t)
              (made + length (Re.finditer (Re.whole_word false abbr) t)))
    as (I1 & I2 & I3 & I4).
  split; [by rewrite I1|]. split; [lia|]. split; [nia|].
  intros Heq. rewrite I4 by lia. apply H3. lia.
Qed.

(** Property X17.  [insert_periods_into_abbreviations], in whatever
    order the set [ctx.periods] is visited: the step only ever puts
    periods in, so that the text without its periods is the same
    before and after; the text grows by at least one character for
    every insertion counted, and it is unchanged exactly when the count
    is zero; the rule sets of the context are untouched and one entry
    is added to the processing log, with the number of abbreviations
    and the count.  The replacement handed to [re.sub] stands for
    itself as a template.  The result depends on the order of the
    visit: for the abbreviations [Mr] and [M] the text [Mr] becomes
    [M..r.] in one order and [M.r.] in the other. *)
Theorem insert_periods_only_periods (iteration : gset str → list str)
    (ctx : BookfixContext) :
  let ctx' := Periods.insert_periods_into_abbreviations iteration ctx in
  let made := (Periods.insert_loop (iteration (periods ctx)) (text ctx) 0).2 in
  unpunctuated (text ctx') = unpunctuated (text ctx)
  ∧ length (text ctx) + made ≤ length (text ctx')
  ∧ (made = 0 ↔ text ctx' = text ctx)
  ∧ (periods ctx' = periods ctx ∧ choices ctx' = choices ctx
     ∧ replacements ctx' = replacements ctx ∧ ignore_set ctx' = ignore_set ctx
     ∧ lowercase_set ctx' = lowercase_set ctx
     ∧ roman_ignore_set ctx' = roman_ignore_set ctx)
  ∧ (∃ entry,
       processing_log ctx' = processing_log ctx ++ [entry]
       ∧ step entry = py "insert_periods"
       ∧ description entry
         = py "Processed " ++ str_of_nat (size (periods ctx))
             ++ py " abbreviations, made " ++ str_of_nat made
             ++ py " insertions")
  ∧ (∀ abbr i, Periods.dotted abbr !! i = Some "\"%char →
               Periods.dotted abbr !! S i = Some "."%char)
  ∧ (Periods.insert_loop [py "Mr"; py "M"] (py "Mr") 0).1 = py "M..r."
  ∧ (Periods.insert_loop [py "M"; py "Mr"] (py "Mr") 0).1 = py "M.r.".
Proof.
  cbn zeta. unfold Periods.insert_periods_into_abbreviations.
  destruct (insert_loop_spec (iteration (periods ctx)) (text ctx) 0)
    as (H1 & _ & H3 & H4).
  set (r := Periods.insert_loop (iteration (periods ctx)) (text ctx) 0) in *.
  cbn [text log_change set_text periods choices replacements ignore_set
       lowercase_set roman_ignore_set processing_log].
  split; [done|]. split; [lia|]. split.
  { split; [done|]. intros Heq. rewrite Heq in H3. lia. }
  split; [done|]. split; [by eexists|].
  split; [apply dotted_backslash|]. by vm_compute.
Qed.


(** ** The processing pipeline *)


















(** ** Lower case first, then the all-caps pass *)






